(** * GCSA2 construction primitives: support.h and internal.h

    A shallow embedding of the key and node codecs, the path-node
    comparators, the LCP range extension, and the internal helper
    structures (ValueIndex, SLArray, PriorityQueue), with the properties
    the specification states about them. *)

From Stdlib Require Import ZArith List Lia Ascii String Bool.
From stdpp Require Import base option list gmap.

Local Open Scope Z_scope.

(** ** Outcomes of partial code

    [Fault] stands for an access outside a vector or array, or a thrown
    exception; [OutOfFuel] for a loop cut off by the fuel bound of the model
    (never by the program). *)

Inductive res (A : Type) : Type :=
| Ok (a : A)
| Fault
| OutOfFuel.

Arguments Ok {A} a.
Arguments Fault {A}.
Arguments OutOfFuel {A}.

#[global] Instance res_ret : MRet res := fun A a => Ok a.
#[global] Instance res_bind : MBind res := fun A B f c =>
  match c with
  | Ok a => f a
  | Fault => Fault
  | OutOfFuel => OutOfFuel
  end.

(** Reading slot [i] of a vector: no bounds check in the source. *)
Definition at_index {A : Type} (v : list A) (i : Z) : res A :=
  if i <? 0 then Fault
  else match v !! Z.to_nat i with
       | Some a => Ok a
       | None => Fault
       end.

(** ** Machine integers *)

Definition wrap64 (z : Z) : Z := z mod 2 ^ 64.
Definition wrap32 (z : Z) : Z := z mod 2 ^ 32.
Definition wrap8 (z : Z) : Z := z mod 2 ^ 8.

(** [x << n] and [x >> n] on a 64-bit unsigned value. *)
Definition shl64 (x n : Z) : Z := wrap64 (Z.shiftl x n).
Definition shr64 (x n : Z) : Z := Z.shiftr x n.

Definition is_u64 (z : Z) : Prop := 0 <= z < 2 ^ 64.
Definition is_byte (z : Z) : Prop := 0 <= z < 256.

(** ** Alphabet *)

Record Alphabet : Type := mkAlphabet {
  char2comp : list Z;   (* int_vector<8>, indexed by character *)
  comp2char : list Z;   (* int_vector<8>, indexed by comp value *)
  C : list Z;           (* int_vector<64> *)
  sigma : Z
}.

(** The byte of a character of a [std::string], between 0 and 255. *)
Definition char_byte (c : ascii) : Z := Z.of_N (N_of_ascii c).

(** A character of a [std::string] used as a vector index, as in
    [char2comp[kmer[i]]]: the character is a plain [char], which is signed
    (x86-64), so a byte from 0x80 on is a negative value and its conversion
    to [size_type] lies in the top 128 values of the 64-bit range. *)
Definition char_code (c : ascii) : Z :=
  let b := char_byte c in
  if b <? 128 then b else wrap64 (b - 256).

(** A byte of an [int_vector<8>] converted to a character. *)
Definition code_char (z : Z) : ascii := ascii_of_N (Z.to_N z).

(** ** Key codec *)

Module Key.

Definition CHAR_WIDTH : Z := 3.
Definition CHAR_MASK : Z := 7.
Definition MAX_LENGTH : Z := 16.
Definition PRED_SUCC_MASK : Z := 65535.

(** The body of the [for] loop of [encode], over the remaining characters. *)
Fixpoint encode_loop (alpha : Alphabet) (kmer : string) (value : Z) : res Z :=
  match kmer with
  | EmptyString => Ok value
  | String c rest =>
      comp ← at_index (char2comp alpha) (char_code c);
      encode_loop alpha rest (Z.lor (shl64 value CHAR_WIDTH) comp)
  end.

Definition encode (alpha : Alphabet) (kmer : string) (pred succ : Z) : res Z :=
  value ← encode_loop alpha kmer 0;
  let value := Z.lor (shl64 value 8) pred in
  let value := Z.lor (shl64 value 8) succ in
  Ok value.

Definition label (key : Z) : Z := shr64 key 16.
Definition predecessors (key : Z) : Z := Z.land (shr64 key 8) 255.
Definition successors (key : Z) : Z := Z.land key 255.
Definition last (key : Z) : Z := Z.land (shr64 key 16) CHAR_MASK.

Definition merge (key1 key2 : Z) : Z := Z.lor key1 (Z.land key2 PRED_SUCC_MASK).
Definition replace (key kmer_val : Z) : Z :=
  Z.lor (shl64 kmer_val 16) (Z.land key PRED_SUCC_MASK).

(** The [while] loop of [lcp]; [a] and [b] are already labels. *)
Fixpoint lcp_loop (fuel : nat) (a b mask result : Z) : res Z :=
  match fuel with
  | O => OutOfFuel
  | S fuel' =>
      if 0 <? mask then
        let mask := shr64 mask CHAR_WIDTH in
        if negb (Z.land a mask =? Z.land b mask) then Ok result
        else lcp_loop fuel' a b mask (wrap64 (result + 1))
      else Ok result
  end.

(** A shift by 64 bits or more is undefined in the source language. *)
Definition lcp_fuel (fuel : nat) (a b kmer_length : Z) : res Z :=
  let shift := wrap64 (CHAR_WIDTH * kmer_length) in
  if 64 <=? shift then Fault
  else
    let mask := shl64 CHAR_MASK shift in
    lcp_loop fuel (label a) (label b) mask 0.

(** A 64-bit mask is exhausted after at most 22 shifts by three bits. *)
Definition lcp (a b kmer_length : Z) : res Z := lcp_fuel 23 a b kmer_length.

(** Modelled from the spec: the body of [Key::decode], which support.h only
    declares. It "reverses [encode], given a known k": the label is read
    three bits at a time from the low end, each digit is mapped through
    [comp2char], and the right-most character comes from the least
    significant digit. *)
Fixpoint decode_loop (alpha : Alphabet) (n : nat) (key : Z) (acc : string)
  : res string :=
  match n with
  | O => Ok acc
  | S n' =>
      ch ← at_index (comp2char alpha) (Z.land key CHAR_MASK);
      decode_loop alpha n' (shr64 key CHAR_WIDTH) (String (code_char ch) acc)
  end.

Definition decode (key kmer_length : Z) (alpha : Alphabet) : res string :=
  decode_loop alpha (Z.to_nat kmer_length) (label key) EmptyString.

End Key.

(** ** Node codec *)

Module Node.

Definition OFFSET_BITS : Z := 10.
Definition OFFSET_MASK : Z := 1023.

Definition encode (node_id node_offset : Z) : Z :=
  Z.lor (shl64 node_id OFFSET_BITS) node_offset.

Definition id (node : Z) : Z := shr64 node OFFSET_BITS.
Definition offset (node : Z) : Z := Z.land node OFFSET_MASK.

End Node.

(** The alphabet of the first scenario: $ -> 0, A -> 1, C -> 2, G -> 3,
    T -> 4; every other character is sent to 0. *)
Definition dna_char2comp : list Z :=
  map (fun i : nat =>
         if (i =? 65)%nat then 1
         else if (i =? 67)%nat then 2
         else if (i =? 71)%nat then 3
         else if (i =? 84)%nat then 4
         else 0) (seq 0 256).

Definition dna_alphabet : Alphabet :=
  {| char2comp := dna_char2comp;
     comp2char := [36; 65; 67; 71; 84];
     C := [0; 0; 0; 0; 0; 0];
     sigma := 5 |}.

(** ** Path nodes *)

Module PathNode.

Definition LABEL_LENGTH : Z := 8.

Record t : Type := mk {
  from : Z;
  to : Z;
  first_label : list Z;   (* rank_type[LABEL_LENGTH] *)
  last_label : list Z;    (* rank_type[LABEL_LENGTH] *)
  fields : Z
}.

Definition sorted (pn : t) : bool := to pn =? 2 ^ 64 - 1.
Definition makeSorted (pn : t) : t :=
  mk (from pn) (2 ^ 64 - 1) (first_label pn) (last_label pn) (fields pn).

Definition predecessors (pn : t) : Z := Z.land (fields pn) 255.

Definition order (pn : t) : Z := Z.land (shr64 (fields pn) 8) 15.
Definition setOrder (pn : t) (new_order : Z) : t :=
  let f := Z.land (fields pn) (Z.lxor (2 ^ 64 - 1) 3840) in
  mk (from pn) (to pn) (first_label pn) (last_label pn)
     (Z.lor f (shl64 new_order 8)).

Definition lcp (pn : t) : Z := Z.land (shr64 (fields pn) 12) 15.
Definition setLCP (pn : t) (new_lcp : Z) : t :=
  let f := Z.land (fields pn) (Z.lxor (2 ^ 64 - 1) 61440) in
  mk (from pn) (to pn) (first_label pn) (last_label pn)
     (Z.lor f (shl64 new_lcp 12)).

(** The [for] loop shared by [operator<] and [compareLast]: [n] rounds are
    left, [i] is the loop index, [tie] is what the function returns after
    the loop. *)
Fixpoint compare_loop (n : nat) (i : Z) (x y : list Z) (tie : bool) : res bool :=
  match n with
  | O => Ok tie
  | S n' =>
      a ← at_index x i;
      b ← at_index y i;
      if negb (a =? b) then Ok (a <? b)
      else compare_loop n' (i + 1) x y tie
  end.

(** [operator<] *)
Definition less (this another : t) : res bool :=
  let ord := Z.min (order this) (order another) in
  compare_loop (Z.to_nat ord) 0 (first_label this) (first_label another)
               (order this <? order another).

Definition compareLast (this another : t) : res bool :=
  let ord := Z.min (order this) (order another) in
  compare_loop (Z.to_nat ord) 0 (last_label this) (last_label another)
               (order another <? order this).

(** The rank sequences a path node stands for. *)
Definition first_seq (pn : t) : list Z := take (Z.to_nat (order pn)) (first_label pn).
Definition last_seq (pn : t) : list Z := take (Z.to_nat (order pn)) (last_label pn).

(** Both label arrays hold [LABEL_LENGTH] 32-bit ranks and the order is
    between 1 and [LABEL_LENGTH]. *)
Definition wf (pn : t) : Prop :=
  length (first_label pn) = 8%nat /\ length (last_label pn) = 8%nat /\
  1 <= order pn <= 8.

Definition proper_prefix (x y : list Z) : Prop :=
  exists rest, rest <> [] /\ y = x ++ rest.

(** [~(size_type)0xFF] is all ones but the low byte. *)
Definition setPredecessors (pn : t) (preds : Z) : t :=
  let f := Z.land (fields pn) (Z.lxor (2 ^ 64 - 1) 255) in
  mk (from pn) (to pn) (first_label pn) (last_label pn) (Z.lor f preds).

(** [hasPredecessor]: [1 << comp] is a shift of the [int] 1, defined as long
    as the result fits an [int]; the result of [&] is read as a bool. *)
Definition hasPredecessor (pn : t) (comp : Z) : res bool :=
  if comp <? 31 then Ok (negb (Z.land (fields pn) (Z.shiftl 1 comp) =? 0))
  else Fault.

Definition addPredecessors (pn another : t) : t :=
  mk (from pn) (to pn) (first_label pn) (last_label pn)
     (Z.lor (fields pn) (predecessors another)).

(** The degree counters kept in [to]. *)
Definition initDegree (pn : t) : t :=
  mk (from pn) 0 (first_label pn) (last_label pn) (fields pn).
Definition incrementOutdegree (pn : t) : t :=
  mk (from pn) (wrap64 (to pn + 1)) (first_label pn) (last_label pn) (fields pn).
Definition outdegree (pn : t) : Z := Z.land (to pn) 4294967295.
Definition incrementIndegree (pn : t) : t :=
  mk (from pn) (wrap64 (to pn + shl64 1 32)) (first_label pn) (last_label pn) (fields pn).
Definition indegree (pn : t) : Z := shr64 (to pn) 32.

(** The two counting steps of edge generation. *)
Inductive degree_step : Type := Out | In.

Definition count_step (pn : t) (s : degree_step) : t :=
  match s with
  | Out => incrementOutdegree pn
  | In => incrementIndegree pn
  end.

End PathNode.

(** [PathFromComparator::operator()] *)
Definition PathFromComparator (a b : PathNode.t) : bool :=
  PathNode.from a <? PathNode.from b.

(** ** LCP support *)

Module LCP.

(** The range-minimum structure [lcp_rmq] plays no part in the operations
    embedded here and is left out. *)
Record t : Type := mk {
  kmer_length : Z;
  total_keys : Z;
  kmer_lcp : list Z      (* sdsl::int_vector<0> *)
}.

(** [rank_range]: a pair of 32-bit ranks. *)
Definition rank_range : Type := (Z * Z)%type.

Definition increment (s : t) (lcp : Z * Z) : Z * Z :=
  if wrap64 (lcp.2 + 1) <? kmer_length s then (lcp.1, wrap64 (lcp.2 + 1))
  else (wrap64 (lcp.1 + 1), 0).

(** First loop of [extendRange]. *)
Fixpoint extend_first (fuel : nat) (s : t) (first lcp : Z) : res Z :=
  match fuel with
  | O => OutOfFuel
  | S fuel' =>
      if 0 <? first then
        v ← at_index (kmer_lcp s) first;
        if lcp <=? v then extend_first fuel' s (wrap32 (first - 1)) lcp
        else Ok first
      else Ok first
  end.

(** Second loop of [extendRange]; [range.second + 1] is computed in 32
    bits. *)
Fixpoint extend_second (fuel : nat) (s : t) (second lcp : Z) : res Z :=
  match fuel with
  | O => OutOfFuel
  | S fuel' =>
      if wrap32 (second + 1) <? total_keys s then
        v ← at_index (kmer_lcp s) (wrap32 (second + 1));
        if lcp <=? v then extend_second fuel' s (wrap32 (second + 1)) lcp
        else Ok second
      else Ok second
  end.

Definition extendRange (fuel : nat) (s : t) (range : rank_range) (lcp : Z)
  : res rank_range :=
  first ← extend_first fuel s range.1 lcp;
  second ← extend_second fuel s range.2 lcp;
  Ok (first, second).

(** [kmer_lcp] has [total_keys] entries. *)
Definition wf (s : t) : Prop := Z.of_nat (length (kmer_lcp s)) = total_keys s.

(** Entry [j] of [kmer_lcp] is at least [lcp]. *)
Definition entry_ge (s : t) (lcp j : Z) : Prop :=
  exists v, at_index (kmer_lcp s) j = Ok v /\ lcp <= v.

(** [(a, b)] is a widening of [(lo, hi)] that crosses only boundaries whose
    entry is at least [lcp]. *)
Definition widening (s : t) (lcp : Z) (lo hi a b : Z) : Prop :=
  0 <= a <= lo /\ hi <= b < total_keys s /\
  (forall j, a < j <= lo -> entry_ge s lcp j) /\
  (forall j, hi < j <= b -> entry_ge s lcp j).

End LCP.

(** ** SLArray *)

Module SLArray.

Record t : Type := mk {
  data : list Z;                 (* std::vector<byte_type> *)
  large_values : gmap Z Z        (* std::map<size_type, size_type> *)
}.

Definition LARGE_VALUE : Z := 255.

(** Modelled from the spec: the constructor [SLArray(n)], which internal.h
    only declares; by the comment on the struct, "Values start as 0s": [n]
    zero bytes and an empty map. *)
Definition make (n : Z) : t :=
  mk (replicate (Z.to_nat n) 0) ∅.

(** [size()] is declared [bool]: the vector's size is converted to bool. *)
Definition size (a : t) : bool := negb (Z.of_nat (length (data a)) =? 0).

(** The value a caller sees when [size()] is used as a number. *)
Definition size_value (a : t) : Z := Z.b2z (size a).

(** [operator[]]; [std::map::at] throws when the key is missing. *)
Definition get (a : t) (i : Z) : res Z :=
  d ← at_index (data a) i;
  if d =? LARGE_VALUE then
    match large_values a !! i with
    | Some v => Ok v
    | None => Fault
    end
  else Ok d.

(** [std::map::operator[]] inserts a zero when the key is missing. *)
Definition map_ref (m : gmap Z Z) (i : Z) : Z := default 0 (m !! i).

Definition increment (a : t) (i : Z) : res t :=
  d ← at_index (data a) i;
  if d =? LARGE_VALUE then
    Ok (mk (data a) (<[i := wrap64 (map_ref (large_values a) i + 1)]> (large_values a)))
  else
    let d' := wrap8 (d + 1) in
    let data' := <[Z.to_nat i := d']> (data a) in
    if d' =? LARGE_VALUE then Ok (mk data' (<[i := LARGE_VALUE]> (large_values a)))
    else Ok (mk data' (large_values a)).

(** A sequence of [increment] calls, in order. *)
Fixpoint run (a : t) (calls : list Z) : res t :=
  match calls with
  | [] => Ok a
  | i :: rest => a' ← increment a i; run a' rest
  end.

(** Number of [increment(i)] calls in a sequence. *)
Definition calls_to (i : Z) (calls : list Z) : Z :=
  Z.of_nat (length (filter (fun j => j = i) calls)).

End SLArray.

(** ** ValueIndex *)

Module ValueIndex.

(** [sdsl::sd_vector<>] with its rank support: a bit vector of [sd_size]
    bits given by the increasing list of the positions of its ones. *)
Record sd_vector : Type := mk_sd {
  sd_size : Z;
  sd_ones : list Z
}.

Definition sd_empty : sd_vector := mk_sd 0 [].

Fixpoint is_sorted (l : list Z) : bool :=
  match l with
  | [] => true
  | x :: rest =>
      match rest with
      | [] => true
      | y :: _ => (x <=? y) && is_sorted rest
      end
  end.

(** The iterator-range constructor of [sd_vector]: it throws on an unsorted
    range, and the vector ends just after the last (largest) value. *)
Definition sd_build (buffer : list Z) : res sd_vector :=
  if is_sorted buffer then
    Ok (mk_sd (wrap64 (List.last buffer 0 + 1)) buffer)
  else Fault.

(** [values[i]] *)
Definition sd_get (v : sd_vector) (i : Z) : bool :=
  existsb (fun o => o =? i) (sd_ones v).

(** [rank_1(i)]: the number of ones before position [i]. *)
Definition sd_rank (v : sd_vector) (i : Z) : Z :=
  Z.of_nat (length (filter (fun o => o < i) (sd_ones v))).

(** [select_1(k)] of a plain bit vector: the position of the [k]-th one,
    counting from 1; [pos] is the position of the head of [bits]. *)
Fixpoint select_from (bits : list bool) (pos : Z) (k : Z) : res Z :=
  match bits with
  | [] => Fault
  | b :: rest =>
      if b then
        if k =? 1 then Ok pos else select_from rest (pos + 1) (k - 1)
      else select_from rest (pos + 1) k
  end.

Definition select (bits : list bool) (k : Z) : res Z := select_from bits 0 k.

Record t : Type := mk {
  values : sd_vector;
  first_occ : list bool
}.

Section WithGetter.

Context {ValueType : Type}.

(** [Getter::get] *)
Variable getter : ValueType -> Z.

(** The scanning loop of the constructor: the values pushed to [buffer]
    and the bits written to [first_occ], for the part of the input that
    is still to be read. *)
Fixpoint scan (input : list ValueType) (prev : Z) : list Z * list bool :=
  match input with
  | [] => ([], [])
  | x :: rest =>
      let curr := getter x in
      if negb (curr =? prev) then
        let r := scan rest curr in (curr :: r.1, true :: r.2)
      else
        let r := scan rest prev in (r.1, false :: r.2)
  end.

(** The constructor. *)
Definition build (input : list ValueType) : res t :=
  let r := scan input (2 ^ 64 - 1) in
  vals ← (if 0 <? Z.of_nat (length r.1) then sd_build r.1 else Ok sd_empty);
  Ok (mk vals r.2).

Definition find (vi : t) (value : Z) : res Z :=
  if (sd_size (values vi) <=? value) || negb (sd_get (values vi) value)
  then Ok (Z.of_nat (length (first_occ vi)))
  else select (first_occ vi) (sd_rank (values vi) value + 1).

(** [i] is the first position of [input] whose value is [v]. *)
Definition first_position (input : list ValueType) (v : Z) (i : Z) : Prop :=
  0 <= i /\
  (exists x, input !! Z.to_nat i = Some x /\ getter x = v) /\
  (forall j x, 0 <= j < i -> input !! Z.to_nat j = Some x -> getter x <> v).

Definition occurs (input : list ValueType) (v : Z) : Prop :=
  exists x, x ∈ input /\ getter x = v.

(** Equal values are contiguous and the runs increase: the values never
    decrease along the input. *)
Fixpoint runs_increasing (input : list ValueType) : Prop :=
  match input with
  | [] => True
  | x :: rest =>
      (forall y, y ∈ rest -> getter x <= getter y) /\ runs_increasing rest
  end.

End WithGetter.

End ValueIndex.

(** ** PriorityQueue *)

Module PriorityQueue.

Definition parent (i : Z) : Z := wrap64 (i - 1) / 2.
Definition left (i : Z) : Z := wrap64 (2 * i + 1).
Definition right (i : Z) : Z := wrap64 (2 * i + 2).

Section WithElement.

Context {Element : Type}.

(** [operator<] of the element type. *)
Variable less : Element -> Element -> bool.

Definition size (data : list Element) : Z := Z.of_nat (length data).

Definition smaller (data : list Element) (i j : Z) : res Z :=
  dj ← at_index data j;
  di ← at_index data i;
  Ok (if less dj di then j else i).

(** [std::swap(data[i], data[j])] *)
Definition swap (data : list Element) (i j : Z) : res (list Element) :=
  di ← at_index data i;
  dj ← at_index data j;
  Ok (<[Z.to_nat i := dj]> (<[Z.to_nat j := di]> data)).

(** The index [next] that one round of the loop of [down] settles on. *)
Definition down_choice (data : list Element) (i : Z) : res Z :=
  next ← smaller data i (left i);
  if right i <? size data then smaller data next (right i) else Ok next.

Fixpoint down (fuel : nat) (data : list Element) (i : Z) : res (list Element) :=
  match fuel with
  | O => OutOfFuel
  | S fuel' =>
      if left i <? size data then
        next ← down_choice data i;
        if next =? i then Ok data
        else
          data' ← swap data i next;
          down fuel' data' next
      else Ok data
  end.

(** The loop of [heapify]; [n] bounds the rounds still to come. *)
Fixpoint heapify_loop (fuel : nat) (n : nat) (data : list Element) (i : Z)
  : res (list Element) :=
  data' ← down fuel data i;
  if i =? 0 then Ok data'
  else
    match n with
    | O => OutOfFuel
    | S n' => heapify_loop fuel n' data' (wrap64 (i - 1))
    end.

Definition heapify (fuel : nat) (data : list Element) : res (list Element) :=
  if size data <=? 1 then Ok data
  else
    let i := parent (wrap64 (size data - 1)) in
    heapify_loop fuel fuel data i.

(** Modelled from the spec: root extraction, for which the queue has no
    routine of its own. "Extracting the root" takes [data[0]], moves the last
    element to the root, drops the last slot and calls [down(0)]. *)
Definition extract_root (fuel : nat) (data : list Element)
  : res (Element * list Element) :=
  root ← at_index data 0;
  lst ← at_index data (size data - 1);
  let data' := take (length data - 1) (<[0%nat := lst]> data) in
  data'' ← down fuel data' 0;
  Ok (root, data'').

(** Modelled from the spec: "iteratively extracting the root", [n] times. *)
Fixpoint extract_all (fuel : nat) (n : nat) (data : list Element)
  : res (list Element) :=
  match n with
  | O => Ok []
  | S n' =>
      r ← extract_root fuel data;
      rest ← extract_all fuel n' r.2;
      Ok (r.1 :: rest)
  end.

(** The min-heap property: no element is strictly less than its parent. *)
Definition is_heap (data : list Element) : Prop :=
  forall j x y, 0 < j < size data ->
    data !! Z.to_nat j = Some x ->
    data !! Z.to_nat (parent j) = Some y ->
    less x y = false.

(** No element of the sequence is strictly less than the one before it. *)
Fixpoint nondecreasing (l : list Element) : Prop :=
  match l with
  | [] => True
  | x :: rest =>
      match rest with
      | [] => True
      | y :: _ => less y x = false /\ nondecreasing rest
      end
  end.

(** The heap property on the edges whose parent is at index [k] or later:
    what the loop of [heapify] has reached when it is about to call
    [down(k - 1)]. *)
Definition heap_from (data : list Element) (k : Z) : Prop :=
  forall j x y, 0 < j < size data -> k <= (j - 1) / 2 ->
    data !! Z.to_nat j = Some x ->
    data !! Z.to_nat ((j - 1) / 2) = Some y ->
    less x y = false.

(** The state of [down] started at [k] when it has reached [p]: the edges
    from [k] on are in order except those below [p], and the children of [p]
    are not less than the parent of [p]. *)
Definition sift_inv (data : list Element) (k p : Z) : Prop :=
  (0 <= k <= p /\ p < size data) /\
  (forall j x y, 0 < j < size data -> k <= (j - 1) / 2 -> (j - 1) / 2 <> p ->
     data !! Z.to_nat j = Some x ->
     data !! Z.to_nat ((j - 1) / 2) = Some y ->
     less x y = false) /\
  (0 < p -> k <= (p - 1) / 2 ->
   forall j x y, 0 < j < size data -> (j - 1) / 2 = p ->
     data !! Z.to_nat j = Some x ->
     data !! Z.to_nat ((p - 1) / 2) = Some y ->
     less x y = false).

End WithElement.

End PriorityQueue.

(** ** KMer *)

Module KMer.

Record t : Type := mk {
  key : Z;
  from : Z;
  to : Z
}.

(** [operator<] *)
Definition less (this another : t) : bool :=
  Key.label (key this) <? Key.label (key another).

Definition sorted (k : t) : bool := to k =? 2 ^ 64 - 1.
Definition makeSorted (k : t) : t := mk (key k) (from k) (2 ^ 64 - 1).

(** [operator<(key_type, const KMer&)] *)
Definition key_less (k : Z) (kmer : t) : bool :=
  Key.label k <? Key.label (key kmer).

End KMer.

(** ** Building an alphabet from a sequence *)

Module AlphabetBuild.

(** The counting loop of [characterCounts]: [sequence] is what is left of
    the byte sequence. *)
Fixpoint count_loop (sequence : list Z) (c2c : list Z) (counts : list Z)
  : res (list Z) :=
  match sequence with
  | [] => Ok counts
  | b :: rest =>
      c ← at_index c2c b;
      v ← at_index counts c;
      count_loop rest c2c (<[Z.to_nat c := wrap64 (v + 1)]> counts)
  end.

Definition characterCounts (sequence c2c counts : list Z) : res (list Z) :=
  count_loop sequence c2c (replicate (length counts) 0).

(** The loop of the constructor that turns counts into cumulative counts:
    [counts] is what is left of the vector, [sum] the running sum. *)
Fixpoint prefix_sums (counts : list Z) (sum : Z) : list Z :=
  match counts with
  | [] => []
  | temp :: rest => sum :: prefix_sums rest (wrap64 (sum + temp))
  end.

(** [Alphabet(sequence, char2comp, comp2char)] *)
Definition from_sequence (sequence c2c comp2c : list Z) : res Alphabet :=
  let C0 := replicate (S (length comp2c)) 0 in
  let sg := Z.of_nat (length comp2c) in
  if Z.of_nat (length sequence) =? 0 then Ok (mkAlphabet c2c comp2c C0 sg)
  else
    counts ← characterCounts sequence c2c C0;
    Ok (mkAlphabet c2c comp2c (prefix_sums counts 0) sg).

(** The comp value of a byte, when [char2comp] has one. *)
Definition comp_of (c2c : list Z) (b : Z) : option Z :=
  if b <? 0 then None else c2c !! Z.to_nat b.

(** The byte [b] has a comp value, and it is below [i]. *)
Definition is_below (c2c : list Z) (i : Z) (b : Z) : bool :=
  match comp_of c2c b with
  | Some c => c <? i
  | None => false
  end.

(** Number of bytes of the sequence whose comp value is below [i]. *)
Definition comps_below (c2c : list Z) (sequence : list Z) (i : Z) : Z :=
  Z.of_nat (length (filter (fun b => is_below c2c i b = true) sequence)).

End AlphabetBuild.

(** ** ReadBuffer *)

Module ReadBuffer.

Section WithElement.

Context {Element : Type}.

(** A value-initialised [Element], as [std::vector<Element> temp(count)]
    makes them. *)
Variable zero : Element.

(** [BUFFER_SIZE = MEGABYTE]; the constant [MEGABYTE] comes from utils.h. *)
Variable BUFFER_SIZE : Z.

Definition MINIMUM_SIZE : Z := BUFFER_SIZE / 2.

(** The file is kept as its sequence of whole records, and the position of
    the stream is counted in records. *)
Record t : Type := mk {
  file : list Element;     (* the records of the open file *)
  good : bool;             (* no read of the stream has failed *)
  pos : Z;                 (* read position of the stream *)
  elements : Z;
  offset : Z;
  buffer : list Element    (* std::deque<Element> *)
}.

Definition size (b : t) : Z := elements b.

Definition buffer_size (b : t) : Z := Z.of_nat (length (buffer b)).

Definition pop (b : t) : res t :=
  match buffer b with
  | [] => Fault
  | _ :: rest =>
      Ok (mk (file b) (good b) (pos b) (elements b) (wrap64 (offset b + 1)) rest)
  end.

Definition buffered (b : t) (i : Z) : bool :=
  (offset b <=? i) && (i <? wrap64 (offset b + buffer_size b)).

(** [file.seekg]: a stream that has failed does not move. *)
Definition seekg (b : t) (i : Z) : t :=
  if good b then mk (file b) true i (elements b) (offset b) (buffer b) else b.

(** [file.read] of [count] records into a vector of [count] value-initialised
    elements: a read that runs into the end of the file leaves the rest of
    the vector as it was and puts the stream in a failed state; a failed
    stream reads nothing. *)
Definition read (b : t) (count : Z) : list Element * t :=
  if good b then
    let got := take (Z.to_nat count) (drop (Z.to_nat (pos b)) (file b)) in
    if Z.of_nat (length got) =? count then
      (got, mk (file b) true (pos b + count) (elements b) (offset b) (buffer b))
    else
      (got ++ replicate (Z.to_nat count - length got) zero,
       mk (file b) false (Z.of_nat (length (file b))) (elements b) (offset b) (buffer b))
  else (replicate (Z.to_nat count) zero, b).

Definition fill (b : t) : t :=
  let target_size := Z.min BUFFER_SIZE (wrap64 (size b - offset b)) in
  if target_size <=? buffer_size b then b
  else
    let count := target_size - buffer_size b in
    let r := read b count in
    mk (file r.2) (good r.2) (pos r.2) (elements r.2) (offset r.2)
       (buffer r.2 ++ r.1).

(** [while(this->offset < i) { this->pop(); }] *)
Fixpoint pop_until (fuel : nat) (b : t) (i : Z) : res t :=
  match fuel with
  | O => OutOfFuel
  | S fuel' =>
      if offset b <? i then b' ← pop b; pop_until fuel' b' i
      else Ok b
  end.

Definition seek (fuel : nat) (b : t) (i : Z) : res t :=
  if size b <=? i then Ok b
  else if buffered b i then
    b1 ← pop_until fuel b i;
    Ok (if buffer_size b1 <? MINIMUM_SIZE then fill b1 else b1)
  else
    let b1 := mk (file b) (good b) (pos b) (elements b) (offset b) [] in
    let b2 := seekg b1 i in
    let b3 := mk (file b2) (good b2) (pos b2) (elements b2) i (buffer b2) in
    Ok (fill b3).

(** [operator[]] *)
Definition get (fuel : nat) (b : t) (i : Z) : res (Element * t) :=
  b1 ← (if buffered b i then Ok b else seek fuel b i);
  x ← at_index (buffer b1) (wrap64 (i - offset b1));
  Ok (x, b1).

(** The buffer holds the records [offset, offset + buffer.size()) of the
    file, the stream stands just behind them, and no read has failed. *)
Definition window (b : t) : Prop :=
  good b = true /\
  elements b = Z.of_nat (length (file b)) /\
  elements b < 2 ^ 64 /\
  0 <= offset b /\
  pos b = offset b + buffer_size b /\
  pos b <= elements b /\
  buffer_size b <= BUFFER_SIZE /\
  buffer b = take (length (buffer b)) (drop (Z.to_nat (offset b)) (file b)).

End WithElement.

End ReadBuffer.

(** ** Notions used to state the properties *)

(** The comp values [comps] are those of the characters [cs] under the
    alphabet. *)
Definition comps_of (alpha : Alphabet) (cs : list ascii) (comps : list Z) : Prop :=
  Forall2 (fun c v => at_index (char2comp alpha) (char_code c) = Ok v /\ 0 <= v < 8)
          cs comps.

(** The alphabet sends the comp value of each character back to it. *)
Definition canonical (alpha : Alphabet) (cs : list ascii) (comps : list Z) : Prop :=
  Forall2 (fun c v => at_index (comp2char alpha) v = Ok (char_byte c)) cs comps.

(** Big-endian packing of 3-bit digits: the left-most digit is the most
    significant one. *)
Definition pack (comps : list Z) : Z :=
  fold_left (fun acc c => acc * 8 + c) comps 0.

(** The [j]-th 3-bit digit of a label, counted from the low end. *)
Definition digit (x j : Z) : Z := Z.land (Z.shiftr x (3 * j)) 7.

(** The [n] low digits of a label, most significant first. *)
Fixpoint digits (n : nat) (x : Z) : list Z :=
  match n with
  | O => []
  | S n' => digit x (Z.of_nat n') :: digits n' x
  end.

(** Length of the longest common prefix of two sequences. *)
Fixpoint common_prefix (x y : list Z) : Z :=
  match x, y with
  | a :: x', b :: y' => if a =? b then 1 + common_prefix x' y' else 0
  | _, _ => 0
  end.

(** Lexicographic order in which a proper prefix is smaller. *)
Fixpoint lex_lt (x y : list Z) : bool :=
  match x, y with
  | [], [] => false
  | [], _ :: _ => true
  | _ :: _, [] => false
  | a :: x', b :: y' => if a =? b then lex_lt x' y' else a <? b
  end.

(** Lexicographic order in which a proper prefix is larger. *)
Fixpoint lex_lt_last (x y : list Z) : bool :=
  match x, y with
  | [], [] => false
  | [], _ :: _ => false
  | _ :: _, [] => true
  | a :: x', b :: y' => if a =? b then lex_lt_last x' y' else a <? b
  end.

(** The key of "ACG" with predecessor mask 0x10 and successor mask 0x02. *)
Definition key_ACG : Z := 5443586.

(** Two path nodes of order 1 with the same first label and different last
    labels. *)
Definition node_1_1 : PathNode.t :=
  PathNode.mk 0 0 [1; 0; 0; 0; 0; 0; 0; 0] [1; 0; 0; 0; 0; 0; 0; 0] 256.
Definition node_1_2 : PathNode.t :=
  PathNode.mk 0 0 [1; 0; 0; 0; 0; 0; 0; 0] [2; 0; 0; 0; 0; 0; 0; 0] 256.

(** Path nodes of orders 1, 2 and 2 for the ordering examples. *)
Definition node_a : PathNode.t :=
  PathNode.mk 0 0 [4; 0; 0; 0; 0; 0; 0; 0] [4; 0; 0; 0; 0; 0; 0; 0] 256.
Definition node_b : PathNode.t :=
  PathNode.mk 0 0 [4; 9; 0; 0; 0; 0; 0; 0] [4; 11; 0; 0; 0; 0; 0; 0] 4608.
Definition node_c : PathNode.t :=
  PathNode.mk 0 0 [5; 1; 0; 0; 0; 0; 0; 0] [5; 1; 0; 0; 0; 0; 0; 0] 512.

(** An LCP structure over 2^32 keys whose entries are all zero. *)
Definition lcp_2_32 : LCP.t :=
  LCP.mk 16 4294967296 (replicate (Z.to_nat 4294967296) 0).

(** The LCP array of the keys "AAA", "AAT", "ACG". *)
Definition lcp_small : LCP.t := LCP.mk 3 3 [0; 2; 1].

(** Every entry of [large_values] belongs to a slot whose byte is 255. *)
Definition slarray_sparse (a : SLArray.t) : Prop :=
  forall i v, SLArray.large_values a !! i = Some v ->
    0 <= i /\ SLArray.data a !! Z.to_nat i = Some 255.

(** How many steps of a run count an outgoing edge, and how many an incoming
    one. *)
Definition degree_outs (steps : list PathNode.degree_step) : Z :=
  Z.of_nat (length (List.filter
    (fun s => match s with PathNode.Out => true | PathNode.In => false end) steps)).
Definition degree_ins (steps : list PathNode.degree_step) : Z :=
  Z.of_nat (length (List.filter
    (fun s => match s with PathNode.Out => false | PathNode.In => true end) steps)).

(** The state of an array of [n] counters whose slot [i] has been
    incremented [c i] times: a byte below 255 is the count itself, the byte
    255 sends to the count kept (as a 64-bit value) in [large_values]. *)
Definition slarray_counts (a : SLArray.t) (n : Z) (c : Z -> Z) : Prop :=
  Z.of_nat (length (SLArray.data a)) = n /\
  forall i, 0 <= i < n ->
    0 <= c i /\
    exists d, SLArray.data a !! Z.to_nat i = Some d /\
      ((d = c i /\ c i < 255) \/
       (d = 255 /\ 255 <= c i /\
        SLArray.large_values a !! i = Some (wrap64 (c i)))).

(* ====================================================================== *)
(** * Properties *)
(* ====================================================================== *)

(** ** Results and vector reads *)

Lemma at_index_Ok {A : Type} (v : list A) (i : Z) (a : A) :
  at_index v i = Ok a <-> 0 <= i /\ v !! Z.to_nat i = Some a.
Proof.
  unfold at_index. destruct (Z.ltb_spec i 0) as [Hi | Hi].
  - split; [discriminate | lia].
  - destruct (v !! Z.to_nat i) eqn:E; split; intros H.
    + inversion H; subst; auto.
    + destruct H as [_ H]. inversion H; subst; reflexivity.
    + discriminate.
    + destruct H as [_ H]; discriminate.
Qed.

Lemma at_index_lookup {A : Type} (v : list A) (i : Z) (a : A) :
  0 <= i -> v !! Z.to_nat i = Some a -> at_index v i = Ok a.
Proof. intros. apply at_index_Ok; auto. Qed.

Lemma at_index_in_range {A : Type} (v : list A) (i : Z) :
  0 <= i < Z.of_nat (length v) -> exists a, at_index v i = Ok a.
Proof.
  intros Hi. destruct (lookup_lt_is_Some_2 v (Z.to_nat i)) as [a Ha]; [lia |].
  exists a. apply at_index_lookup; [lia | exact Ha].
Qed.

(** ** Bit-level facts *)

Lemma wrap64_small z : 0 <= z < 2 ^ 64 -> wrap64 z = z.
Proof. intros H. unfold wrap64. apply Z.mod_small. exact H. Qed.

Lemma wrap32_small z : 0 <= z < 2 ^ 32 -> wrap32 z = z.
Proof. intros H. unfold wrap32. apply Z.mod_small. exact H. Qed.

Lemma lor_shiftl_add x c n :
  0 <= n -> 0 <= c < 2 ^ n -> Z.lor (Z.shiftl x n) c = x * 2 ^ n + c.
Proof.
  intros Hn Hc.
  rewrite Z.shiftl_mul_pow2 by lia.
  rewrite <- Z.add_nocarry_lor.
  - reflexivity.
  - apply Z.bits_inj'. intros k Hk. rewrite Z.land_spec, Z.bits_0.
    destruct (Z.lt_ge_cases k n) as [Hlt | Hge].
    + rewrite Z.mul_pow2_bits_low by lia. reflexivity.
    + destruct (Z.eq_dec c 0) as [-> | Hc0].
      * rewrite Z.bits_0. apply andb_false_r.
      * rewrite (Z.bits_above_log2 c k).
        -- apply andb_false_r.
        -- lia.
        -- apply Z.log2_lt_pow2; [lia |].
           apply Z.lt_le_trans with (2 ^ n); [lia |].
           apply Z.pow_le_mono_r; lia.
Qed.

Lemma land_ones_mod x n : 0 <= n -> Z.land x (2 ^ n - 1) = x mod 2 ^ n.
Proof.
  intros Hn. replace (2 ^ n - 1) with (Z.ones n).
  - apply Z.land_ones. exact Hn.
  - rewrite Z.ones_equiv. lia.
Qed.

Lemma shr64_div x n : 0 <= n -> shr64 x n = x / 2 ^ n.
Proof. intros. unfold shr64. apply Z.shiftr_div_pow2. assumption. Qed.

Lemma shl64_small x n :
  0 <= n -> 0 <= x -> x * 2 ^ n < 2 ^ 64 -> shl64 x n = x * 2 ^ n.
Proof.
  intros Hn Hx Hlt. unfold shl64. rewrite Z.shiftl_mul_pow2 by lia.
  apply wrap64_small. split; [| exact Hlt].
  apply Z.mul_nonneg_nonneg; [lia | apply Z.pow_nonneg; lia].
Qed.

(** [(x << n) | c] when nothing is shifted out and [c] fits below. *)
Lemma lor_shl64_add x c n :
  0 <= n -> 0 <= x -> x * 2 ^ n < 2 ^ 64 -> 0 <= c < 2 ^ n ->
  Z.lor (shl64 x n) c = x * 2 ^ n + c.
Proof.
  intros Hn Hx Hlt Hc. unfold shl64.
  rewrite wrap64_small.
  - apply lor_shiftl_add; assumption.
  - rewrite Z.shiftl_mul_pow2 by lia. split; [| exact Hlt].
    apply Z.mul_nonneg_nonneg; [lia | apply Z.pow_nonneg; lia].
Qed.

(** ** Node codec *)

Example Node_encode_unmasked : Node.encode 0 1024 = 1024.
Proof. reflexivity. Qed.

(** C2, as stated, fails: an offset of 1024 is not masked by [Node::encode]. *)
Lemma Node_encode_mask_counterexample :
  is_u64 0 /\ is_u64 1024 /\
  Node.encode 0 1024 <> Z.lor (shl64 0 10) (Z.land 1024 1023).
Proof. unfold is_u64. repeat split; try lia. vm_compute. discriminate. Qed.

(** C2 (amended): [Node::encode] ORs the offset in unmasked; for an offset
    below 1024 this is [(id << 10) | (offset & 0x3FF)], and for an id below
    2^54 and an offset below 1024 the decoders [id] and [offset] recover both
    parts; [encode(5, 3)] is 5123, with id 5 and offset 3. *)
Theorem Node_encode_decode (node_id node_offset : Z) :
  is_u64 node_id -> is_u64 node_offset ->
  Node.encode node_id node_offset = Z.lor (shl64 node_id 10) node_offset /\
  (node_offset < 1024 ->
   Node.encode node_id node_offset
   = Z.lor (shl64 node_id 10) (Z.land node_offset 1023)) /\
  (node_id < 2 ^ 54 -> node_offset < 1024 ->
   Node.id (Node.encode node_id node_offset) = node_id /\
   Node.offset (Node.encode node_id node_offset) = node_offset) /\
  Node.encode 5 3 = 5123 /\ Node.id 5123 = 5 /\ Node.offset 5123 = 3.
Proof.
  intros [Hid0 Hid] [Hoff0 Hoff].
  split; [reflexivity |].
  split.
  { intros Hsmall. unfold Node.encode. f_equal.
    change 1023 with (2 ^ 10 - 1). rewrite land_ones_mod by lia.
    symmetry. apply Z.mod_small. lia. }
  split; [| repeat split; reflexivity].
  intros Hid54 Hsmall.
  unfold Node.encode, Node.id, Node.offset, Node.OFFSET_BITS, Node.OFFSET_MASK.
  rewrite lor_shl64_add by lia.
  rewrite shr64_div by lia.
  change 1023 with (2 ^ 10 - 1). rewrite land_ones_mod by lia.
  change (2 ^ 10) with 1024. split.
  - rewrite Z.div_add_l by lia. rewrite Z.div_small by lia. lia.
  - rewrite Z.add_comm, Z.mod_add by lia. apply Z.mod_small. lia.
Qed.

Lemma Node_encode_decode_witness :
  is_u64 5 /\ is_u64 3 /\
  Node.encode 5 3 = Z.lor (shl64 5 10) 3 /\
  (3 < 1024 -> Node.encode 5 3 = Z.lor (shl64 5 10) (Z.land 3 1023)) /\
  (5 < 2 ^ 54 -> 3 < 1024 ->
   Node.id (Node.encode 5 3) = 5 /\ Node.offset (Node.encode 5 3) = 3) /\
  Node.encode 5 3 = 5123 /\ Node.id 5123 = 5 /\ Node.offset 5123 = 3.
Proof.
  assert (H5 : is_u64 5) by (unfold is_u64; lia).
  assert (H3 : is_u64 3) by (unfold is_u64; lia).
  split; [exact H5 |]. split; [exact H3 |].
  exact (Node_encode_decode 5 3 H5 H3).
Defined.

(** ** Key codec *)

Lemma code_char_byte c : code_char (char_byte c) = c.
Proof.
  unfold code_char, char_byte. rewrite N2Z.id. apply ascii_N_embedding.
Qed.

Lemma char_byte_range c : 0 <= char_byte c < 256.
Proof.
  unfold char_byte. pose proof (N_ascii_bounded c) as Hb. lia.
Qed.

(** A 7-bit character indexes with its byte; any other character indexes
    at 2^64 - 128 or beyond. *)
Lemma char_code_ascii c : char_byte c < 128 -> char_code c = char_byte c.
Proof.
  intros Hc. unfold char_code. cbv zeta.
  destruct (Z.ltb_spec (char_byte c) 128); [reflexivity | lia].
Qed.

Lemma char_code_high c :
  128 <= char_byte c -> char_code c = 2 ^ 64 - 256 + char_byte c.
Proof.
  intros Hc. pose proof (char_byte_range c) as Hb. unfold char_code. cbv zeta.
  destruct (Z.ltb_spec (char_byte c) 128); [lia |].
  unfold wrap64. change (2 ^ 64) with 18446744073709551616.
  Z.div_mod_to_equations. lia.
Qed.

(** With a table of at most 2^64 - 128 entries (it has 256), a k-mer that
    holds a byte from 0x80 on makes the loop of [encode] read [char2comp]
    outside its bounds. *)
Lemma encode_loop_high_byte alpha kmer value :
  Z.of_nat (length (char2comp alpha)) <= 2 ^ 64 - 128 ->
  Exists (fun c => 128 <= char_byte c) (list_ascii_of_string kmer) ->
  Key.encode_loop alpha kmer value = Fault.
Proof.
  intros Hlen. revert value.
  induction kmer as [| c rest IH]; intros value Hex; cbn [list_ascii_of_string] in Hex.
  - inversion Hex.
  - cbn [Key.encode_loop].
    destruct (Z_lt_le_dec (char_byte c) 128) as [Hlow | Hhigh].
    + apply Exists_cons in Hex as [Hc | Hrest]; [lia |].
      destruct (at_index (char2comp alpha) (char_code c)) as [v | |] eqn:Hv;
        cbn [mbind res_bind]; [apply IH; exact Hrest | reflexivity |].
      unfold at_index in Hv.
      destruct (char_code c <? 0); [discriminate |].
      destruct (char2comp alpha !! Z.to_nat (char_code c)); discriminate.
    + unfold at_index. rewrite char_code_high by exact Hhigh.
      pose proof (char_byte_range c) as Hb.
      destruct (Z.ltb_spec (2 ^ 64 - 256 + char_byte c) 0); [reflexivity |].
      rewrite lookup_ge_None_2 by lia. reflexivity.
Qed.

(** So a character with a comp value is a 7-bit character, for such a
    table. *)
Lemma comps_of_ascii alpha cs comps :
  Z.of_nat (length (char2comp alpha)) <= 2 ^ 64 - 128 ->
  comps_of alpha cs comps ->
  Forall (fun c => char_byte c < 128) cs.
Proof.
  intros Hlen Hc. induction Hc as [| c v cs comps [Hv _] _ IH]; constructor; [| exact IH].
  destruct (Z_lt_le_dec (char_byte c) 128) as [Hlow | Hhigh]; [exact Hlow |].
  apply at_index_Ok in Hv as [_ Hv]. apply lookup_lt_Some in Hv.
  rewrite char_code_high in Hv by exact Hhigh.
  pose proof (char_byte_range c). lia.
Qed.

Lemma pack_step (comps : list Z) (acc : Z) :
  fold_left (fun a c => a * 8 + c) comps acc
  = acc * 8 ^ Z.of_nat (length comps) + pack comps.
Proof.
  unfold pack. revert acc. induction comps as [| c comps IH]; intros acc.
  - simpl. lia.
  - cbn [fold_left length]. rewrite IH. rewrite (IH (0 * 8 + c)).
    rewrite Nat2Z.inj_succ, Z.pow_succ_r by lia. lia.
Qed.

Lemma pack_cons c comps :
  pack (c :: comps) = c * 8 ^ Z.of_nat (length comps) + pack comps.
Proof. unfold pack at 1. cbn [fold_left]. rewrite pack_step. lia. Qed.

Lemma pack_snoc comps c : pack (comps ++ [c]) = pack comps * 8 + c.
Proof. unfold pack. rewrite fold_left_app. reflexivity. Qed.

Lemma pack_bound comps :
  Forall (fun v => 0 <= v < 8) comps ->
  0 <= pack comps < 8 ^ Z.of_nat (length comps).
Proof.
  induction 1 as [| c comps Hc _ IH].
  - unfold pack. simpl. lia.
  - rewrite pack_cons. cbn [length]. rewrite Nat2Z.inj_succ, Z.pow_succ_r by lia.
    nia.
Qed.

Lemma comps_of_range alpha cs comps :
  comps_of alpha cs comps -> Forall (fun v => 0 <= v < 8) comps.
Proof.
  induction 1 as [| c v cs comps [_ Hv] _ IH]; constructor; assumption.
Qed.

Lemma comps_of_length alpha cs comps :
  comps_of alpha cs comps -> length comps = length cs.
Proof. intros H. symmetry. eapply Forall2_length. exact H. Qed.

(** The loop of [encode] packs the comp values behind the value it starts
    from, as long as nothing is shifted out of the 64 bits. *)
Lemma encode_loop_pack alpha kmer comps value :
  comps_of alpha (list_ascii_of_string kmer) comps ->
  0 <= value ->
  (value + 1) * 8 ^ Z.of_nat (length comps) <= 2 ^ 64 ->
  Key.encode_loop alpha kmer value
  = Ok (value * 8 ^ Z.of_nat (length comps) + pack comps).
Proof.
  revert comps value. induction kmer as [| c kmer IH]; intros comps value Hc Hv Hb.
  - inversion Hc; subst. cbn. f_equal. unfold pack. simpl. lia.
  - cbn [list_ascii_of_string] in Hc. inversion Hc as [| ? v ? comps' [Hlk Hr] Hrest]; subst.
    cbn [Key.encode_loop]. rewrite Hlk. cbn [mbind res_bind].
    cbn [length] in Hb |- *. rewrite Nat2Z.inj_succ, Z.pow_succ_r in Hb |- * by lia.
    assert (Hp : 0 < 8 ^ Z.of_nat (length comps')) by (apply Z.pow_pos_nonneg; lia).
    unfold Key.CHAR_WIDTH. rewrite lor_shl64_add; try lia.
    change (2 ^ 3) with 8.
    rewrite (IH comps' (value * 8 + v) Hrest); [| lia | nia].
    f_equal. rewrite pack_cons. lia.
Qed.

(** The decoding loop reads the packed digits back, last character first. *)
Lemma decode_loop_pack alpha cs comps acc :
  Forall (fun v => 0 <= v < 8) comps ->
  canonical alpha cs comps ->
  Key.decode_loop alpha (length comps) (pack comps) acc
  = Ok (string_of_list_ascii cs ++ acc)%string.
Proof.
  intros Hr. revert cs acc.
  induction comps as [| v comps IH] using rev_ind; intros cs acc Hc.
  - inversion Hc; subst. reflexivity.
  - apply Forall_app in Hr as [Hr Hv]. inversion Hv as [| ? ? Hv8 _]; subst.
    apply Forall2_app_inv_r in Hc as (cs' & cl & Hc' & Hcl & ->).
    inversion Hcl as [| c ? ? ? Hlk Hnil]; subst. inversion Hnil; subst.
    rewrite length_app. cbn [length]. rewrite Nat.add_1_r.
    cbn [Key.decode_loop]. rewrite pack_snoc.
    unfold Key.CHAR_MASK, Key.CHAR_WIDTH.
    change 7 with (2 ^ 3 - 1). rewrite land_ones_mod by lia.
    rewrite shr64_div by lia. change (2 ^ 3) with 8.
    rewrite Z.add_comm, Z.mod_add by lia. rewrite (Z.mod_small v 8) by lia.
    rewrite Hlk. cbn [mbind res_bind].
    rewrite Z.div_add by lia. rewrite (Z.div_small v 8) by lia. rewrite Z.add_0_l.
    rewrite code_char_byte. rewrite (IH Hr cs' _ Hc').
    f_equal. clear. induction cs' as [| a cs' IH]; [reflexivity |].
    cbn [string_of_list_ascii app].
    change (String a (string_of_list_ascii cs') ++ String c acc)%string
      with (String a (string_of_list_ascii cs' ++ String c acc))%string.
    rewrite IH. reflexivity.
Qed.

Lemma length_list_ascii_of_string (s : string) :
  length (list_ascii_of_string s) = String.length s.
Proof. induction s as [| c s IH]; [reflexivity |]. simpl. rewrite IH. reflexivity. Qed.

Lemma digit_div_mod x j : 0 <= j -> digit x j = (x / 8 ^ j) mod 8.
Proof.
  intros Hj. unfold digit. change 7 with (2 ^ 3 - 1).
  rewrite land_ones_mod by lia. rewrite Z.shiftr_div_pow2 by lia.
  rewrite Z.pow_mul_r by lia. reflexivity.
Qed.

Lemma digit_above c x j m :
  0 <= j < m -> digit (c * 8 ^ m + x) j = digit x j.
Proof.
  intros Hj. rewrite !digit_div_mod by lia.
  replace (c * 8 ^ m) with (c * 8 ^ (m - j - 1) * 8 * 8 ^ j).
  - rewrite Z.div_add_l by (apply Z.pow_nonzero; lia).
    rewrite Z.add_comm, Z.mod_add by lia. reflexivity.
  - replace m with ((m - j - 1) + 1 + j) at 2 by lia.
    rewrite !Z.pow_add_r by lia. change (8 ^ 1) with 8. lia.
Qed.

Lemma digits_above c x n m :
  Z.of_nat n <= m -> digits n (c * 8 ^ m + x) = digits n x.
Proof.
  induction n as [| n IH]; intros Hm; [reflexivity |].
  cbn [digits]. rewrite digit_above by lia. rewrite IH by lia. reflexivity.
Qed.

(** The digits of a packed sequence are the sequence. *)
Lemma digits_pack comps :
  Forall (fun v => 0 <= v < 8) comps ->
  digits (length comps) (pack comps) = comps.
Proof.
  induction 1 as [| c comps Hc Hr IH]; [reflexivity |].
  cbn [length digits]. rewrite pack_cons.
  pose proof (pack_bound comps Hr) as Hb.
  f_equal.
  - rewrite digit_div_mod by lia.
    rewrite Z.div_add_l by (apply Z.pow_nonzero; lia).
    rewrite Z.div_small by lia. rewrite Z.add_0_r. apply Z.mod_small. lia.
  - rewrite digits_above by lia. exact IH.
Qed.

Lemma pow8_le_16 (n : nat) : (n <= 16)%nat -> 8 ^ Z.of_nat n <= 2 ^ 48.
Proof.
  intros Hn. change (2 ^ 48) with (8 ^ 16).
  apply Z.pow_le_mono_r; lia.
Qed.

(** What [encode] computes for a k-mer of at most 16 characters. *)
Lemma encode_value alpha kmer comps pred succ :
  (String.length kmer <= 16)%nat ->
  comps_of alpha (list_ascii_of_string kmer) comps ->
  is_byte pred -> is_byte succ ->
  Key.encode alpha kmer pred succ
  = Ok ((pack comps * 256 + pred) * 256 + succ) /\
  0 <= pack comps < 2 ^ 48.
Proof.
  intros Hlen Hc Hp Hs. unfold is_byte in *.
  pose proof (comps_of_length _ _ _ Hc) as Hl.
  rewrite length_list_ascii_of_string in Hl.
  pose proof (pack_bound comps (comps_of_range _ _ _ Hc)) as Hb.
  pose proof (pow8_le_16 (length comps) ltac:(lia)) as H48.
  split; [| lia].
  unfold Key.encode.
  rewrite (encode_loop_pack alpha kmer comps 0 Hc); [| lia | lia].
  cbn [mbind res_bind]. rewrite Z.mul_0_l, Z.add_0_l.
  rewrite (lor_shl64_add (pack comps) pred 8); [| lia | lia | lia | lia].
  rewrite lor_shl64_add; [| lia | lia | lia | lia].
  reflexivity.
Qed.

Lemma key_parts v pred succ :
  0 <= v -> is_byte pred -> is_byte succ ->
  Key.label ((v * 256 + pred) * 256 + succ) = v /\
  Key.predecessors ((v * 256 + pred) * 256 + succ) = pred /\
  Key.successors ((v * 256 + pred) * 256 + succ) = succ.
Proof.
  unfold is_byte. intros Hv Hp Hs.
  unfold Key.label, Key.predecessors, Key.successors.
  rewrite !shr64_div by lia.
  change 255 with (2 ^ 8 - 1). rewrite !land_ones_mod by lia.
  change (2 ^ 8) with 256. change (2 ^ 16) with 65536.
  repeat split.
  - replace ((v * 256 + pred) * 256 + succ) with (v * 65536 + (pred * 256 + succ)) by lia.
    rewrite Z.div_add_l by lia. rewrite Z.div_small by lia. lia.
  - rewrite Z.div_add_l by lia. rewrite (Z.div_small succ) by lia.
    rewrite Z.add_0_r. rewrite Z.add_comm, Z.mod_add by lia.
    apply Z.mod_small. lia.
  - rewrite Z.add_comm, Z.mod_add by lia. apply Z.mod_small. lia.
Qed.

(** C1, as stated, fails: the label of "ACG" is 83, not 664. *)
Lemma Key_ACG_label_counterexample :
  ~ (exists k, Key.encode dna_alphabet "ACG" 16 2 = Ok k /\
               Key.label k = 664 /\ Z.land k 65535 = 4098 /\
               Key.decode k 3 dna_alphabet = Ok "ACG"%string).
Proof.
  intros (k & Hk & Hl & _). vm_compute in Hk. inversion Hk; subst k.
  vm_compute in Hl. discriminate.
Qed.

(** C1 (amended): with $ -> 0, A -> 1, C -> 2, G -> 3, T -> 4, the key of
    "ACG" with masks 0x10 and 0x02 has label (1<<6)|(2<<3)|3 = 83, low 16
    bits 0x1002, and decodes back to "ACG". *)
Theorem Key_ACG_scenario :
  exists k, Key.encode dna_alphabet "ACG" 16 2 = Ok k /\
            Key.label k = 83 /\
            Z.lor (Z.lor (Z.shiftl 1 6) (Z.shiftl 2 3)) 3 = 83 /\
            Z.land k 65535 = 4098 /\
            Key.decode k 3 dna_alphabet = Ok "ACG"%string.
Proof.
  exists key_ACG. repeat split; vm_compute; reflexivity.
Qed.

(** C3, as stated, fails: 'a' maps to comp value 0 like '$', and decoding
    gives "$" back. *)
Lemma Key_roundtrip_counterexample :
  (String.length "a" <= 16)%nat /\
  comps_of dna_alphabet (list_ascii_of_string "a") [0] /\
  is_byte 0 /\
  exists k, Key.encode dna_alphabet "a" 0 0 = Ok k /\
            Key.decode k 1 dna_alphabet <> Ok "a"%string.
Proof.
  split; [simpl; lia |]. split.
  { constructor; [| constructor]. split; [vm_compute; reflexivity | lia]. }
  split; [unfold is_byte; lia |].
  exists 0. split; [vm_compute; reflexivity |].
  vm_compute. discriminate.
Qed.

(** No decoder could tell the two apart: they have the same key. *)
Lemma Key_encode_not_injective :
  Key.encode dna_alphabet "a" 0 0 = Key.encode dna_alphabet "$" 0 0.
Proof. vm_compute. reflexivity. Qed.

(** C3 (amended): for a k-mer of at most 16 characters each of which indexes
    [char2comp] within its bounds (as a plain, signed [char]: with the
    256-entry table, a 7-bit character), has a comp value below 8 and is
    mapped back by [comp2char], and for any predecessor and successor bytes,
    the key gives back both masks, its label is the big-endian 3-bit packing
    of the comp values, and decoding it over the k-mer's length returns the
    k-mer. *)
Theorem Key_roundtrip alpha kmer comps pred succ :
  (String.length kmer <= 16)%nat ->
  comps_of alpha (list_ascii_of_string kmer) comps ->
  canonical alpha (list_ascii_of_string kmer) comps ->
  is_byte pred -> is_byte succ ->
  exists k, Key.encode alpha kmer pred succ = Ok k /\
            Key.predecessors k = pred /\
            Key.successors k = succ /\
            Key.label k = pack comps /\
            digits (String.length kmer) (Key.label k) = comps /\
            Key.label k < 8 ^ Z.of_nat (String.length kmer) /\
            Key.decode k (Z.of_nat (String.length kmer)) alpha = Ok kmer.
Proof.
  intros Hlen Hc Hcan Hp Hs.
  destruct (encode_value alpha kmer comps pred succ Hlen Hc Hp Hs) as [He Hb].
  destruct (key_parts (pack comps) pred succ ltac:(lia) Hp Hs) as (Hl & Hpr & Hsu).
  pose proof (comps_of_length _ _ _ Hc) as Hlc.
  rewrite length_list_ascii_of_string in Hlc.
  pose proof (comps_of_range _ _ _ Hc) as Hr.
  eexists. split; [exact He |].
  split; [exact Hpr |]. split; [exact Hsu |]. split; [exact Hl |].
  split; [rewrite Hl, <- Hlc; apply digits_pack; exact Hr |].
  split; [rewrite Hl, <- Hlc; apply pack_bound; exact Hr |].
  unfold Key.decode. rewrite Hl. rewrite Nat2Z.id, <- Hlc.
  rewrite (decode_loop_pack alpha (list_ascii_of_string kmer) comps _ Hr Hcan).
  rewrite string_of_list_ascii_of_string. f_equal.
  clear. induction kmer as [| c kmer IH]; [reflexivity |].
  change (String c kmer ++ "")%string with (String c (kmer ++ ""))%string.
  rewrite IH. reflexivity.
Qed.

Lemma Key_roundtrip_witness :
  (String.length "ACG" <= 16)%nat /\
  comps_of dna_alphabet (list_ascii_of_string "ACG") [1; 2; 3] /\
  canonical dna_alphabet (list_ascii_of_string "ACG") [1; 2; 3] /\
  is_byte 16 /\ is_byte 2 /\
  exists k, Key.encode dna_alphabet "ACG" 16 2 = Ok k /\
            Key.predecessors k = 16 /\
            Key.successors k = 2 /\
            Key.label k = pack [1; 2; 3] /\
            digits (String.length "ACG") (Key.label k) = [1; 2; 3] /\
            Key.label k < 8 ^ Z.of_nat (String.length "ACG") /\
            Key.decode k (Z.of_nat (String.length "ACG")) dna_alphabet = Ok "ACG"%string.
Proof.
  assert (H1 : (String.length "ACG" <= 16)%nat) by (simpl; lia).
  assert (H2 : comps_of dna_alphabet (list_ascii_of_string "ACG") [1; 2; 3]).
  { repeat constructor; vm_compute; congruence. }
  assert (H3 : canonical dna_alphabet (list_ascii_of_string "ACG") [1; 2; 3]).
  { repeat constructor. }
  assert (H4 : is_byte 16) by (unfold is_byte; lia).
  assert (H5 : is_byte 2) by (unfold is_byte; lia).
  split; [exact H1 |]. split; [exact H2 |]. split; [exact H3 |].
  split; [exact H4 |]. split; [exact H5 |].
  exact (Key_roundtrip dna_alphabet "ACG" [1; 2; 3] 16 2 H1 H2 H3 H4 H5).
Defined.

(** *** The LCP of two keys *)

Lemma land_mask_digit a j :
  0 <= j -> Z.land a (7 * 8 ^ j) = digit a j * 8 ^ j.
Proof.
  intros Hj. unfold digit.
  replace (8 ^ j) with (2 ^ (3 * j)) by (rewrite Z.pow_mul_r by lia; reflexivity).
  rewrite <- !Z.shiftl_mul_pow2 by lia.
  apply Z.bits_inj'. intros i Hi.
  rewrite Z.land_spec.
  destruct (Z.lt_ge_cases i (3 * j)) as [Hlt | Hge].
  - rewrite !Z.shiftl_spec_low by lia. apply andb_false_r.
  - rewrite !Z.shiftl_spec by lia. rewrite Z.land_spec.
    rewrite Z.shiftr_spec by lia. f_equal. f_equal. lia.
Qed.

Lemma mask_eq_digit a b j :
  0 <= j ->
  (Z.land a (7 * 8 ^ j) =? Z.land b (7 * 8 ^ j)) = (digit a j =? digit b j).
Proof.
  intros Hj. rewrite !land_mask_digit by lia.
  assert (0 < 8 ^ j) by (apply Z.pow_pos_nonneg; lia).
  destruct (Z.eqb_spec (digit a j) (digit b j)) as [-> | Hne].
  - apply Z.eqb_refl.
  - apply Z.eqb_neq. nia.
Qed.

Lemma mask_shift m :
  0 <= m -> shr64 (7 * 8 ^ (m + 1)) 3 = 7 * 8 ^ m.
Proof.
  intros Hm. rewrite shr64_div by lia. change (2 ^ 3) with 8.
  rewrite Z.pow_add_r by lia. change (8 ^ 1) with 8.
  replace (7 * (8 ^ m * 8)) with (7 * 8 ^ m * 8) by lia.
  apply Z.div_mul. lia.
Qed.

Lemma mask_start k :
  0 <= k <= 20 -> shl64 7 (3 * k) = 7 * 8 ^ k.
Proof.
  intros Hk. rewrite shl64_small; try lia.
  - rewrite Z.pow_mul_r by lia. reflexivity.
  - rewrite Z.pow_mul_r by lia. change (2 ^ 3) with 8.
    assert (8 ^ k <= 8 ^ 20) by (apply Z.pow_le_mono_r; lia).
    change (8 ^ 20) with (2 ^ 60) in *. lia.
Qed.

(** The loop of [lcp], started on the mask of digit position [m]: it counts
    the equal leading digits, and one more when all [m] digits agree. *)
Lemma lcp_loop_spec (m fuel : nat) (a b r : Z) :
  (m + 2 <= fuel)%nat -> 0 <= r -> r + Z.of_nat m + 1 < 2 ^ 64 ->
  Key.lcp_loop fuel a b (7 * 8 ^ Z.of_nat m) r
  = Ok (if decide (digits m a = digits m b)
        then r + Z.of_nat m + 1
        else r + common_prefix (digits m a) (digits m b)).
Proof.
  revert fuel r. induction m as [| m IH]; intros fuel r Hf Hr Hb.
  - destruct fuel as [| [| fuel]]; try lia.
    cbn [Key.lcp_loop digits]. change (7 * 8 ^ Z.of_nat 0) with 7.
    change (0 <? 7) with true. cbv iota.
    change (shr64 7 Key.CHAR_WIDTH) with 0.
    rewrite !Z.land_0_r. change (negb (0 =? 0)) with false. cbv iota.
    change (0 <? 0) with false. cbv iota.
    rewrite decide_True by reflexivity. f_equal.
    rewrite wrap64_small by lia. lia.
  - destruct fuel as [| fuel]; [lia |].
    cbn [Key.lcp_loop digits].
    assert (Hpos : 0 < 7 * 8 ^ Z.of_nat (S m)).
    { assert (0 < 8 ^ Z.of_nat (S m)) by (apply Z.pow_pos_nonneg; lia). lia. }
    apply Z.ltb_lt in Hpos. rewrite Hpos. cbv iota.
    unfold Key.CHAR_WIDTH.
    replace (Z.of_nat (S m)) with (Z.of_nat m + 1) by lia.
    rewrite mask_shift by lia. cbv zeta.
    rewrite mask_eq_digit by lia.
    destruct (Z.eqb_spec (digit a (Z.of_nat m)) (digit b (Z.of_nat m))) as [He | Hne].
    + cbn [negb]. rewrite wrap64_small by lia.
      rewrite IH by lia. f_equal. rewrite He.
      cbn [common_prefix]. rewrite Z.eqb_refl.
      destruct (decide (digits m a = digits m b)) as [Heq | Hneq].
      * rewrite decide_True by (rewrite Heq; reflexivity). lia.
      * rewrite decide_False by (intros Hcons; inversion Hcons; contradiction). lia.
    + cbn [negb]. f_equal.
      rewrite decide_False by (intros Hcons; inversion Hcons; contradiction).
      cbn [common_prefix]. apply Z.eqb_neq in Hne. rewrite Hne. lia.
Qed.

(** The fuel given to the loop in [Key.lcp] is never used up: a mask below
    8^n is gone after [n] shifts. *)
Lemma lcp_loop_terminates (n : nat) (a b mask r : Z) :
  0 <= mask < 8 ^ Z.of_nat n ->
  exists v, Key.lcp_loop (S n) a b mask r = Ok v.
Proof.
  revert mask r. induction n as [| n IH]; intros mask r Hm.
  - cbn [Key.lcp_loop]. change (8 ^ Z.of_nat 0) with 1 in Hm.
    destruct (Z.ltb_spec 0 mask); [lia |]. eauto.
  - cbn [Key.lcp_loop] in IH |- *.
    destruct (Z.ltb_spec 0 mask) as [Hpos | _]; [| eauto].
    destruct (negb _); [eauto |].
    apply IH. unfold Key.CHAR_WIDTH. rewrite shr64_div by lia.
    change (2 ^ 3) with 8.
    rewrite Nat2Z.inj_succ, Z.pow_succ_r in Hm by lia.
    split; [apply Z.div_pos; lia |].
    apply Z.div_lt_upper_bound; lia.
Qed.

Lemma Key_lcp_total (a b k : Z) :
  Key.lcp a b k = Fault \/ exists v, Key.lcp a b k = Ok v.
Proof.
  unfold Key.lcp, Key.lcp_fuel.
  destruct (64 <=? wrap64 (Key.CHAR_WIDTH * k)); [left; reflexivity | right].
  apply (lcp_loop_terminates 22).
  unfold shl64, wrap64.
  pose proof (Z.mod_pos_bound (Z.shiftl Key.CHAR_MASK ((Key.CHAR_WIDTH * k) mod 2 ^ 64)) (2 ^ 64)
                ltac:(reflexivity)) as Hb.
  change (8 ^ Z.of_nat 22) with (4 * 2 ^ 64). lia.
Qed.

(** What [Key::lcp] returns for k-mers of length at most 16. *)
Lemma Key_lcp_spec (a b k : Z) :
  0 <= k <= 16 ->
  Key.lcp a b k
  = Ok (if decide (digits (Z.to_nat k) (Key.label a) = digits (Z.to_nat k) (Key.label b))
        then k + 1
        else common_prefix (digits (Z.to_nat k) (Key.label a))
                           (digits (Z.to_nat k) (Key.label b))).
Proof.
  intros Hk. unfold Key.lcp, Key.lcp_fuel, Key.CHAR_WIDTH, Key.CHAR_MASK.
  rewrite (wrap64_small (3 * k)) by lia.
  destruct (Z.leb_spec 64 (3 * k)) as [Hbig | _]; [lia |].
  rewrite mask_start by lia.
  replace k with (Z.of_nat (Z.to_nat k)) at 1 by lia.
  rewrite lcp_loop_spec by lia.
  rewrite Z2Nat.id by lia. rewrite Z.add_0_l.
  destruct (decide _); reflexivity.
Qed.

(** On k-mers that differ, [Key::lcp] is the length of the longest common
    prefix of their digit sequences. *)
Lemma Key_lcp_distinct (a b k : Z) :
  0 <= k <= 16 ->
  digits (Z.to_nat k) (Key.label a) <> digits (Z.to_nat k) (Key.label b) ->
  Key.lcp a b k
  = Ok (common_prefix (digits (Z.to_nat k) (Key.label a))
                      (digits (Z.to_nat k) (Key.label b))).
Proof.
  intros Hk Hne. rewrite Key_lcp_spec by lia.
  rewrite decide_False by exact Hne. reflexivity.
Qed.

Lemma common_prefix_refl (x : list Z) : common_prefix x x = Z.of_nat (length x).
Proof.
  induction x as [| a x IH]; [reflexivity |].
  cbn [common_prefix length]. rewrite Z.eqb_refl, IH. lia.
Qed.

Lemma digits_length n x : length (digits n x) = n.
Proof. induction n as [| n IH]; [reflexivity |]. cbn. rewrite IH. reflexivity. Qed.

(** On k-mers that agree in all [k] digits, [Key::lcp] returns [k + 1]. *)
Lemma Key_lcp_equal (a b k : Z) :
  0 <= k <= 16 ->
  digits (Z.to_nat k) (Key.label a) = digits (Z.to_nat k) (Key.label b) ->
  Key.lcp a b k = Ok (k + 1) /\
  common_prefix (digits (Z.to_nat k) (Key.label a))
                (digits (Z.to_nat k) (Key.label b)) = k.
Proof.
  intros Hk He. rewrite Key_lcp_spec by lia.
  rewrite decide_True by exact He. split; [reflexivity |].
  rewrite He, common_prefix_refl, digits_length. lia.
Qed.

(** C4: on the 3-mer "ACG" compared with itself the two digit sequences have
    a longest common prefix of length 3, and [Key::lcp] returns 4. *)
Theorem Key_lcp_same_kmer :
  Key.lcp key_ACG key_ACG 3 = Ok 4 /\
  digits 3 (Key.label key_ACG) = [1; 2; 3] /\
  common_prefix (digits 3 (Key.label key_ACG)) (digits 3 (Key.label key_ACG)) = 3.
Proof. repeat split; vm_compute; reflexivity. Qed.

Example Key_lcp_AAA_AAT :
  Key.lcp (Z.shiftl (pack [1; 1; 1]) 16) (Z.shiftl (pack [1; 1; 4]) 16) 3 = Ok 2.
Proof. vm_compute. reflexivity. Qed.

(** ** Path-node comparators *)

Lemma lex_lt_irrefl x : lex_lt x x = false.
Proof.
  induction x as [| a x IH]; [reflexivity |].
  cbn [lex_lt]. rewrite Z.eqb_refl. exact IH.
Qed.

Lemma lex_lt_trans x y z :
  lex_lt x y = true -> lex_lt y z = true -> lex_lt x z = true.
Proof.
  revert y z. induction x as [| a x IH]; intros [| b y] [| c z]; cbn [lex_lt];
    try congruence.
  destruct (Z.eqb_spec a b) as [-> | Hab]; destruct (Z.eqb_spec b c) as [-> | Hbc].
  - apply IH.
  - intros _ H. exact H.
  - rewrite (proj2 (Z.eqb_neq a c)) by congruence. intros H _. exact H.
  - intros H1 H2. apply Z.ltb_lt in H1, H2.
    destruct (Z.eqb_spec a c) as [-> | Hac]; [lia |]. apply Z.ltb_lt. lia.
Qed.

Lemma lex_lt_total x y :
  x <> y -> lex_lt x y = true \/ lex_lt y x = true.
Proof.
  revert y. induction x as [| a x IH]; intros [| b y] Hne; cbn [lex_lt];
    try tauto.
  destruct (Z.eqb_spec a b) as [-> | Hab].
  - rewrite Z.eqb_refl. apply IH. congruence.
  - rewrite (proj2 (Z.eqb_neq b a)) by congruence.
    destruct (Z.ltb_spec a b); [left; reflexivity | right; apply Z.ltb_lt; lia].
Qed.

Lemma lex_lt_prefix x y : PathNode.proper_prefix x y -> lex_lt x y = true.
Proof.
  intros (rest & Hne & ->). induction x as [| a x IH].
  - destruct rest; [contradiction | reflexivity].
  - cbn [app lex_lt]. rewrite Z.eqb_refl. exact IH.
Qed.

Lemma lex_lt_last_prefix x y :
  PathNode.proper_prefix x y -> lex_lt_last y x = true /\ lex_lt_last x y = false.
Proof.
  intros (rest & Hne & ->). induction x as [| a x IH].
  - destruct rest; [contradiction | split; reflexivity].
  - cbn [app lex_lt_last]. rewrite Z.eqb_refl. exact IH.
Qed.

Lemma take_drop_cons {A : Type} (n i : nat) (x : list A) (a : A) :
  x !! i = Some a -> take (S n) (drop i x) = a :: take n (drop (S i) x).
Proof.
  intros H. rewrite (drop_S x a i H). reflexivity.
Qed.

(** The comparison loop, run over [min oa ob] ranks from index [i], decides
    the prefix-is-smaller order of the two rank sequences when the tie is
    broken by [oa < ob]. *)
Lemma compare_loop_lex (x y : list Z) (oa ob i : nat) :
  (i + oa <= length x)%nat -> (i + ob <= length y)%nat ->
  PathNode.compare_loop (Nat.min oa ob) (Z.of_nat i) x y (Z.of_nat oa <? Z.of_nat ob)
  = Ok (lex_lt (take oa (drop i x)) (take ob (drop i y))).
Proof.
  revert ob i. induction oa as [| oa IH]; intros ob i Hx Hy.
  - cbn [Nat.min PathNode.compare_loop take]. f_equal.
    destruct ob as [| ob].
    + reflexivity.
    + destruct (lookup_lt_is_Some_2 y i ltac:(lia)) as [b Hb].
      rewrite (take_drop_cons _ _ _ _ Hb). cbn [lex_lt]. apply Z.ltb_lt. lia.
  - destruct (lookup_lt_is_Some_2 x i ltac:(lia)) as [a Ha].
    rewrite (take_drop_cons _ _ _ _ Ha).
    destruct ob as [| ob].
    + cbn [Nat.min PathNode.compare_loop take lex_lt]. reflexivity.
    + destruct (lookup_lt_is_Some_2 y i ltac:(lia)) as [b Hb].
      rewrite (take_drop_cons _ _ _ _ Hb).
      cbn [Nat.min PathNode.compare_loop lex_lt].
      rewrite (at_index_lookup x (Z.of_nat i) a) by (rewrite ?Nat2Z.id; auto; lia).
      rewrite (at_index_lookup y (Z.of_nat i) b) by (rewrite ?Nat2Z.id; auto; lia).
      cbn [mbind res_bind].
      destruct (Z.eqb_spec a b) as [-> | Hab]; cbn [negb]; [| reflexivity].
      replace (Z.of_nat i + 1) with (Z.of_nat (S i)) by lia.
      replace (Z.of_nat (S oa) <? Z.of_nat (S ob)) with (Z.of_nat oa <? Z.of_nat ob).
      * apply IH; lia.
      * destruct (Z.ltb_spec (Z.of_nat oa) (Z.of_nat ob));
          symmetry; [apply Z.ltb_lt | apply Z.ltb_ge]; lia.
Qed.

(** The same loop with the tie broken by [ob < oa]: a prefix is larger. *)
Lemma compare_loop_lex_last (x y : list Z) (oa ob i : nat) :
  (i + oa <= length x)%nat -> (i + ob <= length y)%nat ->
  PathNode.compare_loop (Nat.min oa ob) (Z.of_nat i) x y (Z.of_nat ob <? Z.of_nat oa)
  = Ok (lex_lt_last (take oa (drop i x)) (take ob (drop i y))).
Proof.
  revert ob i. induction oa as [| oa IH]; intros ob i Hx Hy.
  - cbn [Nat.min PathNode.compare_loop take]. f_equal.
    destruct ob as [| ob].
    + reflexivity.
    + destruct (lookup_lt_is_Some_2 y i ltac:(lia)) as [b Hb].
      rewrite (take_drop_cons _ _ _ _ Hb). cbn [lex_lt_last]. apply Z.ltb_ge. lia.
  - destruct (lookup_lt_is_Some_2 x i ltac:(lia)) as [a Ha].
    rewrite (take_drop_cons _ _ _ _ Ha).
    destruct ob as [| ob].
    + cbn [Nat.min PathNode.compare_loop take lex_lt_last]. reflexivity.
    + destruct (lookup_lt_is_Some_2 y i ltac:(lia)) as [b Hb].
      rewrite (take_drop_cons _ _ _ _ Hb).
      cbn [Nat.min PathNode.compare_loop lex_lt_last].
      rewrite (at_index_lookup x (Z.of_nat i) a) by (rewrite ?Nat2Z.id; auto; lia).
      rewrite (at_index_lookup y (Z.of_nat i) b) by (rewrite ?Nat2Z.id; auto; lia).
      cbn [mbind res_bind].
      destruct (Z.eqb_spec a b) as [-> | Hab]; cbn [negb]; [| reflexivity].
      replace (Z.of_nat i + 1) with (Z.of_nat (S i)) by lia.
      replace (Z.of_nat (S ob) <? Z.of_nat (S oa)) with (Z.of_nat ob <? Z.of_nat oa).
      * apply IH; lia.
      * destruct (Z.ltb_spec (Z.of_nat ob) (Z.of_nat oa));
          symmetry; [apply Z.ltb_lt | apply Z.ltb_ge]; lia.
Qed.

(** [operator<] is the prefix-is-smaller lexicographic order of the first
    label sequences. *)
Lemma PathNode_less_lex (a b : PathNode.t) :
  PathNode.wf a -> PathNode.wf b ->
  PathNode.less a b = Ok (lex_lt (PathNode.first_seq a) (PathNode.first_seq b)).
Proof.
  intros (Hfa & _ & Hoa) (Hfb & _ & Hob).
  unfold PathNode.less, PathNode.first_seq.
  rewrite Z2Nat.inj_min.
  rewrite <- (Z2Nat.id (PathNode.order a)) at 2 by lia.
  rewrite <- (Z2Nat.id (PathNode.order b)) at 2 by lia.
  rewrite (compare_loop_lex _ _ _ _ 0) by (cbn; lia).
  reflexivity.
Qed.

(** [compareLast] is the prefix-is-larger lexicographic order of the last
    label sequences. *)
Lemma PathNode_compareLast_lex (a b : PathNode.t) :
  PathNode.wf a -> PathNode.wf b ->
  PathNode.compareLast a b
  = Ok (lex_lt_last (PathNode.last_seq a) (PathNode.last_seq b)).
Proof.
  intros (_ & Hla & Hoa) (_ & Hlb & Hob).
  unfold PathNode.compareLast, PathNode.last_seq.
  rewrite Z2Nat.inj_min.
  rewrite <- (Z2Nat.id (PathNode.order a)) at 2 by lia.
  rewrite <- (Z2Nat.id (PathNode.order b)) at 2 by lia.
  rewrite (compare_loop_lex_last _ _ _ _ 0) by (cbn; lia).
  reflexivity.
Qed.

Example less_prefix_example : PathNode.less node_a node_b = Ok true.
Proof. vm_compute. reflexivity. Qed.

Example compareLast_prefix_example :
  PathNode.compareLast node_b node_a = Ok true /\
  PathNode.compareLast node_a node_b = Ok false.
Proof. split; vm_compute; reflexivity. Qed.

(** C6, as stated, fails: two path nodes with distinct label ranges (same
    first label, different last labels) are not ordered by [operator<]
    either way. *)
Lemma PathNode_less_not_total_counterexample :
  PathNode.wf node_1_1 /\ PathNode.wf node_1_2 /\
  (PathNode.first_seq node_1_1, PathNode.last_seq node_1_1)
    <> (PathNode.first_seq node_1_2, PathNode.last_seq node_1_2) /\
  PathNode.less node_1_1 node_1_2 = Ok false /\
  PathNode.less node_1_2 node_1_1 = Ok false.
Proof.
  split; [| split]; [unfold PathNode.wf; vm_compute; intuition congruence .. |].
  split; [vm_compute; congruence |].
  split; vm_compute; reflexivity.
Qed.

(** C6 (amended): for path nodes with orders in [1, 8], a node whose first
    label sequence is a proper prefix of another's is smaller; [operator<] is
    irreflexive and transitive, and it orders any two nodes whose first label
    sequences differ; [compareLast] breaks the tie the other way: when
    a.last_label is a proper prefix of b.last_label, b.compareLast(a) holds
    and a.compareLast(b) does not. *)
Theorem PathNode_ordering (a b c : PathNode.t) :
  PathNode.wf a -> PathNode.wf b -> PathNode.wf c ->
  (PathNode.proper_prefix (PathNode.first_seq a) (PathNode.first_seq b) ->
   PathNode.less a b = Ok true) /\
  PathNode.less a a = Ok false /\
  (PathNode.less a b = Ok true -> PathNode.less b c = Ok true ->
   PathNode.less a c = Ok true) /\
  (PathNode.first_seq a <> PathNode.first_seq b ->
   PathNode.less a b = Ok true \/ PathNode.less b a = Ok true) /\
  (PathNode.proper_prefix (PathNode.last_seq a) (PathNode.last_seq b) ->
   PathNode.compareLast b a = Ok true /\ PathNode.compareLast a b = Ok false).
Proof.
  intros Ha Hb Hc.
  rewrite !PathNode_less_lex by assumption.
  rewrite !PathNode_compareLast_lex by assumption.
  split; [| split; [| split; [| split]]].
  - intros Hp. f_equal. apply lex_lt_prefix. exact Hp.
  - f_equal. apply lex_lt_irrefl.
  - intros H1 H2. injection H1 as H1'. injection H2 as H2'.
    f_equal. eapply lex_lt_trans; eassumption.
  - intros Hne. destruct (lex_lt_total _ _ Hne) as [H | H]; rewrite H; auto.
  - intros Hp. destruct (lex_lt_last_prefix _ _ Hp) as [H1 H2].
    rewrite H1, H2. split; reflexivity.
Qed.

Lemma PathNode_ordering_witness :
  PathNode.wf node_a /\ PathNode.wf node_b /\ PathNode.wf node_c /\
  (PathNode.proper_prefix (PathNode.first_seq node_a) (PathNode.first_seq node_b) ->
   PathNode.less node_a node_b = Ok true) /\
  PathNode.less node_a node_a = Ok false /\
  (PathNode.less node_a node_b = Ok true -> PathNode.less node_b node_c = Ok true ->
   PathNode.less node_a node_c = Ok true) /\
  (PathNode.first_seq node_a <> PathNode.first_seq node_b ->
   PathNode.less node_a node_b = Ok true \/ PathNode.less node_b node_a = Ok true) /\
  (PathNode.proper_prefix (PathNode.last_seq node_a) (PathNode.last_seq node_b) ->
   PathNode.compareLast node_b node_a = Ok true /\
   PathNode.compareLast node_a node_b = Ok false).
Proof.
  assert (Ha : PathNode.wf node_a) by (unfold PathNode.wf; vm_compute; intuition congruence).
  assert (Hb : PathNode.wf node_b) by (unfold PathNode.wf; vm_compute; intuition congruence).
  assert (Hc : PathNode.wf node_c) by (unfold PathNode.wf; vm_compute; intuition congruence).
  split; [exact Ha |]. split; [exact Hb |]. split; [exact Hc |].
  exact (PathNode_ordering node_a node_b node_c Ha Hb Hc).
Defined.

(** ** Range extension over the LCP array *)

Lemma entry_read (s : LCP.t) (j : Z) :
  LCP.wf s -> 0 <= j < LCP.total_keys s ->
  exists v, at_index (LCP.kmer_lcp s) j = Ok v.
Proof.
  intros Hwf Hj. apply at_index_in_range. unfold LCP.wf in Hwf. lia.
Qed.

Lemma entry_ge_leb (s : LCP.t) (l j v : Z) :
  at_index (LCP.kmer_lcp s) j = Ok v ->
  (l <=? v) = true <-> LCP.entry_ge s l j.
Proof.
  intros Hv. unfold LCP.entry_ge. rewrite Z.leb_le. split.
  - intros Hle. exists v. auto.
  - intros (v' & Hv' & Hle). rewrite Hv in Hv'. inversion Hv'; subst. exact Hle.
Qed.

(** The first loop stops at the nearest position, going down, that is 0 or
    whose entry is below the threshold. *)
Lemma extend_first_spec (s : LCP.t) (l : Z) (fuel : nat) (first : Z) :
  LCP.wf s -> LCP.total_keys s <= 2 ^ 32 ->
  0 <= first < LCP.total_keys s ->
  (Z.to_nat first < fuel)%nat ->
  exists f, LCP.extend_first fuel s first l = Ok f /\
            0 <= f <= first /\
            (forall j, f < j <= first -> LCP.entry_ge s l j) /\
            (f = 0 \/ ~ LCP.entry_ge s l f).
Proof.
  intros Hwf Ht. revert first. induction fuel as [| fuel IH]; intros first Hf Hfuel; [lia |].
  cbn [LCP.extend_first].
  destruct (Z.ltb_spec 0 first) as [Hpos | Hzero].
  - destruct (entry_read s first Hwf Hf) as [v Hv]. rewrite Hv. cbn [mbind res_bind].
    destruct (l <=? v) eqn:Hle.
    + rewrite wrap32_small by lia.
      destruct (IH (first - 1) ltac:(lia) ltac:(lia)) as (f & Hr & Hrange & Hall & Hstop).
      exists f. split; [exact Hr |]. split; [lia |]. split; [| exact Hstop].
      intros j Hj. destruct (Z.eq_dec j first) as [-> | Hne].
      * apply (entry_ge_leb s l first v Hv). exact Hle.
      * apply Hall. lia.
    + exists first. split; [reflexivity |]. split; [lia |]. split; [intros j Hj; lia |].
      right. intros Hge. apply (entry_ge_leb s l first v Hv) in Hge. congruence.
  - exists first. split; [reflexivity |]. split; [lia |]. split; [intros j Hj; lia |].
    left. lia.
Qed.

(** The second loop stops at the nearest position, going up, that is the last
    key or whose successor's entry is below the threshold. *)
Lemma extend_second_spec (s : LCP.t) (l : Z) (fuel : nat) (second : Z) :
  LCP.wf s -> LCP.total_keys s < 2 ^ 32 ->
  0 <= second < LCP.total_keys s ->
  (Z.to_nat (LCP.total_keys s - second) <= fuel)%nat ->
  exists e, LCP.extend_second fuel s second l = Ok e /\
            second <= e < LCP.total_keys s /\
            (forall j, second < j <= e -> LCP.entry_ge s l j) /\
            (e + 1 = LCP.total_keys s \/ ~ LCP.entry_ge s l (e + 1)).
Proof.
  intros Hwf Ht. revert second. induction fuel as [| fuel IH]; intros second Hs Hfuel; [lia |].
  cbn [LCP.extend_second]. rewrite wrap32_small by lia.
  destruct (Z.ltb_spec (second + 1) (LCP.total_keys s)) as [Hin | Hout].
  - destruct (entry_read s (second + 1) Hwf ltac:(lia)) as [v Hv].
    rewrite Hv. cbn [mbind res_bind].
    destruct (l <=? v) eqn:Hle.
    + destruct (IH (second + 1) ltac:(lia) ltac:(lia)) as (e & Hr & Hrange & Hall & Hstop).
      exists e. split; [exact Hr |]. split; [lia |]. split; [| exact Hstop].
      intros j Hj. destruct (Z.eq_dec j (second + 1)) as [-> | Hne].
      * apply (entry_ge_leb s l (second + 1) v Hv). exact Hle.
      * apply Hall. lia.
    + exists second. split; [reflexivity |]. split; [lia |]. split; [intros j Hj; lia |].
      right. intros Hge. apply (entry_ge_leb s l (second + 1) v Hv) in Hge. congruence.
  - exists second. split; [reflexivity |]. split; [lia |]. split; [intros j Hj; lia |].
    left. lia.
Qed.

(** A position where the first loop stopped is kept by the first loop. *)
Lemma extend_first_stable (s : LCP.t) (l : Z) (fuel : nat) (f : Z) :
  LCP.wf s -> 0 <= f < LCP.total_keys s ->
  (f = 0 \/ ~ LCP.entry_ge s l f) ->
  LCP.extend_first (S fuel) s f l = Ok f.
Proof.
  intros Hwf Hf Hstop. cbn [LCP.extend_first].
  destruct (Z.ltb_spec 0 f) as [Hpos | Hzero]; [| reflexivity].
  destruct Hstop as [-> | Hstop]; [lia |].
  destruct (entry_read s f Hwf Hf) as [v Hv]. rewrite Hv. cbn [mbind res_bind].
  destruct (l <=? v) eqn:Hle; [| reflexivity].
  exfalso. apply Hstop. apply (entry_ge_leb s l f v Hv). exact Hle.
Qed.

(** A position where the second loop stopped is kept by the second loop. *)
Lemma extend_second_stable (s : LCP.t) (l : Z) (fuel : nat) (e : Z) :
  LCP.wf s -> LCP.total_keys s < 2 ^ 32 -> 0 <= e < LCP.total_keys s ->
  (e + 1 = LCP.total_keys s \/ ~ LCP.entry_ge s l (e + 1)) ->
  LCP.extend_second (S fuel) s e l = Ok e.
Proof.
  intros Hwf Ht He Hstop. cbn [LCP.extend_second]. rewrite wrap32_small by lia.
  destruct (Z.ltb_spec (e + 1) (LCP.total_keys s)) as [Hin | Hout]; [| reflexivity].
  destruct Hstop as [Heq | Hstop]; [lia |].
  destruct (entry_read s (e + 1) Hwf ltac:(lia)) as [v Hv]. rewrite Hv.
  cbn [mbind res_bind].
  destruct (l <=? v) eqn:Hle; [| reflexivity].
  exfalso. apply Hstop. apply (entry_ge_leb s l (e + 1) v Hv). exact Hle.
Qed.

Example extendRange_small :
  LCP.extendRange 3 lcp_small (1, 1) 2 = Ok (0, 1) /\
  LCP.extendRange 3 lcp_small (0, 1) 2 = Ok (0, 1) /\
  LCP.extendRange 3 lcp_small (2, 2) 1 = Ok (0, 2).
Proof. repeat split; vm_compute; reflexivity. Qed.

(** With 2^32 keys the test [range.second + 1 < total_keys] always holds,
    [range.second + 1] being a 32-bit value; at threshold 0 every entry
    passes and the second loop never ends. *)
Lemma extend_second_2_32 (fuel : nat) (second : Z) :
  LCP.extend_second fuel lcp_2_32 second 0 = OutOfFuel.
Proof.
  revert second. induction fuel as [| fuel IH]; intros second; [reflexivity |].
  cbn [LCP.extend_second]. unfold lcp_2_32 at 1 2. cbn [LCP.total_keys LCP.kmer_lcp].
  assert (Hw : 0 <= wrap32 (second + 1) < 4294967296).
  { unfold wrap32. apply Z.mod_pos_bound. reflexivity. }
  destruct (Z.ltb_spec (wrap32 (second + 1)) 4294967296) as [_ | Hge]; [| lia].
  rewrite (at_index_lookup _ _ 0).
  - cbn [mbind res_bind]. change (0 <=? 0) with true. cbv iota. apply IH.
  - lia.
  - apply lookup_replicate_2. lia.
Qed.

(** C5, as stated, fails: over 2^32 keys, the full range (0, 2^32 - 1) and
    threshold 0 make [extendRange] loop forever; it has no result. *)
Lemma extendRange_2_32_counterexample :
  LCP.wf lcp_2_32 /\ (0 <= 4294967295 /\ 4294967295 < LCP.total_keys lcp_2_32) /\
  ~ (exists fuel r, LCP.extendRange fuel lcp_2_32 (0, 4294967295) 0 = Ok r).
Proof.
  split; [| split].
  - unfold LCP.wf, lcp_2_32. cbn [LCP.total_keys LCP.kmer_lcp].
    rewrite length_replicate. lia.
  - unfold lcp_2_32. cbn [LCP.total_keys]. lia.
  - intros (fuel & r & Hr). unfold LCP.extendRange in Hr.
    cbn [fst snd] in Hr. rewrite extend_second_2_32 in Hr.
    destruct (LCP.extend_first fuel lcp_2_32 0 0); discriminate.
Qed.

(** C5 (amended): for an LCP structure whose [kmer_lcp] has [total_keys]
    entries, with fewer than 2^32 keys, a range (lo, hi) with
    lo <= hi < total_keys and any threshold: [extendRange] returns, applying
    it again to its result changes nothing, the result contains the range,
    crosses only boundaries whose entry reaches the threshold, and contains
    every other such widening. *)
Theorem extendRange_idempotent_maximal (s : LCP.t) (lo hi l : Z) (fuel : nat) :
  LCP.wf s -> LCP.total_keys s < 2 ^ 32 ->
  0 <= lo -> lo <= hi -> hi < LCP.total_keys s ->
  (Z.to_nat (LCP.total_keys s) <= fuel)%nat ->
  exists lo' hi',
    LCP.extendRange fuel s (lo, hi) l = Ok (lo', hi') /\
    LCP.extendRange fuel s (lo', hi') l = Ok (lo', hi') /\
    lo' <= lo /\ hi <= hi' /\
    LCP.widening s l lo hi lo' hi' /\
    (forall a b, LCP.widening s l lo hi a b -> lo' <= a /\ b <= hi').
Proof.
  intros Hwf Ht Hlo Hlh Hhi Hfuel.
  destruct (extend_first_spec s l fuel lo Hwf ltac:(lia) ltac:(lia) ltac:(lia))
    as (f & Hf & Hfr & Hfall & Hfstop).
  destruct (extend_second_spec s l fuel hi Hwf Ht ltac:(lia) ltac:(lia))
    as (e & He & Her & Heall & Hestop).
  exists f, e. unfold LCP.extendRange. cbn [fst snd].
  rewrite Hf, He. cbn [mbind res_bind].
  split; [reflexivity |].
  destruct fuel as [| fuel]; [lia |].
  rewrite (extend_first_stable s l fuel f Hwf ltac:(lia) Hfstop).
  rewrite (extend_second_stable s l fuel e Hwf Ht ltac:(lia) Hestop).
  cbn [mbind res_bind].
  split; [reflexivity |]. split; [lia |]. split; [lia |]. split.
  - unfold LCP.widening. repeat split; try lia; assumption.
  - intros a b (Ha & Hb & Hcross_a & Hcross_b). split.
    + destruct (Z.le_gt_cases f a) as [Hle | Hgt]; [exact Hle |].
      destruct Hfstop as [-> | Hstop]; [lia |].
      exfalso. apply Hstop. apply Hcross_a. lia.
    + destruct (Z.le_gt_cases b e) as [Hle | Hgt]; [exact Hle |].
      destruct Hestop as [Heq | Hstop]; [lia |].
      exfalso. apply Hstop. apply Hcross_b. lia.
Qed.

Lemma extendRange_idempotent_maximal_witness :
  LCP.wf lcp_small /\ LCP.total_keys lcp_small < 2 ^ 32 /\
  0 <= 1 /\ 1 <= 1 /\ 1 < LCP.total_keys lcp_small /\
  (Z.to_nat (LCP.total_keys lcp_small) <= 3)%nat /\
  exists lo' hi',
    LCP.extendRange 3 lcp_small (1, 1) 2 = Ok (lo', hi') /\
    LCP.extendRange 3 lcp_small (lo', hi') 2 = Ok (lo', hi') /\
    lo' <= 1 /\ 1 <= hi' /\
    LCP.widening lcp_small 2 1 1 lo' hi' /\
    (forall a b, LCP.widening lcp_small 2 1 1 a b -> lo' <= a /\ b <= hi').
Proof.
  assert (H1 : LCP.wf lcp_small) by reflexivity.
  assert (H2 : LCP.total_keys lcp_small < 2 ^ 32) by reflexivity.
  assert (H3 : 0 <= 1) by lia.
  assert (H4 : 1 <= 1) by lia.
  assert (H5 : 1 < LCP.total_keys lcp_small) by reflexivity.
  assert (H6 : (Z.to_nat (LCP.total_keys lcp_small) <= 3)%nat) by (simpl; lia).
  split; [exact H1 |]. split; [exact H2 |]. split; [exact H3 |].
  split; [exact H4 |]. split; [exact H5 |]. split; [exact H6 |].
  exact (extendRange_idempotent_maximal lcp_small 1 1 2 3 H1 H2 H3 H4 H5 H6).
Defined.

(** ** SLArray *)

Lemma SLArray_make_length (n : Z) :
  0 <= n -> Z.of_nat (length (SLArray.data (SLArray.make n))) = n.
Proof.
  intros Hn. unfold SLArray.make. cbn [SLArray.data].
  rewrite length_replicate. lia.
Qed.

(** C10: [SLArray::size()] returns a bool: 1 for every array of at least one
    slot and 0 for the empty one, so it is never the number of slots when
    there are two or more. *)
Theorem SLArray_size_is_bool (n : Z) :
  0 <= n ->
  SLArray.size (SLArray.make n) = negb (n =? 0) /\
  (1 <= n -> SLArray.size_value (SLArray.make n) = 1) /\
  SLArray.size_value (SLArray.make 0) = 0 /\
  (2 <= n -> SLArray.size_value (SLArray.make n) <> n).
Proof.
  intros Hn.
  assert (Hs : SLArray.size (SLArray.make n) = negb (n =? 0)).
  { unfold SLArray.size. rewrite SLArray_make_length by lia. reflexivity. }
  split; [exact Hs |]. unfold SLArray.size_value. rewrite Hs.
  split; [| split].
  - intros H1. destruct (Z.eqb_spec n 0); [lia | reflexivity].
  - reflexivity.
  - intros H2. destruct (Z.eqb_spec n 0); cbn; lia.
Qed.

Lemma SLArray_size_is_bool_witness :
  0 <= 5 /\
  SLArray.size (SLArray.make 5) = negb (5 =? 0) /\
  (1 <= 5 -> SLArray.size_value (SLArray.make 5) = 1) /\
  SLArray.size_value (SLArray.make 0) = 0 /\
  (2 <= 5 -> SLArray.size_value (SLArray.make 5) <> 5).
Proof.
  assert (H : 0 <= 5) by lia.
  split; [exact H |]. exact (SLArray_size_is_bool 5 H).
Defined.

Lemma slarray_counts_ext (a : SLArray.t) (n : Z) (c c' : Z -> Z) :
  (forall i, c i = c' i) -> slarray_counts a n c -> slarray_counts a n c'.
Proof.
  intros Hext [Hlen Hall]. split; [exact Hlen |].
  intros i Hi. rewrite <- Hext. apply Hall. exact Hi.
Qed.

Lemma slarray_counts_make (n : Z) :
  0 <= n -> slarray_counts (SLArray.make n) n (fun _ => 0).
Proof.
  intros Hn. split; [apply SLArray_make_length; exact Hn |].
  intros i Hi. split; [lia |]. exists 0. split.
  - unfold SLArray.make. cbn [SLArray.data]. apply lookup_replicate_2. lia.
  - left. lia.
Qed.

(** One [increment(j)] moves the counts by one at [j]. *)
Lemma slarray_increment_counts (a : SLArray.t) (n : Z) (c : Z -> Z) (j : Z) :
  slarray_counts a n c -> 0 <= j < n ->
  exists a', SLArray.increment a j = Ok a' /\
             slarray_counts a' n (fun i => if i =? j then c i + 1 else c i).
Proof.
  intros [Hlen Hall] Hj.
  destruct (Hall j Hj) as (Hc0 & d & Hd & Hcase).
  unfold SLArray.increment. rewrite (at_index_lookup _ _ d) by (auto; lia).
  cbn [mbind res_bind]. unfold SLArray.LARGE_VALUE.
  destruct Hcase as [[-> Hsmall] | (-> & Hbig & Hmap)].
  - destruct (Z.eqb_spec (c j) 255) as [Heq | _]; [lia |].
    assert (Hw : wrap8 (c j + 1) = c j + 1).
    { unfold wrap8. apply Z.mod_small. change (2 ^ 8) with 256. lia. }
    rewrite Hw.
    destruct (Z.eqb_spec (c j + 1) 255) as [Hpromote | Hstay].
    + eexists. split; [reflexivity |]. split.
      * cbn [SLArray.data]. rewrite length_insert. exact Hlen.
      * intros i Hi. cbn [SLArray.data SLArray.large_values].
        destruct (Z.eqb_spec i j) as [-> | Hne].
        -- split; [lia |]. exists (c j + 1). split.
           ++ apply list_lookup_insert_eq. lia.
           ++ right. split; [lia |]. split; [lia |].
              rewrite lookup_insert_eq. rewrite Hpromote. reflexivity.
        -- destruct (Hall i Hi) as (Hci & di & Hdi & Hcasei).
           split; [exact Hci |]. exists di. split.
           ++ rewrite list_lookup_insert_ne by lia. exact Hdi.
           ++ rewrite lookup_insert_ne by congruence. exact Hcasei.
    + eexists. split; [reflexivity |]. split.
      * cbn [SLArray.data]. rewrite length_insert. exact Hlen.
      * intros i Hi. cbn [SLArray.data SLArray.large_values].
        destruct (Z.eqb_spec i j) as [-> | Hne].
        -- split; [lia |]. exists (c j + 1). split.
           ++ apply list_lookup_insert_eq. lia.
           ++ left. lia.
        -- destruct (Hall i Hi) as (Hci & di & Hdi & Hcasei).
           split; [exact Hci |]. exists di. split.
           ++ rewrite list_lookup_insert_ne by lia. exact Hdi.
           ++ exact Hcasei.
  - change (255 =? 255) with true. cbv iota.
    eexists. split; [reflexivity |]. split; [exact Hlen |].
    intros i Hi. cbn [SLArray.data SLArray.large_values].
    destruct (Z.eqb_spec i j) as [-> | Hne].
    + split; [lia |]. exists 255. split; [exact Hd |].
      right. split; [reflexivity |]. split; [lia |].
      rewrite lookup_insert_eq. f_equal.
      unfold SLArray.map_ref. rewrite Hmap. cbn [default from_option id].
      unfold wrap64. rewrite Z.add_mod_idemp_l by lia. reflexivity.
    + destruct (Hall i Hi) as (Hci & di & Hdi & Hcasei).
      split; [exact Hci |]. exists di. split; [exact Hdi |].
      rewrite lookup_insert_ne by congruence. exact Hcasei.
Qed.

Lemma calls_to_cons (i j : Z) (calls : list Z) :
  SLArray.calls_to i (j :: calls)
  = (if j =? i then 1 else 0) + SLArray.calls_to i calls.
Proof.
  unfold SLArray.calls_to. destruct (Z.eqb_spec j i) as [-> | Hne].
  - rewrite filter_cons_True by reflexivity. cbn [length]. lia.
  - rewrite filter_cons_False by exact Hne. lia.
Qed.

Lemma calls_to_nonneg (i : Z) (calls : list Z) : 0 <= SLArray.calls_to i calls.
Proof. unfold SLArray.calls_to. lia. Qed.

(** A sequence of calls moves each count by the number of calls to it. *)
Lemma slarray_run_counts (calls : list Z) (a : SLArray.t) (n : Z) (c : Z -> Z) :
  slarray_counts a n c ->
  Forall (fun j => 0 <= j < n) calls ->
  exists a', SLArray.run a calls = Ok a' /\
             slarray_counts a' n (fun i => c i + SLArray.calls_to i calls).
Proof.
  revert a c. induction calls as [| j calls IH]; intros a c Hinv Hcalls.
  - exists a. split; [reflexivity |].
    eapply slarray_counts_ext; [| exact Hinv].
    intros i. unfold SLArray.calls_to. cbn. lia.
  - inversion Hcalls as [| ? ? Hj Hrest]; subst.
    destruct (slarray_increment_counts a n c j Hinv Hj) as (a1 & Hinc & Hinv1).
    destruct (IH a1 _ Hinv1 Hrest) as (a2 & Hrun & Hinv2).
    exists a2. split.
    + cbn [SLArray.run]. rewrite Hinc. cbn [mbind res_bind]. exact Hrun.
    + eapply slarray_counts_ext; [| exact Hinv2].
      intros i. cbn beta. rewrite calls_to_cons.
      destruct (Z.eqb_spec i j) as [-> | Hne].
      * rewrite Z.eqb_refl. lia.
      * destruct (Z.eqb_spec j i); [congruence | lia].
Qed.

(** Reading a slot gives its count, as a 64-bit value. *)
Lemma slarray_get_counts (a : SLArray.t) (n : Z) (c : Z -> Z) (i : Z) :
  slarray_counts a n c -> 0 <= i < n ->
  SLArray.get a i = Ok (wrap64 (c i)).
Proof.
  intros [Hlen Hall] Hi. destruct (Hall i Hi) as (Hci & d & Hd & Hcase).
  unfold SLArray.get. rewrite (at_index_lookup _ _ d) by (auto; lia).
  cbn [mbind res_bind]. unfold SLArray.LARGE_VALUE.
  destruct Hcase as [[-> Hsmall] | (-> & Hbig & Hmap)].
  - destruct (Z.eqb_spec (c i) 255); [lia |].
    rewrite wrap64_small by lia. reflexivity.
  - change (255 =? 255) with true. cbv iota. rewrite Hmap. reflexivity.
Qed.

Example SLArray_300_increments :
  (a ← SLArray.run (SLArray.make 2) (replicate 300 0 ++ [1; 1]); SLArray.get a 0) = Ok 300 /\
  (a ← SLArray.run (SLArray.make 2) (replicate 300 0 ++ [1; 1]); SLArray.get a 1) = Ok 2 /\
  (a ← SLArray.run (SLArray.make 2) (replicate 255 0);
   Ok (SLArray.data a !! 0%nat, SLArray.large_values a !! 0)) = Ok (Some 255, Some 255).
Proof. repeat split; vm_compute; reflexivity. Qed.

(** C7: starting from [SLArray(n)], after any sequence of [increment] calls
    on slots below [n], [operator[](i)] returns the number of [increment(i)]
    calls as a 64-bit value, for every [i < n]: exactly that number whenever
    it fits in 64 bits. Below 255 the count is the slot's byte; from 255 on
    the byte is 255 and the count is kept in [large_values]. *)
Theorem SLArray_get_counts_increments (n : Z) (calls : list Z) :
  0 <= n ->
  Forall (fun j => 0 <= j < n) calls ->
  exists a, SLArray.run (SLArray.make n) calls = Ok a /\
    forall i, 0 <= i < n ->
      SLArray.get a i = Ok (wrap64 (SLArray.calls_to i calls)) /\
      (SLArray.calls_to i calls < 2 ^ 64 ->
       SLArray.get a i = Ok (SLArray.calls_to i calls)) /\
      (SLArray.calls_to i calls < 255 ->
       SLArray.data a !! Z.to_nat i = Some (SLArray.calls_to i calls)) /\
      (255 <= SLArray.calls_to i calls ->
       SLArray.data a !! Z.to_nat i = Some 255 /\
       SLArray.large_values a !! i = Some (wrap64 (SLArray.calls_to i calls))).
Proof.
  intros Hn Hcalls.
  destruct (slarray_run_counts calls (SLArray.make n) n (fun _ => 0)
              (slarray_counts_make n Hn) Hcalls) as (a & Hrun & Hinv).
  exists a. split; [exact Hrun |].
  intros i Hi.
  pose proof (slarray_get_counts a n _ i Hinv Hi) as Hget. cbn beta in Hget.
  rewrite Z.add_0_l in Hget. split; [exact Hget |].
  split.
  { intros Hfit. rewrite Hget. f_equal. apply wrap64_small.
    pose proof (calls_to_nonneg i calls). lia. }
  destruct Hinv as [_ Hall]. destruct (Hall i Hi) as (_ & d & Hd & Hcase).
  cbn beta in Hcase. rewrite Z.add_0_l in Hcase.
  split.
  - intros Hsmall. destruct Hcase as [[-> _] | (_ & Hbig & _)]; [exact Hd | lia].
  - intros Hbig. destruct Hcase as [[_ Hsmall] | (-> & _ & Hmap)]; [lia |].
    split; [exact Hd | exact Hmap].
Qed.

Lemma SLArray_get_counts_increments_witness :
  0 <= 2 /\
  Forall (fun j => 0 <= j < 2) [0; 1; 0] /\
  exists a, SLArray.run (SLArray.make 2) [0; 1; 0] = Ok a /\
    forall i, 0 <= i < 2 ->
      SLArray.get a i = Ok (wrap64 (SLArray.calls_to i [0; 1; 0])) /\
      (SLArray.calls_to i [0; 1; 0] < 2 ^ 64 ->
       SLArray.get a i = Ok (SLArray.calls_to i [0; 1; 0])) /\
      (SLArray.calls_to i [0; 1; 0] < 255 ->
       SLArray.data a !! Z.to_nat i = Some (SLArray.calls_to i [0; 1; 0])) /\
      (255 <= SLArray.calls_to i [0; 1; 0] ->
       SLArray.data a !! Z.to_nat i = Some 255 /\
       SLArray.large_values a !! i = Some (wrap64 (SLArray.calls_to i [0; 1; 0]))).
Proof.
  assert (H1 : 0 <= 2) by lia.
  assert (H2 : Forall (fun j => 0 <= j < 2) [0; 1; 0]) by (repeat constructor; lia).
  split; [exact H1 |]. split; [exact H2 |].
  exact (SLArray_get_counts_increments 2 [0; 1; 0] H1 H2).
Defined.

(** ** ValueIndex *)

Section ValueIndexFacts.

Context {ValueType : Type}.
Variable getter : ValueType -> Z.

Abbreviation scan := (ValueIndex.scan getter).
Abbreviation occurs := (ValueIndex.occurs getter).
Abbreviation runs_increasing := (ValueIndex.runs_increasing getter).
Abbreviation first_position := (ValueIndex.first_position getter).

Lemma occurs_cons (x : ValueType) (rest : list ValueType) (v : Z) :
  occurs (x :: rest) v <-> getter x = v \/ occurs rest v.
Proof.
  unfold ValueIndex.occurs. split.
  - intros (y & Hy & Hv). apply elem_of_cons in Hy as [-> | Hy]; [left; exact Hv |].
    right. exists y. auto.
  - intros [Hv | (y & Hy & Hv)].
    + exists x. split; [apply elem_of_cons; left; reflexivity | exact Hv].
    + exists y. split; [apply elem_of_cons; right; exact Hy | exact Hv].
Qed.

Lemma occurs_nil (v : Z) : ~ occurs [] v.
Proof. intros (y & Hy & _). apply elem_of_nil in Hy. exact Hy. Qed.

Lemma runs_increasing_ge (x : ValueType) (rest : list ValueType) (v : Z) :
  runs_increasing (x :: rest) -> occurs rest v -> getter x <= v.
Proof. intros [Hle _] (y & Hy & <-). apply Hle. exact Hy. Qed.

(** One bit is written per input position. *)
Lemma scan_length (input : list ValueType) (prev : Z) :
  length (scan input prev).2 = length input.
Proof.
  revert prev. induction input as [| x rest IH]; intros prev; [reflexivity |].
  cbn [ValueIndex.scan]. destruct (negb (getter x =? prev)); cbn [snd length];
    rewrite IH; reflexivity.
Qed.

(** Every value pushed to the buffer occurs in the input. *)
Lemma scan_buffer_occurs (input : list ValueType) (prev v : Z) :
  v ∈ (scan input prev).1 -> occurs input v.
Proof.
  revert prev. induction input as [| x rest IH]; intros prev Hv.
  - cbn in Hv. apply elem_of_nil in Hv. contradiction.
  - cbn [ValueIndex.scan] in Hv. apply occurs_cons.
    destruct (negb (getter x =? prev)); cbn [fst] in Hv.
    + apply elem_of_cons in Hv as [-> | Hv]; [left; reflexivity |].
      right. eapply IH. exact Hv.
    + right. eapply IH. exact Hv.
Qed.

(** Every value of the input other than [prev] is pushed to the buffer. *)
Lemma scan_occurs_buffer (input : list ValueType) (prev v : Z) :
  occurs input v -> v <> prev -> v ∈ (scan input prev).1.
Proof.
  revert prev. induction input as [| x rest IH]; intros prev Hv Hne.
  - exfalso. eapply occurs_nil. exact Hv.
  - apply occurs_cons in Hv. cbn [ValueIndex.scan].
    destruct (Z.eqb_spec (getter x) prev) as [Heq | Hneq]; cbn [negb fst].
    + destruct Hv as [Hv | Hv]; [congruence |]. apply IH; assumption.
    + destruct (Z.eq_dec (getter x) v) as [-> | Hxv].
      * apply elem_of_cons. left. reflexivity.
      * destruct Hv as [Hv | Hv]; [contradiction |].
        apply elem_of_cons. right. apply IH; [exact Hv | congruence].
Qed.

(** The buffer of an input whose values never decrease is sorted. *)
Lemma scan_buffer_sorted (input : list ValueType) (prev : Z) :
  runs_increasing input -> ValueIndex.is_sorted (scan input prev).1 = true.
Proof.
  revert prev. induction input as [| x rest IH]; intros prev Hinc; [reflexivity |].
  cbn [ValueIndex.scan]. destruct Hinc as [Hle Hrest].
  destruct (negb (getter x =? prev)); cbn [fst]; [| apply IH; exact Hrest].
  pose proof (IH (getter x) Hrest) as Hs.
  pose proof (scan_buffer_occurs rest (getter x)) as Hocc.
  destruct ((scan rest (getter x)).1) as [| y b] eqn:Hb; [reflexivity |].
  cbn [ValueIndex.is_sorted]. cbn [ValueIndex.is_sorted] in Hs.
  apply andb_true_iff. split; [| exact Hs].
  apply Z.leb_le. destruct (Hocc y) as (z & Hz & <-).
  - apply elem_of_cons. left. reflexivity.
  - apply Hle. exact Hz.
Qed.

(** In a sorted list no element exceeds the last one. *)
Lemma is_sorted_last (l : list Z) (v : Z) :
  ValueIndex.is_sorted l = true -> v ∈ l -> v <= List.last l 0.
Proof.
  revert v. induction l as [| x rest IH]; intros v Hs Hv.
  - apply elem_of_nil in Hv. contradiction.
  - destruct rest as [| y rest'].
    + apply elem_of_cons in Hv as [-> | Hv]; [cbn; lia |].
      apply elem_of_nil in Hv. contradiction.
    + change (ValueIndex.is_sorted (x :: y :: rest'))
        with ((x <=? y) && ValueIndex.is_sorted (y :: rest')) in Hs.
      apply andb_true_iff in Hs as [Hxy Hs].
      apply Z.leb_le in Hxy.
      change (List.last (x :: y :: rest') 0) with (List.last (y :: rest') 0).
      apply elem_of_cons in Hv as [-> | Hv].
      * specialize (IH y Hs ltac:(apply elem_of_cons; left; reflexivity)). lia.
      * apply IH; assumption.
Qed.

Lemma sd_get_elem (l : list Z) (size v : Z) :
  ValueIndex.sd_get (ValueIndex.mk_sd size l) v = true <-> v ∈ l.
Proof.
  unfold ValueIndex.sd_get. cbn [ValueIndex.sd_ones].
  rewrite existsb_exists. split.
  - intros (o & Ho & Heq). apply Z.eqb_eq in Heq. subst. apply list_elem_of_In. exact Ho.
  - intros Hv. exists v. split; [apply list_elem_of_In; exact Hv | apply Z.eqb_refl].
Qed.

Lemma filter_below_nil (l : list Z) (v : Z) :
  (forall o, o ∈ l -> v <= o) -> filter (fun o => o < v) l = [].
Proof.
  induction l as [| x l IH]; intros Hall; [reflexivity |].
  rewrite filter_cons_False.
  - apply IH. intros o Ho. apply Hall. apply elem_of_cons. right. exact Ho.
  - specialize (Hall x ltac:(apply elem_of_cons; left; reflexivity)). lia.
Qed.

(** The number of buffer values below [v]. *)
Abbreviation below l v := (Z.of_nat (length (filter (fun o => o < v) l))).

Lemma first_position_here (x : ValueType) (rest : list ValueType) :
  first_position (x :: rest) (getter x) 0.
Proof.
  split; [lia |]. split.
  - exists x. split; reflexivity.
  - intros j y Hj. lia.
Qed.

Lemma first_position_later (x : ValueType) (rest : list ValueType) (v i : Z) :
  getter x <> v -> first_position rest v i -> first_position (x :: rest) v (1 + i).
Proof.
  intros Hne (Hi & (y & Hy & Hv) & Hbefore). split; [lia |]. split.
  - exists y. split; [| exact Hv].
    replace (Z.to_nat (1 + i)) with (S (Z.to_nat i)) by lia. exact Hy.
  - intros j z Hj Hz. destruct (Z.eq_dec j 0) as [-> | Hj0].
    + cbn in Hz. inversion Hz; subst. exact Hne.
    + apply (Hbefore (j - 1) z); [lia |].
      replace (Z.to_nat j) with (S (Z.to_nat (j - 1))) in Hz by lia. exact Hz.
Qed.

(** Selecting the one whose number is the rank of [v] among the buffer values
    lands on the first position of [v]. *)
Lemma select_rank_first (input : list ValueType) (prev v pos : Z) :
  runs_increasing input -> v <> prev -> occurs input v ->
  exists i,
    ValueIndex.select_from (scan input prev).2 pos (below (scan input prev).1 v + 1)
    = Ok (pos + i) /\
    first_position input v i.
Proof.
  revert prev pos. induction input as [| x rest IH]; intros prev pos Hinc Hne Hocc.
  - exfalso. eapply occurs_nil. exact Hocc.
  - pose proof Hinc as [Hle Hrest].
    cbn [ValueIndex.scan].
    destruct (Z.eqb_spec (getter x) prev) as [Heq | Hneq]; cbn [negb fst snd].
    + apply occurs_cons in Hocc as [Hv | Hocc]; [congruence |].
      destruct (IH prev (pos + 1) Hrest Hne Hocc) as (i & Hsel & Hfirst).
      exists (1 + i). cbn [ValueIndex.select_from]. rewrite Hsel.
      split; [f_equal; lia |].
      apply first_position_later; [congruence | exact Hfirst].
    + destruct (Z.eq_dec (getter x) v) as [Hxv | Hxv].
      * exists 0. split; [| rewrite <- Hxv; apply first_position_here].
        rewrite filter_cons_False by lia.
        assert (Hnone : filter (fun o => o < v) (scan rest (getter x)).1 = []).
        { apply filter_below_nil. intros o Ho.
          apply scan_buffer_occurs in Ho.
          pose proof (runs_increasing_ge x rest o Hinc Ho). lia. }
        rewrite Hnone. cbn [length ValueIndex.select_from Z.of_nat Z.add].
        change (1 =? 1) with true. cbv iota. f_equal. lia.
      * apply occurs_cons in Hocc as [Hv | Hocc]; [contradiction |].
        pose proof (runs_increasing_ge x rest v Hinc Hocc) as Hge.
        destruct (IH (getter x) (pos + 1) Hrest ltac:(congruence) Hocc) as (i & Hsel & Hfirst).
        exists (1 + i). rewrite filter_cons_True by lia.
        cbn [length ValueIndex.select_from].
        destruct (Z.eqb_spec (Z.of_nat (S (length (filter (fun o => o < v)
                    (scan rest (getter x)).1))) + 1) 1) as [Hone | _]; [lia |].
        replace (Z.of_nat (S (length (filter (fun o => o < v) (scan rest (getter x)).1))) + 1 - 1)
          with (below (scan rest (getter x)).1 v + 1) by lia.
        rewrite Hsel. split; [f_equal; lia |].
        apply first_position_later; assumption.
Qed.

End ValueIndexFacts.

Lemma last_elem (x : Z) (l : list Z) : List.last (x :: l) 0 ∈ x :: l.
Proof.
  revert x. induction l as [| y l IH]; intros x.
  - apply elem_of_cons. left. reflexivity.
  - change (List.last (x :: y :: l) 0) with (List.last (y :: l) 0).
    apply elem_of_cons. right. apply IH.
Qed.

Example ValueIndex_find_example :
  (vi ← ValueIndex.build id [3; 3; 7; 7; 7; 9]; ValueIndex.find vi 7) = Ok 2 /\
  (vi ← ValueIndex.build id [3; 3; 7; 7; 7; 9]; ValueIndex.find vi 9) = Ok 5 /\
  (vi ← ValueIndex.build id [3; 3; 7; 7; 7; 9]; ValueIndex.find vi 5) = Ok 6 /\
  (vi ← ValueIndex.build id [3; 3; 7; 7; 7; 9]; ValueIndex.find vi 12) = Ok 6.
Proof. repeat split; vm_compute; reflexivity. Qed.

(** C8, as stated, fails: the value 2^64 - 1 is the constructor's "no
    previous value" mark, so an input that starts with it gets no run marked
    and [find] answers [input.size()] although the value occurs at index 0. *)
Lemma ValueIndex_find_sentinel_counterexample :
  ValueIndex.runs_increasing id [2 ^ 64 - 1] /\
  ValueIndex.first_position id [2 ^ 64 - 1] (2 ^ 64 - 1) 0 /\
  exists vi, ValueIndex.build id [2 ^ 64 - 1] = Ok vi /\
             ValueIndex.find vi (2 ^ 64 - 1) = Ok 1.
Proof.
  split; [| split].
  - split; [| exact I]. intros y Hy. apply elem_of_nil in Hy. contradiction.
  - apply (first_position_here id).
  - exists (ValueIndex.mk ValueIndex.sd_empty [false]).
    split; vm_compute; reflexivity.
Qed.

(** C8 (amended): for an input whose values are below 2^64 - 1, never
    decrease (equal values form contiguous runs, and the runs increase),
    [find(v)] returns the smallest index whose value is [v] when [v] occurs,
    and [input.size()] when it does not, also when [v] lies at or beyond
    [values.size()]. *)
Theorem ValueIndex_find_first {ValueType : Type} (getter : ValueType -> Z)
    (input : list ValueType) (v : Z) :
  ValueIndex.runs_increasing getter input ->
  (forall x, x ∈ input -> 0 <= getter x < 2 ^ 64 - 1) ->
  0 <= v < 2 ^ 64 ->
  exists vi, ValueIndex.build getter input = Ok vi /\
    (ValueIndex.occurs getter input v ->
     exists i, ValueIndex.find vi v = Ok i /\
               ValueIndex.first_position getter input v i) /\
    (~ ValueIndex.occurs getter input v ->
     ValueIndex.find vi v = Ok (Z.of_nat (length input))) /\
    (ValueIndex.sd_size (ValueIndex.values vi) <= v ->
     ~ ValueIndex.occurs getter input v /\
     ValueIndex.find vi v = Ok (Z.of_nat (length input))).
Proof.
  intros Hinc Hrange Hv.
  assert (Hsent : forall w, ValueIndex.occurs getter input w -> w <> 2 ^ 64 - 1).
  { intros w (y & Hy & <-). specialize (Hrange y Hy). lia. }
  pose proof (scan_buffer_sorted getter input (2 ^ 64 - 1) Hinc) as Hsorted.
  pose proof (scan_length getter input (2 ^ 64 - 1)) as Hlen.
  pose proof (scan_buffer_occurs getter input (2 ^ 64 - 1)) as Hbo.
  pose proof (fun w H => scan_occurs_buffer getter input (2 ^ 64 - 1) w H (Hsent w H)) as Hob.
  pose proof (select_rank_first getter input (2 ^ 64 - 1) v 0 Hinc) as Hsel.
  unfold ValueIndex.build.
  destruct (ValueIndex.scan getter input (2 ^ 64 - 1)) as [buffer bits].
  cbn [fst snd] in *.
  destruct buffer as [| b0 buffer].
  - cbn [length Z.of_nat]. change (0 <? 0) with false. cbv iota.
    cbn [mbind res_bind]. eexists. split; [reflexivity |].
    unfold ValueIndex.find. cbn [ValueIndex.values ValueIndex.first_occ].
    cbn [ValueIndex.sd_empty ValueIndex.sd_size].
    destruct (Z.leb_spec 0 v) as [_ | Hneg]; [| lia]. cbn [orb]. rewrite Hlen.
    split; [| split].
    + intros Hocc. apply Hob in Hocc. apply elem_of_nil in Hocc. contradiction.
    + intros _. reflexivity.
    + intros _. split; [| reflexivity].
      intros Hocc. apply Hob in Hocc. apply elem_of_nil in Hocc. contradiction.
  - destruct (Z.ltb_spec 0 (Z.of_nat (length (b0 :: buffer)))) as [_ | Hz];
      [| cbn [length] in Hz; lia].
    unfold ValueIndex.sd_build. rewrite Hsorted. cbn [mbind res_bind].
    eexists. split; [reflexivity |].
    unfold ValueIndex.find. cbn [ValueIndex.values ValueIndex.first_occ ValueIndex.sd_size].
    assert (Hlast : 0 <= List.last (b0 :: buffer) 0 < 2 ^ 64 - 1).
    { destruct (Hbo _ (last_elem b0 buffer)) as (y & Hy & <-). apply Hrange. exact Hy. }
    rewrite wrap64_small by lia. rewrite Hlen.
    assert (Hin : ValueIndex.occurs getter input v ->
                  v < List.last (b0 :: buffer) 0 + 1).
    { intros Hocc. pose proof (is_sorted_last _ v Hsorted (Hob v Hocc)). lia. }
    split; [| split].
    + intros Hocc. specialize (Hin Hocc).
      destruct (Z.leb_spec (List.last (b0 :: buffer) 0 + 1) v) as [Hge | _]; [lia |].
      rewrite (proj2 (sd_get_elem _ _ v) (Hob v Hocc)). cbn [orb negb].
      destruct (Hsel (Hsent v Hocc) Hocc) as (i & Hi & Hfirst).
      exists i. split; [| exact Hfirst].
      unfold ValueIndex.select, ValueIndex.sd_rank. cbn [ValueIndex.sd_ones].
      rewrite Hi. f_equal.
    + intros Hno.
      destruct (ValueIndex.sd_get _ v) eqn:Hget.
      * exfalso. apply Hno. apply Hbo. eapply sd_get_elem. exact Hget.
      * cbn [negb]. rewrite orb_true_r. reflexivity.
    + intros Hout. split; [intros Hocc; specialize (Hin Hocc); lia |].
      destruct (Z.leb_spec (List.last (b0 :: buffer) 0 + 1) v) as [_ | Hlt]; [| lia].
      reflexivity.
Qed.

Lemma ValueIndex_find_first_witness :
  ValueIndex.runs_increasing id [3; 3; 7] /\
  (forall x, x ∈ [3; 3; 7] -> 0 <= id x < 2 ^ 64 - 1) /\
  0 <= 7 < 2 ^ 64 /\
  exists vi, ValueIndex.build id [3; 3; 7] = Ok vi /\
    (ValueIndex.occurs id [3; 3; 7] 7 ->
     exists i, ValueIndex.find vi 7 = Ok i /\
               ValueIndex.first_position id [3; 3; 7] 7 i) /\
    (~ ValueIndex.occurs id [3; 3; 7] 7 ->
     ValueIndex.find vi 7 = Ok (Z.of_nat (length [3; 3; 7]))) /\
    (ValueIndex.sd_size (ValueIndex.values vi) <= 7 ->
     ~ ValueIndex.occurs id [3; 3; 7] 7 /\
     ValueIndex.find vi 7 = Ok (Z.of_nat (length [3; 3; 7]))).
Proof.
  assert (Hmem : forall x : Z, x ∈ [3; 3; 7] -> x = 3 \/ x = 7).
  { intros x Hx. repeat (apply elem_of_cons in Hx as [-> | Hx]; [lia |]).
    apply elem_of_nil in Hx. contradiction. }
  assert (H1 : ValueIndex.runs_increasing id [3; 3; 7]).
  { cbn [ValueIndex.runs_increasing]. repeat split; intros y Hy; unfold id.
    - specialize (Hmem y ltac:(apply elem_of_cons; right; exact Hy)). lia.
    - repeat (apply elem_of_cons in Hy as [-> | Hy]; [lia |]).
      apply elem_of_nil in Hy. contradiction.
    - apply elem_of_nil in Hy. contradiction. }
  assert (H2 : forall x, x ∈ [3; 3; 7] -> 0 <= id x < 2 ^ 64 - 1).
  { intros x Hx. unfold id. destruct (Hmem x Hx) as [-> | ->]; lia. }
  assert (H3 : 0 <= 7 < 2 ^ 64) by lia.
  split; [exact H1 |]. split; [exact H2 |]. split; [exact H3 |].
  exact (ValueIndex_find_first id [3; 3; 7] 7 H1 H2 H3).
Defined.

(** ** PriorityQueue *)

Lemma parent_small (j : Z) : 0 < j < 2 ^ 64 -> PriorityQueue.parent j = (j - 1) / 2.
Proof.
  intros Hj. unfold PriorityQueue.parent. rewrite wrap64_small by lia. reflexivity.
Qed.

Lemma left_small (i : Z) : 0 <= i < 2 ^ 63 -> PriorityQueue.left i = 2 * i + 1.
Proof.
  intros Hi. unfold PriorityQueue.left. apply wrap64_small.
  change (2 ^ 64) with (2 * 2 ^ 63). lia.
Qed.

Lemma right_small (i : Z) : 0 <= i < 2 ^ 63 - 1 -> PriorityQueue.right i = 2 * i + 2.
Proof.
  intros Hi. unfold PriorityQueue.right. apply wrap64_small.
  change (2 ^ 64) with (2 * 2 ^ 63). lia.
Qed.

Lemma parent_is (j p : Z) : 0 < j -> (j - 1) / 2 = p <-> j = 2 * p + 1 \/ j = 2 * p + 2.
Proof. intros Hj. split; intros H; Z.div_mod_to_equations; lia. Qed.

Lemma parent_lt (j : Z) : 0 < j -> 0 <= (j - 1) / 2 < j.
Proof. intros Hj. Z.div_mod_to_equations. lia. Qed.

(** Writing [b] over slot [i] trades the old element for [b]. *)
Lemma insert_Permutation {A : Type} (l : list A) (i : nat) (a b : A) :
  l !! i = Some a -> <[i := b]> l ≡ₚ b :: delete i l.
Proof.
  intros Ha. rewrite insert_take_drop by (eapply lookup_lt_Some; exact Ha).
  rewrite delete_take_drop. symmetry. apply Permutation_middle.
Qed.

(** Exchanging two slots permutes the vector. *)
Lemma exchange_Permutation {A : Type} (l : list A) (i j : nat) (x y : A) :
  i <> j -> l !! i = Some x -> l !! j = Some y ->
  <[i := y]> (<[j := x]> l) ≡ₚ l.
Proof.
  intros Hij Hx Hy.
  assert (Hx1 : <[j := x]> l !! i = Some x)
    by (rewrite list_lookup_insert_ne by congruence; exact Hx).
  rewrite (insert_Permutation _ i x y Hx1).
  rewrite (delete_Permutation l j y Hy) at 2.
  apply Permutation_skip.
  apply (Permutation_cons_inv (a := x)).
  rewrite <- (delete_Permutation _ i x Hx1).
  apply (insert_Permutation l j y x Hy).
Qed.

Lemma lookup_cons_S {A : Type} (x : A) (l : list A) (i : nat) :
  (x :: l) !! S i = l !! i.
Proof. reflexivity. Qed.

Section PriorityQueueFacts.

Context {Element : Type}.
Variable less : Element -> Element -> bool.

Hypothesis less_irrefl : forall x, less x x = false.
Hypothesis less_trans :
  forall x y z, less x y = true -> less y z = true -> less x z = true.
Hypothesis less_negtrans :
  forall x y z, less x y = false -> less y z = false -> less x z = false.

Abbreviation size := (@PriorityQueue.size Element).
Abbreviation smaller := (PriorityQueue.smaller less).
Abbreviation swap := (@PriorityQueue.swap Element).
Abbreviation down_choice := (PriorityQueue.down_choice less).
Abbreviation down := (PriorityQueue.down less).
Abbreviation heap_from := (PriorityQueue.heap_from less).
Abbreviation sift_inv := (PriorityQueue.sift_inv less).
Abbreviation is_heap := (PriorityQueue.is_heap less).

Lemma less_asym (x y : Element) : less x y = true -> less y x = false.
Proof.
  intros Hxy. destruct (less y x) eqn:Hyx; [| reflexivity].
  pose proof (less_trans x y x Hxy Hyx) as Hxx. rewrite less_irrefl in Hxx. discriminate.
Qed.

Lemma lookup_in_range (data : list Element) (i : Z) :
  0 <= i < size data -> exists x, data !! Z.to_nat i = Some x.
Proof.
  intros Hi. apply lookup_lt_is_Some_2. unfold PriorityQueue.size in Hi. lia.
Qed.

Lemma lookup_range (data : list Element) (i : Z) (x : Element) :
  0 <= i -> data !! Z.to_nat i = Some x -> i < size data.
Proof.
  intros Hi Hx. apply lookup_lt_Some in Hx. unfold PriorityQueue.size. lia.
Qed.

(** [smaller(i, j)] is [j] when [data[j] < data[i]] and [i] otherwise. *)
Lemma smaller_spec (data : list Element) (i j : Z) (di dj : Element) :
  0 <= i -> 0 <= j ->
  data !! Z.to_nat i = Some di -> data !! Z.to_nat j = Some dj ->
  smaller data i j = Ok (if less dj di then j else i).
Proof.
  intros Hi Hj Hdi Hdj. unfold PriorityQueue.smaller.
  rewrite (at_index_lookup data j dj Hj Hdj). cbn [mbind res_bind].
  rewrite (at_index_lookup data i di Hi Hdi). reflexivity.
Qed.

(** What [smaller] must have read and compared to give its answer. *)
Lemma smaller_inv (data : list Element) (i j r : Z) :
  smaller data i j = Ok r ->
  exists di dj, data !! Z.to_nat i = Some di /\ data !! Z.to_nat j = Some dj /\
                ((less dj di = true /\ r = j) \/ (less dj di = false /\ r = i)).
Proof.
  unfold PriorityQueue.smaller. intros H.
  destruct (at_index data j) as [dj | |] eqn:Hj; try discriminate.
  destruct (at_index data i) as [di | |] eqn:Hi; try discriminate.
  cbn [mbind res_bind] in H. injection H as Hr.
  apply at_index_Ok in Hi as [_ Hi]. apply at_index_Ok in Hj as [_ Hj].
  exists di, dj. split; [exact Hi |]. split; [exact Hj |].
  destruct (less dj di); [left | right]; auto.
Qed.

(** [down] exchanges [data[i]] with [data[next]] only when the latter is
    strictly less. *)
Lemma down_choice_strict (data : list Element) (i next : Z) :
  down_choice data i = Ok next -> next <> i ->
  exists di dn, data !! Z.to_nat i = Some di /\ data !! Z.to_nat next = Some dn /\
                less dn di = true.
Proof.
  unfold PriorityQueue.down_choice. intros H Hne.
  destruct (smaller data i (PriorityQueue.left i)) as [n1 | |] eqn:H1; try discriminate.
  cbn [mbind res_bind] in H.
  apply smaller_inv in H1 as (di & dl & Hdi & Hdl & Hc1).
  destruct (PriorityQueue.right i <? PriorityQueue.size data).
  - apply smaller_inv in H as (dn1 & dr & Hdn1 & Hdr & Hc2).
    destruct Hc2 as [[Hlt ->] | [Hge ->]].
    + exists di, dr. split; [exact Hdi |]. split; [exact Hdr |].
      destruct Hc1 as [[Hl ->] | [_ ->]].
      * rewrite Hdl in Hdn1. injection Hdn1 as <-. eapply less_trans; eassumption.
      * rewrite Hdi in Hdn1. injection Hdn1 as <-. exact Hlt.
    + destruct Hc1 as [[Hl ->] | [_ ->]]; [| contradiction].
      exists di, dl. auto.
  - injection H as <-.
    destruct Hc1 as [[Hl ->] | [_ ->]]; [| contradiction].
    exists di, dl. auto.
Qed.

(** The choice made by one round of [down] at a node with a left child. *)
Lemma down_choice_spec (data : list Element) (p : Z) :
  size data < 2 ^ 63 -> 0 <= p -> 2 * p + 1 < size data ->
  exists next dp dn,
    down_choice data p = Ok next /\
    data !! Z.to_nat p = Some dp /\ data !! Z.to_nat next = Some dn /\
    (next = p \/ next = 2 * p + 1 \/ next = 2 * p + 2) /\
    (next <> p -> less dn dp = true) /\
    (forall c dc, c = 2 * p + 1 \/ c = 2 * p + 2 ->
                  data !! Z.to_nat c = Some dc -> less dc dn = false).
Proof.
  intros Hsize Hp Hleft.
  destruct (lookup_in_range data p ltac:(lia)) as [dp Hdp].
  destruct (lookup_in_range data (2 * p + 1) ltac:(lia)) as [dl Hdl].
  unfold PriorityQueue.down_choice.
  rewrite left_small by lia. rewrite right_small by lia.
  rewrite (smaller_spec data p (2 * p + 1) dp dl) by (auto; lia).
  cbn [mbind res_bind].
  destruct (Z.ltb_spec (2 * p + 2) (PriorityQueue.size data)) as [Hright | Hnoright].
  - destruct (lookup_in_range data (2 * p + 2) ltac:(lia)) as [dr Hdr].
    destruct (less dl dp) eqn:Hlp.
    + rewrite (smaller_spec data (2 * p + 1) (2 * p + 2) dl dr) by (auto; lia).
      destruct (less dr dl) eqn:Hrl.
      * exists (2 * p + 2), dp, dr. repeat split; auto.
        -- intros _. eapply less_trans; eassumption.
        -- intros c dc [-> | ->] Hc; rewrite Hc in *.
           ++ injection Hdl as ->. apply less_asym. exact Hrl.
           ++ injection Hdr as ->. apply less_irrefl.
      * exists (2 * p + 1), dp, dl. repeat split; auto.
        intros c dc [-> | ->] Hc; rewrite Hc in *.
        -- injection Hdl as ->. apply less_irrefl.
        -- injection Hdr as ->. exact Hrl.
    + rewrite (smaller_spec data p (2 * p + 2) dp dr) by (auto; lia).
      destruct (less dr dp) eqn:Hrp.
      * exists (2 * p + 2), dp, dr. repeat split; auto.
        intros c dc [-> | ->] Hc; rewrite Hc in *.
        -- injection Hdl as ->. destruct (less dl dr) eqn:Hcr; [| reflexivity].
           rewrite (less_trans _ _ _ Hcr Hrp) in Hlp. discriminate.
        -- injection Hdr as ->. apply less_irrefl.
      * exists p, dp, dp. repeat split; auto.
        intros c dc [-> | ->] Hc; rewrite Hc in *.
        -- injection Hdl as ->. exact Hlp.
        -- injection Hdr as ->. exact Hrp.
  - assert (Hnone : data !! Z.to_nat (2 * p + 2) = None).
    { apply lookup_ge_None. unfold PriorityQueue.size in Hnoright. lia. }
    destruct (less dl dp) eqn:Hlp.
    + exists (2 * p + 1), dp, dl. repeat split; auto.
      intros c dc [-> | ->] Hc; rewrite Hc in *.
      * injection Hdl as ->. apply less_irrefl.
      * discriminate.
    + exists p, dp, dp. repeat split; auto.
      intros c dc [-> | ->] Hc; rewrite Hc in *.
      * injection Hdl as ->. exact Hlp.
      * discriminate.
Qed.

(** [std::swap] of two different slots. *)
Lemma swap_spec (data : list Element) (p n : Z) (dp dn : Element) :
  0 <= p -> 0 <= n -> p <> n ->
  data !! Z.to_nat p = Some dp -> data !! Z.to_nat n = Some dn ->
  exists data',
    swap data p n = Ok data' /\
    length data' = length data /\
    data' !! Z.to_nat p = Some dn /\
    data' !! Z.to_nat n = Some dp /\
    (forall j, 0 <= j -> j <> p -> j <> n ->
               data' !! Z.to_nat j = data !! Z.to_nat j) /\
    data' ≡ₚ data.
Proof.
  intros Hp Hn Hne Hdp Hdn.
  pose proof (lookup_lt_Some _ _ _ Hdp) as Hlp.
  pose proof (lookup_lt_Some _ _ _ Hdn) as Hln.
  unfold PriorityQueue.swap.
  rewrite (at_index_lookup data p dp Hp Hdp). cbn [mbind res_bind].
  rewrite (at_index_lookup data n dn Hn Hdn). cbn [mbind res_bind].
  eexists. split; [reflexivity |].
  split; [rewrite !length_insert; reflexivity |].
  split; [apply list_lookup_insert_eq; rewrite length_insert; exact Hlp |].
  split.
  { rewrite list_lookup_insert_ne by lia. apply list_lookup_insert_eq. exact Hln. }
  split.
  { intros j Hj Hjp Hjn. rewrite !list_lookup_insert_ne by lia. reflexivity. }
  apply exchange_Permutation; [lia | exact Hdp | exact Hdn].
Qed.

(** [down], started in a state of the sift invariant, ends in a vector that
    is in heap order from [k] on and holds the same elements. *)
Lemma down_sift (fuel : nat) (data : list Element) (k p : Z) :
  size data < 2 ^ 63 -> sift_inv data k p ->
  (Z.to_nat (size data - p) <= fuel)%nat ->
  exists data', down fuel data p = Ok data' /\ heap_from data' k /\ data' ≡ₚ data.
Proof.
  revert data p. induction fuel as [| fuel IH]; intros data p Hsize Hinv Hfuel.
  { destruct Hinv as [[_ Hp] _]. lia. }
  destruct Hinv as ([[Hk Hkp] Hp] & Hedges & Hgrand).
  cbn [PriorityQueue.down]. rewrite left_small by lia.
  destruct (Z.ltb_spec (2 * p + 1) (PriorityQueue.size data)) as [Hleft | Hleaf].
  - destruct (down_choice_spec data p Hsize ltac:(lia) Hleft)
      as (next & dp & dn & Hch & Hdp & Hdn & Hnext & Hstrict & Hchildren).
    rewrite Hch. cbn [mbind res_bind].
    destruct (Z.eqb_spec next p) as [-> | Hne].
    + exists data. split; [reflexivity |]. split; [| reflexivity].
      rewrite Hdn in Hdp. injection Hdp as ->.
      intros j x y Hj Hjk Hx Hy.
      destruct (Z.eq_dec ((j - 1) / 2) p) as [Hpar | Hpar].
      * rewrite Hpar, Hdn in Hy. injection Hy as <-.
        apply (Hchildren j x); [apply parent_is; lia | exact Hx].
      * eapply Hedges; eauto.
    + assert (Hnp : p < next) by lia.
      assert (Hparn : (next - 1) / 2 = p) by (apply parent_is; lia).
      assert (Hnsize : next < PriorityQueue.size data) by (eapply lookup_range; [lia | eauto]).
      destruct (swap_spec data p next dp dn ltac:(lia) ltac:(lia) ltac:(lia) Hdp Hdn)
        as (data' & Hsw & Hlen & Hp' & Hn' & Hother & Hperm).
      rewrite Hsw. cbn [mbind res_bind].
      assert (Hsize' : PriorityQueue.size data' = PriorityQueue.size data)
        by (unfold PriorityQueue.size; rewrite Hlen; reflexivity).
      destruct (IH data' next) as (data'' & Hdown & Hheap & Hperm'').
      * rewrite Hsize'. exact Hsize.
      * split; [rewrite Hsize'; lia |]. split.
        -- intros j x y Hj Hjk Hpar Hx Hy. rewrite Hsize' in Hj.
           pose proof (parent_lt j ltac:(lia)) as Hq.
           destruct (Z.eq_dec j next) as [-> | Hjn].
           { rewrite Hn' in Hx. injection Hx as <-.
             rewrite Hparn, Hp' in Hy. injection Hy as <-.
             apply less_asym. apply Hstrict. lia. }
           destruct (Z.eq_dec j p) as [-> | Hjp].
           { rewrite Hp' in Hx. injection Hx as <-.
             rewrite Hother in Hy by lia.
             apply (Hgrand ltac:(lia) Hjk next dn y); auto. lia. }
           rewrite Hother in Hx by lia.
           destruct (Z.eq_dec ((j - 1) / 2) p) as [Hqp | Hqp].
           { rewrite Hqp, Hp' in Hy. injection Hy as <-.
             apply (Hchildren j x); [apply parent_is; lia | exact Hx]. }
           rewrite Hother in Hy by lia.
           eapply Hedges; eauto.
        -- intros Hn0 Hkn j x y Hj Hpar Hx Hy. rewrite Hsize' in Hj.
           rewrite Hparn, Hp' in Hy. injection Hy as <-.
           assert (Hjn : next < j) by (apply parent_is in Hpar; lia).
           rewrite Hother in Hx by lia.
           apply (Hedges j x dn); auto; try lia.
           rewrite Hpar. exact Hdn.
      * rewrite Hsize'. lia.
      * exists data''. split; [exact Hdown |]. split; [exact Hheap |].
        etransitivity; eassumption.
  - exists data. split; [reflexivity |]. split; [| reflexivity].
    intros j x y Hj Hjk Hx Hy.
    destruct (Z.eq_dec ((j - 1) / 2) p) as [Hpar | Hpar].
    + apply parent_is in Hpar; lia.
    + eapply Hedges; eauto.
Qed.

(** On a vector that is in heap order after [k], [down(k)] extends the order
    to [k]. *)
Lemma down_heap_from (fuel : nat) (data : list Element) (k : Z) :
  size data < 2 ^ 63 -> 0 <= k < size data ->
  heap_from data (k + 1) ->
  (length data <= fuel)%nat ->
  exists data', down fuel data k = Ok data' /\ heap_from data' k /\ data' ≡ₚ data.
Proof.
  intros Hsize Hk Hheap Hfuel. apply down_sift; [exact Hsize | | unfold PriorityQueue.size; lia].
  split; [lia |]. split.
  - intros j x y Hj Hjk Hpar Hx Hy. apply (Hheap j x y); auto. lia.
  - intros Hk0 Hpar. pose proof (parent_lt k Hk0). lia.
Qed.

Lemma heap_from_0_is_heap (data : list Element) :
  size data < 2 ^ 63 -> heap_from data 0 -> is_heap data.
Proof.
  intros Hsize Hheap j x y Hj Hx Hy.
  rewrite parent_small in Hy by lia.
  apply (Hheap j x y); auto. pose proof (parent_lt j ltac:(lia)). lia.
Qed.

Lemma is_heap_heap_from_0 (data : list Element) :
  size data < 2 ^ 63 -> is_heap data -> heap_from data 0.
Proof.
  intros Hsize Hheap j x y Hj _ Hx Hy.
  apply (Hheap j x y); auto. rewrite parent_small by lia. exact Hy.
Qed.

(** The loop of [heapify], entered at [i] with the order established after
    [i], establishes it everywhere. *)
Lemma heapify_loop_heap (fuel n : nat) (data : list Element) (i : Z) :
  size data < 2 ^ 63 -> 0 <= i < size data ->
  heap_from data (i + 1) ->
  (length data <= fuel)%nat -> (Z.to_nat i <= n)%nat ->
  exists data', PriorityQueue.heapify_loop less fuel n data i = Ok data' /\
                heap_from data' 0 /\ data' ≡ₚ data.
Proof.
  revert data i. induction n as [| n IH]; intros data i Hsize Hi Hheap Hfuel Hn.
  - assert (i = 0) by lia. subst i.
    destruct (down_heap_from fuel data 0 Hsize Hi Hheap Hfuel) as (d1 & Hd & Hh & Hp).
    exists d1. cbn [PriorityQueue.heapify_loop]. rewrite Hd. cbn [mbind res_bind].
    auto.
  - destruct (down_heap_from fuel data i Hsize Hi Hheap Hfuel) as (d1 & Hd & Hh & Hp).
    cbn [PriorityQueue.heapify_loop]. rewrite Hd. cbn [mbind res_bind].
    destruct (Z.eqb_spec i 0) as [-> | Hi0].
    + exists d1. auto.
    + rewrite wrap64_small by lia.
      pose proof (Permutation_length Hp) as Hlen.
      assert (Hsize' : PriorityQueue.size d1 = PriorityQueue.size data)
        by (unfold PriorityQueue.size; rewrite Hlen; reflexivity).
      destruct (IH d1 (i - 1)) as (d2 & Hd2 & Hh2 & Hp2).
      * rewrite Hsize'. exact Hsize.
      * rewrite Hsize'. lia.
      * replace (i - 1 + 1) with i by lia. exact Hh.
      * rewrite Hlen. exact Hfuel.
      * lia.
      * exists d2. split; [exact Hd2 |]. split; [exact Hh2 |].
        etransitivity; eassumption.
Qed.

(** [heapify] returns a heap holding the same elements. *)
Lemma heapify_heap (fuel : nat) (data : list Element) :
  size data < 2 ^ 63 -> (length data <= fuel)%nat ->
  exists heap, PriorityQueue.heapify less fuel data = Ok heap /\
               is_heap heap /\ heap ≡ₚ data.
Proof.
  intros Hsize Hfuel. unfold PriorityQueue.heapify.
  destruct (Z.leb_spec (PriorityQueue.size data) 1) as [Hsmall | Hbig].
  - exists data. split; [reflexivity |]. split; [| reflexivity].
    intros j x y Hj. lia.
  - rewrite (wrap64_small (PriorityQueue.size data - 1)) by lia.
    rewrite parent_small by lia.
    pose proof (parent_lt (PriorityQueue.size data - 1) ltac:(lia)) as Hq.
    destruct (heapify_loop_heap fuel fuel data ((PriorityQueue.size data - 1 - 1) / 2))
      as (heap & Hrun & Hheap & Hperm).
    + exact Hsize.
    + lia.
    + intros j x y Hj Hjk. exfalso. Z.div_mod_to_equations. lia.
    + exact Hfuel.
    + unfold PriorityQueue.size in *. lia.
    + exists heap. split; [exact Hrun |]. split; [| exact Hperm].
      apply heap_from_0_is_heap; [| exact Hheap].
      unfold PriorityQueue.size in *. rewrite (Permutation_length Hperm). exact Hsize.
Qed.

(** In a heap no element is strictly less than the root. *)
Lemma heap_root_minimal (data : list Element) (r : Element) :
  size data < 2 ^ 63 -> heap_from data 0 ->
  data !! 0%nat = Some r ->
  forall x, x ∈ data -> less x r = false.
Proof.
  intros Hsize Hheap Hr.
  assert (Hidx : forall n : nat, forall x, data !! n = Some x -> less x r = false).
  { induction n as [n IHn] using lt_wf_ind. intros x Hx.
    destruct n as [| n'].
    - rewrite Hr in Hx. injection Hx as <-. apply less_irrefl.
    - pose proof (lookup_lt_Some _ _ _ Hx) as Hlt.
      set (j := Z.of_nat (S n')).
      pose proof (parent_lt j ltac:(lia)) as Hq.
      destruct (lookup_in_range data ((j - 1) / 2)) as [y Hy];
        [unfold PriorityQueue.size; lia |].
      apply (less_negtrans x y r).
      + apply (Hheap j x y); [unfold PriorityQueue.size; lia | lia | | exact Hy].
        unfold j. rewrite Nat2Z.id. exact Hx.
      + apply (IHn (Z.to_nat ((j - 1) / 2))); [lia | exact Hy]. }
  intros x Hx. apply list_elem_of_lookup in Hx as [n Hn]. eapply Hidx. exact Hn.
Qed.

(** Extracting the root of a heap leaves a heap on the other elements. *)
Lemma extract_root_heap (fuel : nat) (data : list Element) :
  size data < 2 ^ 63 -> heap_from data 0 ->
  (1 <= length data)%nat -> (length data <= fuel)%nat ->
  exists r rest,
    PriorityQueue.extract_root less fuel data = Ok (r, rest) /\
    data !! 0%nat = Some r /\ heap_from rest 0 /\ data ≡ₚ r :: rest.
Proof.
  intros Hsize Hheap Hlen Hfuel.
  destruct data as [| r tl]; [cbn in Hlen; lia |].
  unfold PriorityQueue.extract_root.
  rewrite (at_index_lookup (r :: tl) 0 r) by (auto; lia). cbn [mbind res_bind].
  destruct (lookup_in_range (r :: tl) (PriorityQueue.size (r :: tl) - 1)) as [lst Hlst];
    [unfold PriorityQueue.size; lia |].
  rewrite (at_index_lookup _ _ lst) by (auto; unfold PriorityQueue.size; lia).
  cbn [mbind res_bind].
  replace (length (r :: tl) - 1)%nat with (length tl) by (cbn [length]; lia).
  change (<[0%nat := lst]> (r :: tl)) with (lst :: tl).
  destruct tl as [| t tl0] using rev_ind.
  - cbn [length take]. destruct fuel as [| fuel]; [cbn in Hfuel; lia |].
    exists r, []. cbn. split; [reflexivity |]. split; [reflexivity |].
    split; [| reflexivity].
    intros j x y Hj. unfold PriorityQueue.size in Hj. cbn in Hj. lia.
  - clear IHtl0.
    assert (Hlast : lst = t).
    { unfold PriorityQueue.size in Hlst. cbn [length] in Hlst.
      rewrite length_app in Hlst. cbn [length] in Hlst.
      replace (Z.to_nat (Z.of_nat (S (length tl0 + 1)) - 1)) with (S (length tl0)) in Hlst by lia.
      rewrite lookup_cons_S in Hlst.
      rewrite list_lookup_middle in Hlst by reflexivity. congruence. }
    subst lst.
    assert (Htake : take (length (tl0 ++ [t])) (t :: tl0 ++ [t]) = t :: tl0).
    { change (t :: tl0 ++ [t]) with ((t :: tl0) ++ [t]).
      apply take_app_length'. rewrite length_app. cbn [length]. lia. }
    rewrite Htake.
    assert (Hlen1 : length (r :: tl0 ++ [t]) = S (length (t :: tl0))).
    { cbn [length]. rewrite length_app. cbn [length]. lia. }
    destruct (down_sift fuel (t :: tl0) 0 0) as (rest & Hdown & Hrest & Hperm).
    + unfold PriorityQueue.size in *. lia.
    + split; [unfold PriorityQueue.size; cbn [length]; lia |]. split; [| lia].
      intros j x y Hj _ Hpar Hx Hy.
      pose proof (parent_lt j ltac:(lia)) as Hq.
      unfold PriorityQueue.size in Hj. cbn [length] in Hj.
      apply (Hheap j x y).
      * unfold PriorityQueue.size. rewrite Hlen1. cbn [length]. lia.
      * lia.
      * replace (Z.to_nat j) with (S (Z.to_nat (j - 1))) in Hx |- * by lia.
        rewrite lookup_cons_S in Hx |- *.
        rewrite lookup_app_l by lia. exact Hx.
      * replace (Z.to_nat ((j - 1) / 2)) with (S (Z.to_nat ((j - 1) / 2 - 1))) in Hy |- * by lia.
        rewrite lookup_cons_S in Hy |- *.
        rewrite lookup_app_l by lia. exact Hy.
    + unfold PriorityQueue.size in *. lia.
    + exists r, rest. rewrite Hdown. cbn [mbind res_bind].
      split; [reflexivity |]. split; [reflexivity |]. split; [exact Hrest |].
      apply Permutation_skip. rewrite Hperm.
      symmetry. apply Permutation_cons_append.
Qed.

(** Extracting the root again and again from a heap yields its elements in
    nondecreasing order. *)
Lemma extract_all_sorted (fuel n : nat) (data : list Element) :
  size data < 2 ^ 63 -> heap_from data 0 ->
  length data = n -> (n <= fuel)%nat ->
  exists out, PriorityQueue.extract_all less fuel n data = Ok out /\
              out ≡ₚ data /\ PriorityQueue.nondecreasing less out /\
              head out = data !! 0%nat.
Proof.
  revert data. induction n as [| n IH]; intros data Hsize Hheap Hlen Hfuel.
  - exists []. destruct data; [| discriminate]. repeat split; reflexivity.
  - destruct (extract_root_heap fuel data Hsize Hheap ltac:(lia) ltac:(lia))
      as (r & rest & Hext & Hroot & Hrest & Hperm).
    pose proof (Permutation_length Hperm) as Hl. cbn [length] in Hl.
    destruct (IH rest) as (out & Hout & Hperm' & Hsorted & Hhead).
    + unfold PriorityQueue.size in *. lia.
    + exact Hrest.
    + lia.
    + lia.
    + exists (r :: out). cbn [PriorityQueue.extract_all].
      rewrite Hext. cbn [mbind res_bind fst snd]. rewrite Hout. cbn [mbind res_bind].
      split; [reflexivity |].
      split; [rewrite Hperm, Hperm'; reflexivity |].
      split; [| cbn [head]; symmetry; exact Hroot].
      destruct out as [| y out']; [exact I |].
      split; [| exact Hsorted].
      apply (heap_root_minimal data r Hsize Hheap Hroot).
      rewrite Hperm. apply elem_of_cons. right. rewrite <- Hperm'.
      apply elem_of_cons. left. reflexivity.
Qed.

(** C9: for a strict less-than (irreflexive, transitive, with a transitive
    complement), [heapify] leaves the same elements in min-heap order (no
    element is strictly less than its parent), so that extracting the root
    again and again yields all of them in nondecreasing order; [smaller(i, j)]
    answers [j] only when [data[j] < data[i]], and [down] exchanges two slots
    only when the lower one is strictly less. *)
Theorem PriorityQueue_heapify_min_heap (data : list Element) (fuel : nat) :
  size data < 2 ^ 63 -> (length data <= fuel)%nat ->
  exists heap,
    PriorityQueue.heapify less fuel data = Ok heap /\
    is_heap heap /\ heap ≡ₚ data /\
    (exists out, PriorityQueue.extract_all less fuel (length heap) heap = Ok out /\
                 PriorityQueue.nondecreasing less out /\ out ≡ₚ data) /\
    (forall d i j r, smaller d i j = Ok r ->
       exists di dj, d !! Z.to_nat i = Some di /\ d !! Z.to_nat j = Some dj /\
                     ((less dj di = true /\ r = j) \/ (less dj di = false /\ r = i))) /\
    (forall d i next, down_choice d i = Ok next -> next <> i ->
       exists di dn, d !! Z.to_nat i = Some di /\ d !! Z.to_nat next = Some dn /\
                     less dn di = true).
Proof.
  intros Hsize Hfuel.
  destruct (heapify_heap fuel data Hsize Hfuel) as (heap & Hrun & Hheap & Hperm).
  pose proof (Permutation_length Hperm) as Hlen.
  assert (Hsize' : PriorityQueue.size heap < 2 ^ 63)
    by (unfold PriorityQueue.size in *; lia).
  exists heap. split; [exact Hrun |]. split; [exact Hheap |]. split; [exact Hperm |].
  split; [| split].
  - destruct (extract_all_sorted fuel (length heap) heap Hsize'
                (is_heap_heap_from_0 heap Hsize' Hheap) eq_refl ltac:(lia))
      as (out & Hout & Hp & Hs & _).
    exists out. split; [exact Hout |]. split; [exact Hs |].
    etransitivity; eassumption.
  - intros d i j r. apply smaller_inv.
  - intros d i next. apply down_choice_strict.
Qed.

End PriorityQueueFacts.

Example heapify_example :
  PriorityQueue.heapify Z.ltb 4 [5; 3; 8; 1] = Ok [1; 3; 8; 5] /\
  PriorityQueue.extract_all Z.ltb 4 4 [1; 3; 8; 5] = Ok [1; 3; 5; 8].
Proof. split; vm_compute; reflexivity. Qed.

(** Equal keys stay where they are. *)
Example down_keeps_ties :
  PriorityQueue.down Z.ltb 3 [2; 2; 2] 0 = Ok [2; 2; 2] /\
  PriorityQueue.smaller Z.ltb [2; 2; 2] 0 1 = Ok 0.
Proof. split; vm_compute; reflexivity. Qed.

Lemma PriorityQueue_heapify_min_heap_witness :
  (forall x, (x <? x) = false) /\
  (forall x y z, (x <? y) = true -> (y <? z) = true -> (x <? z) = true) /\
  (forall x y z, (x <? y) = false -> (y <? z) = false -> (x <? z) = false) /\
  PriorityQueue.size [5; 3; 8; 1] < 2 ^ 63 /\
  (length [5; 3; 8; 1] <= 4)%nat /\
  exists heap,
    PriorityQueue.heapify Z.ltb 4 [5; 3; 8; 1] = Ok heap /\
    PriorityQueue.is_heap Z.ltb heap /\ heap ≡ₚ [5; 3; 8; 1] /\
    (exists out, PriorityQueue.extract_all Z.ltb 4 (length heap) heap = Ok out /\
                 PriorityQueue.nondecreasing Z.ltb out /\ out ≡ₚ [5; 3; 8; 1]) /\
    (forall d i j r, PriorityQueue.smaller Z.ltb d i j = Ok r ->
       exists di dj, d !! Z.to_nat i = Some di /\ d !! Z.to_nat j = Some dj /\
                     (((dj <? di) = true /\ r = j) \/ ((dj <? di) = false /\ r = i))) /\
    (forall d i next, PriorityQueue.down_choice Z.ltb d i = Ok next -> next <> i ->
       exists di dn, d !! Z.to_nat i = Some di /\ d !! Z.to_nat next = Some dn /\
                     (dn <? di) = true).
Proof.
  assert (H1 : forall x, (x <? x) = false) by (intros x; apply Z.ltb_irrefl).
  assert (H2 : forall x y z, (x <? y) = true -> (y <? z) = true -> (x <? z) = true).
  { intros x y z Hxy Hyz. apply Z.ltb_lt in Hxy, Hyz. apply Z.ltb_lt. lia. }
  assert (H3 : forall x y z, (x <? y) = false -> (y <? z) = false -> (x <? z) = false).
  { intros x y z Hxy Hyz. apply Z.ltb_ge in Hxy, Hyz. apply Z.ltb_ge. lia. }
  assert (H4 : PriorityQueue.size [5; 3; 8; 1] < 2 ^ 63) by reflexivity.
  assert (H5 : (length [5; 3; 8; 1] <= 4)%nat) by (cbn [length]; lia).
  split; [exact H1 |]. split; [exact H2 |]. split; [exact H3 |].
  split; [exact H4 |]. split; [exact H5 |].
  exact (PriorityQueue_heapify_min_heap Z.ltb H1 H2 H3 [5; 3; 8; 1] 4 H4 H5).
Defined.

(* ====================================================================== *)
(** * Further properties of the codecs and helper structures *)
(* ====================================================================== *)

(** ** Keys: merging, replacing, ordering *)

(** A shift to the left drops the bits that leave the 64-bit word. *)
Lemma shl64_mod (x n : Z) :
  0 <= n <= 64 -> shl64 x n = (x mod 2 ^ (64 - n)) * 2 ^ n.
Proof.
  intros Hn. unfold shl64, wrap64. rewrite Z.shiftl_mul_pow2 by lia.
  replace (2 ^ 64) with (2 ^ (64 - n) * 2 ^ n)
    by (rewrite <- Z.pow_add_r by lia; f_equal; lia).
  apply Z.mul_mod_distr_r; apply Z.pow_nonzero; lia.
Qed.

Lemma lor_shl64_mod (x c n : Z) :
  0 <= n <= 64 -> 0 <= c < 2 ^ n ->
  Z.lor (shl64 x n) c = (x mod 2 ^ (64 - n)) * 2 ^ n + c.
Proof.
  intros Hn Hc. rewrite shl64_mod by lia.
  rewrite <- (lor_shiftl_add _ c n) by lia.
  rewrite Z.shiftl_mul_pow2 by lia. reflexivity.
Qed.

(** X1: [Key::merge] keeps the label of its first argument and ORs the
    predecessor and successor masks of the second into those of the first. *)
Theorem Key_merge_masks (key1 key2 : Z) :
  Key.label (Key.merge key1 key2) = Key.label key1 /\
  Key.predecessors (Key.merge key1 key2)
  = Z.lor (Key.predecessors key1) (Key.predecessors key2) /\
  Key.successors (Key.merge key1 key2)
  = Z.lor (Key.successors key1) (Key.successors key2).
Proof.
  unfold Key.merge, Key.label, Key.predecessors, Key.successors, shr64,
    Key.PRED_SUCC_MASK.
  rewrite !Z.shiftr_lor, !Z.shiftr_land.
  change (Z.shiftr 65535 16) with 0. change (Z.shiftr 65535 8) with 255.
  rewrite Z.land_0_r, Z.lor_0_r.
  rewrite !Z.land_lor_distr_l.
  rewrite <- !Z.land_assoc.
  change (Z.land 255 255) with 255. change (Z.land 65535 255) with 255.
  repeat split; reflexivity.
Qed.

Lemma key_low_parts (r : Z) :
  (r mod 65536 / 256) mod 256 = (r / 256) mod 256 /\
  (r mod 65536) mod 256 = r mod 256.
Proof. split; Z.div_mod_to_equations; lia. Qed.

(** X2: [Key::replace] puts the low 48 bits of the new value in the label
    (the value itself when it is below 2^48) and keeps both masks. *)
Theorem Key_replace_label (key kmer_val : Z) :
  0 <= kmer_val ->
  Key.label (Key.replace key kmer_val) = kmer_val mod 2 ^ 48 /\
  (kmer_val < 2 ^ 48 -> Key.label (Key.replace key kmer_val) = kmer_val) /\
  Key.predecessors (Key.replace key kmer_val) = Key.predecessors key /\
  Key.successors (Key.replace key kmer_val) = Key.successors key.
Proof.
  intros Hv.
  assert (Hlow : Z.land key Key.PRED_SUCC_MASK = key mod 65536).
  { unfold Key.PRED_SUCC_MASK. change 65535 with (2 ^ 16 - 1).
    rewrite land_ones_mod by lia. reflexivity. }
  pose proof (Z.mod_pos_bound key 65536 ltac:(lia)) as Hr.
  pose proof (Z.mod_pos_bound kmer_val (2 ^ 48) ltac:(lia)) as Hm.
  assert (Hrep : Key.replace key kmer_val
                 = (kmer_val mod 2 ^ 48) * 65536 + key mod 65536).
  { unfold Key.replace. rewrite Hlow.
    rewrite lor_shl64_mod by (change (2 ^ 16) with 65536; lia). reflexivity. }
  assert (Hlabel : Key.label (Key.replace key kmer_val) = kmer_val mod 2 ^ 48).
  { rewrite Hrep. unfold Key.label. rewrite shr64_div by lia.
    change (2 ^ 16) with 65536.
    rewrite Z.div_add_l by lia. rewrite (Z.div_small (key mod 65536)) by lia. lia. }
  destruct (key_low_parts key) as [Hp Hs].
  split; [exact Hlabel |]. split.
  { intros Hsmall. rewrite Hlabel. apply Z.mod_small. lia. }
  rewrite Hrep. unfold Key.predecessors, Key.successors.
  rewrite !shr64_div by lia. change 255 with (2 ^ 8 - 1).
  rewrite !land_ones_mod by lia. change (2 ^ 8) with 256.
  split.
  - replace (kmer_val mod 2 ^ 48 * 65536) with (kmer_val mod 2 ^ 48 * 256 * 256) by lia.
    rewrite Z.div_add_l by lia.
    rewrite Z.add_comm, Z.mod_add by lia. exact Hp.
  - replace (kmer_val mod 2 ^ 48 * 65536) with (kmer_val mod 2 ^ 48 * 256 * 256) by lia.
    rewrite Z.add_comm, Z.mod_add by lia. exact Hs.
Qed.

Lemma Key_replace_label_witness :
  0 <= 7 /\
  Key.label (Key.replace key_ACG 7) = 7 mod 2 ^ 48 /\
  (7 < 2 ^ 48 -> Key.label (Key.replace key_ACG 7) = 7) /\
  Key.predecessors (Key.replace key_ACG 7) = Key.predecessors key_ACG /\
  Key.successors (Key.replace key_ACG 7) = Key.successors key_ACG.
Proof.
  assert (H : 0 <= 7) by lia.
  split; [exact H |]. exact (Key_replace_label key_ACG 7 H).
Defined.

(** X3: [Node::encode] rebuilds any 64-bit token from what [Node::id] and
    [Node::offset] take out of it. *)
Theorem Node_decode_encode (node : Z) :
  is_u64 node ->
  Node.encode (Node.id node) (Node.offset node) = node.
Proof.
  intros [H0 H64].
  unfold Node.encode, Node.id, Node.offset, Node.OFFSET_BITS, Node.OFFSET_MASK.
  rewrite shr64_div by lia. change 1023 with (2 ^ 10 - 1).
  rewrite land_ones_mod by lia. change (2 ^ 10) with 1024.
  pose proof (Z.mod_pos_bound node 1024 ltac:(lia)) as Hm.
  assert (Hd : 0 <= node / 1024 < 2 ^ 54).
  { split; [apply Z.div_pos; lia |].
    apply Z.div_lt_upper_bound; [lia |]. change (1024 * 2 ^ 54) with (2 ^ 64). lia. }
  rewrite lor_shl64_add; change (2 ^ 10) with 1024; try lia.
  pose proof (Z.div_mod node 1024 ltac:(lia)). lia.
Qed.

Lemma Node_decode_encode_witness :
  is_u64 5123 /\ Node.encode (Node.id 5123) (Node.offset 5123) = 5123.
Proof.
  assert (H : is_u64 5123) by (unfold is_u64; lia).
  split; [exact H |]. exact (Node_decode_encode 5123 H).
Defined.

Lemma pack_app (a b : list Z) :
  pack (a ++ b) = pack a * 8 ^ Z.of_nat (length b) + pack b.
Proof.
  unfold pack at 1. rewrite fold_left_app. rewrite pack_step. reflexivity.
Qed.

(** The loop of [encode] on any k-mer: what it packs, cut to 64 bits. *)
Lemma encode_loop_wrap alpha kmer comps value :
  comps_of alpha (list_ascii_of_string kmer) comps ->
  0 <= value < 2 ^ 64 ->
  Key.encode_loop alpha kmer value
  = Ok (wrap64 (value * 8 ^ Z.of_nat (length comps) + pack comps)).
Proof.
  revert comps value. induction kmer as [| c kmer IH]; intros comps value Hc Hv.
  - inversion Hc; subst. cbn. f_equal. unfold pack. cbn.
    rewrite wrap64_small by lia. lia.
  - cbn [list_ascii_of_string] in Hc.
    inversion Hc as [| ? v ? comps' [Hlk Hr] Hrest]; subst.
    cbn [Key.encode_loop]. rewrite Hlk. cbn [mbind res_bind].
    unfold Key.CHAR_WIDTH.
    rewrite lor_shl64_mod by (change (2 ^ 3) with 8; lia).
    change (64 - 3) with 61. change (2 ^ 3) with 8.
    pose proof (Z.mod_pos_bound value (2 ^ 61) ltac:(lia)) as Hm.
    rewrite (IH comps' _ Hrest) by lia.
    f_equal. cbn [length]. rewrite Nat2Z.inj_succ, Z.pow_succ_r by lia.
    rewrite pack_cons. unfold wrap64.
    pose proof (Z.div_mod value (2 ^ 61) ltac:(lia)) as Hdm.
    set (P := 8 ^ Z.of_nat (length comps')) in *.
    replace (value * (8 * P) + (v * P + pack comps'))
      with ((value mod 2 ^ 61 * 8 + v) * P + pack comps'
            + (value / 2 ^ 61 * P) * 2 ^ 64).
    + rewrite Z.mod_add by lia. reflexivity.
    + rewrite Hdm at 3. change (2 ^ 64) with (2 ^ 61 * 8). ring.
Qed.

Lemma key_assemble (v pred succ : Z) :
  is_u64 v -> is_byte pred -> is_byte succ ->
  Z.lor (shl64 (Z.lor (shl64 v 8) pred) 8) succ
  = ((v mod 2 ^ 48) * 256 + pred) * 256 + succ.
Proof.
  unfold is_u64, is_byte. intros Hv Hp Hs.
  rewrite (lor_shl64_mod v pred 8) by (change (2 ^ 8) with 256; lia).
  rewrite lor_shl64_mod by (change (2 ^ 8) with 256; lia).
  change (64 - 8) with 56. change (2 ^ 8) with 256.
  f_equal. f_equal.
  change (2 ^ 56) with 72057594037927936. change (2 ^ 48) with 281474976710656.
  Z.div_mod_to_equations. lia.
Qed.

(** [encode] on a k-mer of any length. *)
Lemma encode_any_length alpha kmer comps pred succ :
  comps_of alpha (list_ascii_of_string kmer) comps ->
  is_byte pred -> is_byte succ ->
  exists k, Key.encode alpha kmer pred succ = Ok k /\
            Key.predecessors k = pred /\ Key.successors k = succ /\
            Key.label k = pack comps mod 2 ^ 48.
Proof.
  intros Hc Hp Hs.
  unfold Key.encode. rewrite (encode_loop_wrap alpha kmer comps 0 Hc) by lia.
  cbn [mbind res_bind]. rewrite Z.mul_0_l, Z.add_0_l.
  assert (Hw : is_u64 (wrap64 (pack comps))).
  { unfold is_u64, wrap64. apply Z.mod_pos_bound. lia. }
  rewrite (key_assemble _ pred succ Hw Hp Hs).
  assert (Hmm : wrap64 (pack comps) mod 2 ^ 48 = pack comps mod 2 ^ 48).
  { unfold wrap64. change (2 ^ 64) with (2 ^ 48 * 65536).
    change (2 ^ 48) with 281474976710656. Z.div_mod_to_equations. lia. }
  rewrite Hmm.
  pose proof (Z.mod_pos_bound (pack comps) (2 ^ 48) ltac:(lia)) as Hm.
  destruct (key_parts (pack comps mod 2 ^ 48) pred succ ltac:(lia) Hp Hs)
    as (Hl & Hpr & Hsu).
  eexists. split; [reflexivity |]. auto.
Qed.

(** X4: [Key::encode] takes a k-mer of any length whose characters index
    [char2comp] within its bounds (as plain, signed [char]s) and have comp
    values below 8: both masks come back as given and the label is the
    packing of the comp values cut to 48 bits, so of a k-mer of 16
    characters or more only the last 16 are kept. *)
Theorem Key_encode_keeps_last_16 alpha kmer comps pred succ :
  comps_of alpha (list_ascii_of_string kmer) comps ->
  is_byte pred -> is_byte succ ->
  exists k, Key.encode alpha kmer pred succ = Ok k /\
            Key.predecessors k = pred /\ Key.successors k = succ /\
            Key.label k = pack comps mod 2 ^ 48 /\
            ((16 <= length comps)%nat ->
             Key.label k = pack (drop (length comps - 16) comps)).
Proof.
  intros Hc Hp Hs.
  pose proof (comps_of_range _ _ _ Hc) as Hr.
  destruct (encode_any_length alpha kmer comps pred succ Hc Hp Hs)
    as (k & Hk & Hpr & Hsu & Hl).
  exists k. split; [exact Hk |]. split; [exact Hpr |]. split; [exact Hsu |].
  split; [exact Hl |].
  intros Hlen. rewrite Hl.
  rewrite <- (take_drop (length comps - 16) comps) at 1.
  rewrite pack_app.
  assert (Hdl : length (drop (length comps - 16) comps) = 16%nat)
    by (rewrite length_drop; lia).
  rewrite Hdl. change (8 ^ Z.of_nat 16) with (2 ^ 48).
  rewrite Z.add_comm, Z.mod_add by lia.
  apply Z.mod_small.
  assert (Hrd : Forall (fun v => 0 <= v < 8) (drop (length comps - 16) comps))
    by (apply Forall_drop; exact Hr).
  pose proof (pack_bound _ Hrd) as Hb. rewrite Hdl in Hb.
  change (8 ^ Z.of_nat 16) with (2 ^ 48) in Hb. exact Hb.
Qed.

Lemma Key_encode_keeps_last_16_witness :
  comps_of dna_alphabet (list_ascii_of_string "TAAAAAAAAAAAAAAAC")
           [4; 1; 1; 1; 1; 1; 1; 1; 1; 1; 1; 1; 1; 1; 1; 1; 2] /\
  is_byte 16 /\ is_byte 2 /\
  exists k, Key.encode dna_alphabet "TAAAAAAAAAAAAAAAC" 16 2 = Ok k /\
            Key.predecessors k = 16 /\ Key.successors k = 2 /\
            Key.label k
            = pack [4; 1; 1; 1; 1; 1; 1; 1; 1; 1; 1; 1; 1; 1; 1; 1; 2] mod 2 ^ 48 /\
            ((16 <= length [4; 1; 1; 1; 1; 1; 1; 1; 1; 1; 1; 1; 1; 1; 1; 1; 2])%nat ->
             Key.label k
             = pack (drop (length [4; 1; 1; 1; 1; 1; 1; 1; 1; 1; 1; 1; 1; 1; 1; 1; 2] - 16)
                          [4; 1; 1; 1; 1; 1; 1; 1; 1; 1; 1; 1; 1; 1; 1; 1; 2])).
Proof.
  assert (H1 : comps_of dna_alphabet (list_ascii_of_string "TAAAAAAAAAAAAAAAC")
                 [4; 1; 1; 1; 1; 1; 1; 1; 1; 1; 1; 1; 1; 1; 1; 1; 2]).
  { repeat constructor; vm_compute; congruence. }
  assert (H2 : is_byte 16) by (unfold is_byte; lia).
  assert (H3 : is_byte 2) by (unfold is_byte; lia).
  split; [exact H1 |]. split; [exact H2 |]. split; [exact H3 |].
  exact (Key_encode_keeps_last_16 dna_alphabet "TAAAAAAAAAAAAAAAC"
           [4; 1; 1; 1; 1; 1; 1; 1; 1; 1; 1; 1; 1; 1; 1; 1; 2] 16 2 H1 H2 H3).
Defined.

Example Key_encode_17_characters :
  (k ← Key.encode dna_alphabet "TAAAAAAAAAAAAAAAC" 0 0; Ok (Key.label k))
  = (k ← Key.encode dna_alphabet "AAAAAAAAAAAAAAAC" 0 0; Ok (Key.label k)).
Proof. vm_compute. reflexivity. Qed.

(** X5: [Key::last] of an encoded k-mer is the comp value of its last
    character, whatever the length of the k-mer, when its characters index
    [char2comp] within its bounds (as plain, signed [char]s) and have comp
    values below 8. *)
Theorem Key_last_of_encode alpha kmer comps c pred succ :
  comps_of alpha (list_ascii_of_string kmer) (comps ++ [c]) ->
  is_byte pred -> is_byte succ ->
  exists k, Key.encode alpha kmer pred succ = Ok k /\ Key.last k = c.
Proof.
  intros Hc Hp Hs.
  destruct (encode_any_length alpha kmer (comps ++ [c]) pred succ Hc Hp Hs)
    as (k & Hk & _ & _ & Hl).
  exists k. split; [exact Hk |].
  unfold Key.last. fold (Key.label k). rewrite Hl.
  unfold Key.CHAR_MASK. change 7 with (2 ^ 3 - 1). rewrite land_ones_mod by lia.
  rewrite pack_snoc.
  pose proof (comps_of_range _ _ _ Hc) as Hr.
  apply Forall_app in Hr as [_ Hr]. inversion Hr as [| ? ? Hc8 _]; subst.
  change (2 ^ 48) with 281474976710656. change (2 ^ 3) with 8.
  Z.div_mod_to_equations. lia.
Qed.

Lemma Key_last_of_encode_witness :
  comps_of dna_alphabet (list_ascii_of_string "TAAAAAAAAAAAAAAAC")
           ([4; 1; 1; 1; 1; 1; 1; 1; 1; 1; 1; 1; 1; 1; 1; 1] ++ [2]) /\
  is_byte 16 /\ is_byte 2 /\
  exists k, Key.encode dna_alphabet "TAAAAAAAAAAAAAAAC" 16 2 = Ok k /\ Key.last k = 2.
Proof.
  assert (H1 : comps_of dna_alphabet (list_ascii_of_string "TAAAAAAAAAAAAAAAC")
                 ([4; 1; 1; 1; 1; 1; 1; 1; 1; 1; 1; 1; 1; 1; 1; 1] ++ [2])).
  { repeat constructor; vm_compute; congruence. }
  assert (H2 : is_byte 16) by (unfold is_byte; lia).
  assert (H3 : is_byte 2) by (unfold is_byte; lia).
  split; [exact H1 |]. split; [exact H2 |]. split; [exact H3 |].
  exact (Key_last_of_encode dna_alphabet "TAAAAAAAAAAAAAAAC"
           [4; 1; 1; 1; 1; 1; 1; 1; 1; 1; 1; 1; 1; 1; 1; 1] 2 16 2 H1 H2 H3).
Defined.

(** Packings of digit sequences of one length compare like the sequences. *)
Lemma pack_lex (x y : list Z) :
  length x = length y ->
  Forall (fun v => 0 <= v < 8) x -> Forall (fun v => 0 <= v < 8) y ->
  (pack x <? pack y) = lex_lt x y.
Proof.
  revert y. induction x as [| a x IH]; intros [| b y] Hlen Hx Hy;
    try discriminate.
  - reflexivity.
  - inversion Hx as [| ? ? Ha Hx']; subst. inversion Hy as [| ? ? Hb Hy']; subst.
    cbn [length] in Hlen. injection Hlen as Hlen.
    rewrite !pack_cons. cbn [lex_lt]. rewrite <- Hlen.
    pose proof (pack_bound x Hx') as Hbx.
    pose proof (pack_bound y Hy') as Hby. rewrite <- Hlen in Hby.
    set (P := 8 ^ Z.of_nat (length x)) in *.
    destruct (Z.eqb_spec a b) as [-> | Hab].
    + rewrite <- (IH y Hlen Hx' Hy').
      destruct (Z.ltb_spec (pack x) (pack y));
        [apply Z.ltb_lt | apply Z.ltb_ge]; lia.
    + destruct (Z.ltb_spec a b); [apply Z.ltb_lt | apply Z.ltb_ge]; nia.
Qed.

(** X6: [KMer::operator<] orders k-mers of one length (at most 16) as their
    comp sequences are ordered lexicographically; the masks and the
    positions play no part. *)
Theorem KMer_less_lexicographic alpha kmer1 kmer2 comps1 comps2
    pred1 succ1 pred2 succ2 key1 key2 from1 to1 from2 to2 :
  String.length kmer1 = String.length kmer2 ->
  (String.length kmer1 <= 16)%nat ->
  comps_of alpha (list_ascii_of_string kmer1) comps1 ->
  comps_of alpha (list_ascii_of_string kmer2) comps2 ->
  is_byte pred1 -> is_byte succ1 -> is_byte pred2 -> is_byte succ2 ->
  Key.encode alpha kmer1 pred1 succ1 = Ok key1 ->
  Key.encode alpha kmer2 pred2 succ2 = Ok key2 ->
  KMer.less (KMer.mk key1 from1 to1) (KMer.mk key2 from2 to2)
  = lex_lt comps1 comps2 /\
  KMer.key_less key1 (KMer.mk key2 from2 to2) = lex_lt comps1 comps2.
Proof.
  intros Hlen H16 Hc1 Hc2 Hp1 Hs1 Hp2 Hs2 Hk1 Hk2.
  destruct (encode_value alpha kmer1 comps1 pred1 succ1 H16 Hc1 Hp1 Hs1) as [He1 Hb1].
  destruct (encode_value alpha kmer2 comps2 pred2 succ2 ltac:(lia) Hc2 Hp2 Hs2) as [He2 Hb2].
  rewrite He1 in Hk1. injection Hk1 as <-.
  rewrite He2 in Hk2. injection Hk2 as <-.
  destruct (key_parts (pack comps1) pred1 succ1 ltac:(lia) Hp1 Hs1) as (Hl1 & _).
  destruct (key_parts (pack comps2) pred2 succ2 ltac:(lia) Hp2 Hs2) as (Hl2 & _).
  unfold KMer.less, KMer.key_less. cbn [KMer.key]. rewrite Hl1, Hl2.
  assert (Hlex : (pack comps1 <? pack comps2) = lex_lt comps1 comps2).
  { apply pack_lex.
    - rewrite (comps_of_length _ _ _ Hc1), (comps_of_length _ _ _ Hc2).
      rewrite !length_list_ascii_of_string. exact Hlen.
    - eapply comps_of_range; exact Hc1.
    - eapply comps_of_range; exact Hc2. }
  split; exact Hlex.
Qed.

Lemma KMer_less_lexicographic_witness :
  String.length "ACG" = String.length "ACT" /\
  (String.length "ACG" <= 16)%nat /\
  comps_of dna_alphabet (list_ascii_of_string "ACG") [1; 2; 3] /\
  comps_of dna_alphabet (list_ascii_of_string "ACT") [1; 2; 4] /\
  is_byte 16 /\ is_byte 2 /\ is_byte 0 /\ is_byte 0 /\
  Key.encode dna_alphabet "ACG" 16 2 = Ok key_ACG /\
  Key.encode dna_alphabet "ACT" 0 0 = Ok 5505024 /\
  KMer.less (KMer.mk key_ACG 0 0) (KMer.mk 5505024 0 0) = lex_lt [1; 2; 3] [1; 2; 4] /\
  KMer.key_less key_ACG (KMer.mk 5505024 0 0) = lex_lt [1; 2; 3] [1; 2; 4].
Proof.
  assert (H1 : String.length "ACG" = String.length "ACT") by reflexivity.
  assert (H2 : (String.length "ACG" <= 16)%nat) by (simpl; lia).
  assert (H3 : comps_of dna_alphabet (list_ascii_of_string "ACG") [1; 2; 3]).
  { repeat constructor; vm_compute; congruence. }
  assert (H4 : comps_of dna_alphabet (list_ascii_of_string "ACT") [1; 2; 4]).
  { repeat constructor; vm_compute; congruence. }
  assert (H5 : is_byte 16) by (unfold is_byte; lia).
  assert (H6 : is_byte 2) by (unfold is_byte; lia).
  assert (H7 : is_byte 0) by (unfold is_byte; lia).
  assert (H8 : Key.encode dna_alphabet "ACG" 16 2 = Ok key_ACG) by (vm_compute; reflexivity).
  assert (H9 : Key.encode dna_alphabet "ACT" 0 0 = Ok 5505024) by (vm_compute; reflexivity).
  split; [exact H1 |]. split; [exact H2 |]. split; [exact H3 |]. split; [exact H4 |].
  split; [exact H5 |]. split; [exact H6 |]. split; [exact H7 |]. split; [exact H7 |].
  split; [exact H8 |]. split; [exact H9 |].
  exact (KMer_less_lexicographic dna_alphabet "ACG" "ACT" [1; 2; 3] [1; 2; 4]
           16 2 0 0 key_ACG 5505024 0 0 0 0 H1 H2 H3 H4 H5 H6 H7 H7 H8 H9).
Defined.

Lemma common_prefix_sym (x y : list Z) : common_prefix x y = common_prefix y x.
Proof.
  revert y. induction x as [| a x IH]; intros [| b y]; cbn [common_prefix];
    try reflexivity.
  rewrite (Z.eqb_sym b a). destruct (a =? b); [rewrite IH |]; reflexivity.
Qed.

Lemma common_prefix_lt (x y : list Z) :
  length x = length y -> x <> y ->
  0 <= common_prefix x y < Z.of_nat (length x).
Proof.
  revert y. induction x as [| a x IH]; intros [| b y] Hlen Hne; try discriminate.
  - contradiction.
  - cbn [common_prefix length]. injection Hlen as Hlen.
    destruct (Z.eqb_spec a b) as [-> | Hab]; [| lia].
    assert (x <> y) by congruence. specialize (IH y Hlen ltac:(assumption)). lia.
Qed.

(** X7: for k-mers of length [k <= 16] that differ in one of their [k]
    digits, [Key::lcp] returns the length of the longest common prefix of the
    two digit sequences; it is below [k] and the same in both directions. *)
Theorem Key_lcp_of_distinct_kmers (a b k : Z) :
  0 <= k <= 16 ->
  digits (Z.to_nat k) (Key.label a) <> digits (Z.to_nat k) (Key.label b) ->
  Key.lcp a b k
  = Ok (common_prefix (digits (Z.to_nat k) (Key.label a))
                      (digits (Z.to_nat k) (Key.label b))) /\
  Key.lcp b a k = Key.lcp a b k /\
  0 <= common_prefix (digits (Z.to_nat k) (Key.label a))
                     (digits (Z.to_nat k) (Key.label b)) < k.
Proof.
  intros Hk Hne.
  rewrite (Key_lcp_distinct a b k Hk Hne).
  rewrite (Key_lcp_distinct b a k Hk) by congruence.
  split; [reflexivity |]. split; [rewrite common_prefix_sym; reflexivity |].
  pose proof (common_prefix_lt _ _
                ltac:(rewrite !digits_length; reflexivity) Hne) as Hlt.
  rewrite digits_length in Hlt. lia.
Qed.

Lemma Key_lcp_of_distinct_kmers_witness :
  0 <= 3 <= 16 /\
  digits (Z.to_nat 3) (Key.label key_ACG) <> digits (Z.to_nat 3) (Key.label 5505024) /\
  Key.lcp key_ACG 5505024 3
  = Ok (common_prefix (digits (Z.to_nat 3) (Key.label key_ACG))
                      (digits (Z.to_nat 3) (Key.label 5505024))) /\
  Key.lcp 5505024 key_ACG 3 = Key.lcp key_ACG 5505024 3 /\
  0 <= common_prefix (digits (Z.to_nat 3) (Key.label key_ACG))
                     (digits (Z.to_nat 3) (Key.label 5505024)) < 3.
Proof.
  assert (H1 : 0 <= 3 <= 16) by lia.
  assert (H2 : digits (Z.to_nat 3) (Key.label key_ACG)
               <> digits (Z.to_nat 3) (Key.label 5505024))
    by (vm_compute; congruence).
  split; [exact H1 |]. split; [exact H2 |].
  exact (Key_lcp_of_distinct_kmers key_ACG 5505024 3 H1 H2).
Defined.

(** ** Path nodes: the packed fields and the degree counters *)

Lemma testbit_small (v w i : Z) :
  0 <= v < 2 ^ w -> w <= i -> Z.testbit v i = false.
Proof.
  intros Hv Hi. destruct (Z.eq_dec v 0) as [-> | Hv0]; [apply Z.bits_0 |].
  apply Z.bits_above_log2; [lia |].
  assert (0 <= w).
  { destruct (Z.lt_ge_cases w 0) as [Hneg | Hpos]; [| exact Hpos].
    rewrite Z.pow_neg_r in Hv by lia. lia. }
  apply Z.lt_le_trans with w; [| exact Hi].
  apply Z.log2_lt_pow2; lia.
Qed.

(** Writing [v] into the field of [w] bits at bit [lo], then reading it. *)
Lemma field_write_read (f lo w v : Z) :
  0 <= lo -> 0 <= w -> lo + w <= 64 -> 0 <= v < 2 ^ w ->
  Z.land (Z.shiftr (Z.lor (Z.land f (Z.lxor (Z.ones 64) (Z.shiftl (Z.ones w) lo)))
                          (Z.shiftl v lo)) lo) (Z.ones w) = v.
Proof.
  intros Hlo Hw Hfit Hv. apply Z.bits_inj'. intros i Hi.
  rewrite Z.land_spec, Z.shiftr_spec, Z.lor_spec, Z.land_spec, Z.lxor_spec by lia.
  rewrite !Z.shiftl_spec by lia.
  replace (i + lo - lo) with i by lia.
  rewrite !Z.testbit_ones_nonneg by lia.
  destruct (Z.ltb_spec i w) as [Hlt | Hge].
  - destruct (Z.ltb_spec (i + lo) 64); [| lia]. cbn [xorb].
    rewrite andb_false_r, andb_true_r. reflexivity.
  - rewrite andb_false_r. symmetry. eapply testbit_small; eauto.
Qed.

(** Writing into one field leaves a field that does not overlap it alone. *)
Lemma field_write_other (f lo w v lo' w' : Z) :
  0 <= lo -> 0 <= w -> 0 <= v < 2 ^ w ->
  0 <= lo' -> 0 <= w' -> lo' + w' <= 64 ->
  lo' + w' <= lo \/ lo + w <= lo' ->
  Z.land (Z.shiftr (Z.lor (Z.land f (Z.lxor (Z.ones 64) (Z.shiftl (Z.ones w) lo)))
                          (Z.shiftl v lo)) lo') (Z.ones w')
  = Z.land (Z.shiftr f lo') (Z.ones w').
Proof.
  intros Hlo Hw Hv Hlo' Hw' Hfit Hdisj. apply Z.bits_inj'. intros i Hi.
  rewrite !Z.land_spec, !Z.shiftr_spec, Z.lor_spec, Z.land_spec, Z.lxor_spec by lia.
  rewrite !Z.shiftl_spec by lia.
  rewrite (Z.testbit_ones_nonneg w') by lia.
  destruct (Z.ltb_spec i w') as [Hlt | Hge]; [| rewrite !andb_false_r; reflexivity].
  rewrite !andb_true_r.
  rewrite (Z.testbit_ones_nonneg 64) by lia.
  destruct (Z.ltb_spec (i + lo') 64); [| lia].
  assert (Hmask : Z.testbit (Z.ones w) (i + lo' - lo) = false).
  { rewrite Z.testbit_ones by lia.
    destruct (Z.leb_spec 0 (i + lo' - lo)); [| reflexivity].
    destruct (Z.ltb_spec (i + lo' - lo) w); [lia | reflexivity]. }
  assert (Hval : Z.testbit v (i + lo' - lo) = false).
  { destruct (Z.lt_ge_cases (i + lo' - lo) 0) as [Hneg | Hpos].
    - apply Z.testbit_neg_r. exact Hneg.
    - eapply testbit_small; [exact Hv | lia]. }
  rewrite Hmask, Hval. cbn [xorb]. rewrite andb_true_r, orb_false_r. reflexivity.
Qed.

Lemma shl64_field (v lo w : Z) :
  0 <= lo -> 0 <= w -> lo + w <= 64 -> 0 <= v < 2 ^ w ->
  shl64 v lo = Z.shiftl v lo.
Proof.
  intros Hlo Hw Hfit Hv. rewrite shl64_small; try lia.
  - symmetry. apply Z.shiftl_mul_pow2. lia.
  - apply Z.lt_le_trans with (2 ^ w * 2 ^ lo).
    + apply Z.mul_lt_mono_pos_r; [apply Z.pow_pos_nonneg; lia | lia].
    + rewrite <- Z.pow_add_r by lia. apply Z.pow_le_mono_r; lia.
Qed.

(** X8: the order, the LCP and the predecessor mask are separate fields of
    [fields]: each setter, given a value that fits its field, makes its own
    getter return that value and leaves the other two getters unchanged. *)
Theorem PathNode_fields_separate (pn : PathNode.t) (v p : Z) :
  0 <= v < 16 -> 0 <= p < 256 ->
  (PathNode.order (PathNode.setOrder pn v) = v /\
   PathNode.lcp (PathNode.setOrder pn v) = PathNode.lcp pn /\
   PathNode.predecessors (PathNode.setOrder pn v) = PathNode.predecessors pn) /\
  (PathNode.lcp (PathNode.setLCP pn v) = v /\
   PathNode.order (PathNode.setLCP pn v) = PathNode.order pn /\
   PathNode.predecessors (PathNode.setLCP pn v) = PathNode.predecessors pn) /\
  (PathNode.predecessors (PathNode.setPredecessors pn p) = p /\
   PathNode.order (PathNode.setPredecessors pn p) = PathNode.order pn /\
   PathNode.lcp (PathNode.setPredecessors pn p) = PathNode.lcp pn).
Proof.
  intros Hv Hp.
  unfold PathNode.order, PathNode.lcp, PathNode.predecessors,
    PathNode.setOrder, PathNode.setLCP, PathNode.setPredecessors, shr64.
  cbn [PathNode.fields].
  change (2 ^ 64 - 1) with (Z.ones 64).
  change 3840 with (Z.shiftl (Z.ones 4) 8).
  change 61440 with (Z.shiftl (Z.ones 4) 12).
  change 15 with (Z.ones 4).
  change (Z.lxor (Z.ones 64) 255) with (Z.lxor (Z.ones 64) (Z.shiftl (Z.ones 8) 0)).
  change 255 with (Z.ones 8).
  assert (H16 : 0 <= v < 2 ^ 4) by (change (2 ^ 4) with 16; exact Hv).
  assert (H256 : 0 <= p < 2 ^ 8) by (change (2 ^ 8) with 256; exact Hp).
  rewrite (shl64_field v 8 4), (shl64_field v 12 4) by lia.
  set (f := PathNode.fields pn).
  split; [| split]; (split; [| split]).
  - apply field_write_read; lia.
  - apply (field_write_other _ 8 4 v 12 4); lia.
  - pose proof (field_write_other f 8 4 v 0 8) as H.
    rewrite !Z.shiftr_0_r in H. apply H; lia.
  - apply field_write_read; lia.
  - apply (field_write_other _ 12 4 v 8 4); lia.
  - pose proof (field_write_other f 12 4 v 0 8) as H.
    rewrite !Z.shiftr_0_r in H. apply H; lia.
  - pose proof (field_write_read f 0 8 p) as H.
    rewrite Z.shiftr_0_r, Z.shiftl_0_r in H. apply H; lia.
  - pose proof (field_write_other f 0 8 p 8 4) as H.
    rewrite Z.shiftl_0_r in H. apply H; lia.
  - pose proof (field_write_other f 0 8 p 12 4) as H.
    rewrite Z.shiftl_0_r in H. apply H; lia.
Qed.

Lemma PathNode_fields_separate_witness :
  0 <= 3 < 16 /\ 0 <= 5 < 256 /\
  (PathNode.order (PathNode.setOrder node_b 3) = 3 /\
   PathNode.lcp (PathNode.setOrder node_b 3) = PathNode.lcp node_b /\
   PathNode.predecessors (PathNode.setOrder node_b 3) = PathNode.predecessors node_b) /\
  (PathNode.lcp (PathNode.setLCP node_b 3) = 3 /\
   PathNode.order (PathNode.setLCP node_b 3) = PathNode.order node_b /\
   PathNode.predecessors (PathNode.setLCP node_b 3) = PathNode.predecessors node_b) /\
  (PathNode.predecessors (PathNode.setPredecessors node_b 5) = 5 /\
   PathNode.order (PathNode.setPredecessors node_b 5) = PathNode.order node_b /\
   PathNode.lcp (PathNode.setPredecessors node_b 5) = PathNode.lcp node_b).
Proof.
  assert (H1 : 0 <= 3 < 16) by lia.
  assert (H2 : 0 <= 5 < 256) by lia.
  split; [exact H1 |]. split; [exact H2 |].
  exact (PathNode_fields_separate node_b 3 5 H1 H2).
Defined.

Lemma land_one_bit (f c : Z) :
  0 <= c -> (Z.land f (Z.shiftl 1 c) =? 0) = negb (Z.testbit f c).
Proof.
  intros Hc. rewrite Z.shiftl_1_l.
  destruct (Z.testbit f c) eqn:Hbit; cbn [negb].
  - apply Z.eqb_neq. intros Hz.
    assert (Hb : Z.testbit (Z.land f (2 ^ c)) c = true).
    { rewrite Z.land_spec, Hbit, Z.pow2_bits_eqb, Z.eqb_refl by lia. reflexivity. }
    rewrite Hz, Z.bits_0 in Hb. discriminate.
  - apply Z.eqb_eq. apply Z.bits_inj'. intros i Hi.
    rewrite Z.land_spec, Z.bits_0, Z.pow2_bits_eqb by lia.
    destruct (Z.eqb_spec c i) as [<- | Hne].
    + rewrite Hbit. reflexivity.
    + apply andb_false_r.
Qed.

(** X9: [addPredecessors] ORs the other node's predecessor mask into this
    one's and leaves order and LCP alone; for a comp value below 8,
    [hasPredecessor] tells whether its bit is set in the mask. *)
Theorem PathNode_predecessor_mask (pn another : PathNode.t) (comp : Z) :
  0 <= comp < 8 ->
  PathNode.predecessors (PathNode.addPredecessors pn another)
  = Z.lor (PathNode.predecessors pn) (PathNode.predecessors another) /\
  PathNode.order (PathNode.addPredecessors pn another) = PathNode.order pn /\
  PathNode.lcp (PathNode.addPredecessors pn another) = PathNode.lcp pn /\
  PathNode.hasPredecessor pn comp
  = Ok (Z.testbit (PathNode.predecessors pn) comp) /\
  PathNode.hasPredecessor (PathNode.addPredecessors pn another) comp
  = Ok (Z.testbit (PathNode.predecessors pn) comp
        || Z.testbit (PathNode.predecessors another) comp).
Proof.
  intros Hc.
  assert (Hhas : forall q, PathNode.hasPredecessor q comp
                           = Ok (Z.testbit (PathNode.predecessors q) comp)).
  { intros q. unfold PathNode.hasPredecessor, PathNode.predecessors.
    destruct (Z.ltb_spec comp 31); [| lia].
    rewrite land_one_bit by lia. rewrite negb_involutive.
    change 255 with (Z.ones 8).
    rewrite Z.land_spec, Z.testbit_ones_nonneg by lia.
    destruct (Z.ltb_spec comp 8); [| lia]. rewrite andb_true_r. reflexivity. }
  assert (Hadd : PathNode.predecessors (PathNode.addPredecessors pn another)
                 = Z.lor (PathNode.predecessors pn) (PathNode.predecessors another)).
  { unfold PathNode.addPredecessors, PathNode.predecessors. cbn [PathNode.fields].
    rewrite Z.land_lor_distr_l, <- Z.land_assoc.
    change (Z.land 255 255) with 255. reflexivity. }
  split; [exact Hadd |].
  unfold PathNode.order, PathNode.lcp, shr64.
  unfold PathNode.addPredecessors at 1 2. cbn [PathNode.fields].
  unfold PathNode.predecessors at 1 2.
  rewrite !Z.shiftr_lor, !Z.shiftr_land.
  change (Z.shiftr 255 8) with 0. change (Z.shiftr 255 12) with 0.
  rewrite !Z.land_0_r, !Z.lor_0_r.
  split; [reflexivity |]. split; [reflexivity |].
  split; [apply Hhas |].
  rewrite Hhas, Hadd, Z.lor_spec. reflexivity.
Qed.

Lemma PathNode_predecessor_mask_witness :
  0 <= 4 < 8 /\
  PathNode.predecessors (PathNode.addPredecessors node_a node_b)
  = Z.lor (PathNode.predecessors node_a) (PathNode.predecessors node_b) /\
  PathNode.order (PathNode.addPredecessors node_a node_b) = PathNode.order node_a /\
  PathNode.lcp (PathNode.addPredecessors node_a node_b) = PathNode.lcp node_a /\
  PathNode.hasPredecessor node_a 4
  = Ok (Z.testbit (PathNode.predecessors node_a) 4) /\
  PathNode.hasPredecessor (PathNode.addPredecessors node_a node_b) 4
  = Ok (Z.testbit (PathNode.predecessors node_a) 4
        || Z.testbit (PathNode.predecessors node_b) 4).
Proof.
  assert (H : 0 <= 4 < 8) by lia.
  split; [exact H |]. exact (PathNode_predecessor_mask node_a node_b 4 H).
Defined.

(** The [to] word after a run of counting steps. *)
Lemma degree_steps_to (steps : list PathNode.degree_step) (pn : PathNode.t) :
  wrap64 (PathNode.to (fold_left PathNode.count_step steps pn))
  = wrap64 (PathNode.to pn + degree_outs steps + degree_ins steps * 2 ^ 32).
Proof.
  revert pn. induction steps as [| s steps IH]; intros pn.
  - cbn [fold_left]. unfold degree_outs, degree_ins. cbn. f_equal. lia.
  - cbn [fold_left]. rewrite IH.
    assert (Hcons : degree_outs (s :: steps) + degree_ins (s :: steps) * 2 ^ 32
                    = (match s with PathNode.Out => 1 | PathNode.In => 2 ^ 32 end)
                      + (degree_outs steps + degree_ins steps * 2 ^ 32)).
    { unfold degree_outs, degree_ins. destruct s; cbn [List.filter length]; lia. }
    rewrite <- (Z.add_assoc (PathNode.to pn)), Hcons.
    rewrite <- Z.add_assoc.
    destruct s; cbn [PathNode.count_step PathNode.incrementOutdegree
                       PathNode.incrementIndegree PathNode.to];
      unfold wrap64 at 2; unfold wrap64;
      rewrite Z.add_mod_idemp_l by lia; f_equal.
    + lia.
    + change (shl64 1 32) with (2 ^ 32). lia.
Qed.

Lemma degree_steps_range (steps : list PathNode.degree_step) (pn : PathNode.t) :
  is_u64 (PathNode.to pn) ->
  is_u64 (PathNode.to (fold_left PathNode.count_step steps pn)).
Proof.
  revert pn. induction steps as [| s steps IH]; intros pn Hpn; [exact Hpn |].
  cbn [fold_left]. apply IH.
  destruct s; cbn [PathNode.count_step PathNode.incrementOutdegree
                     PathNode.incrementIndegree PathNode.to];
    unfold is_u64, wrap64; apply Z.mod_pos_bound; lia.
Qed.

(** X10: after [initDegree], any run of [incrementOutdegree] and
    [incrementIndegree] calls, in any order, leaves the number of outgoing
    edges in [outdegree] and the number of incoming edges in [indegree], as
    long as both numbers are below 2^32. *)
Theorem PathNode_degree_counters (pn : PathNode.t) (steps : list PathNode.degree_step) :
  degree_outs steps < 2 ^ 32 -> degree_ins steps < 2 ^ 32 ->
  PathNode.outdegree (fold_left PathNode.count_step steps (PathNode.initDegree pn))
  = degree_outs steps /\
  PathNode.indegree (fold_left PathNode.count_step steps (PathNode.initDegree pn))
  = degree_ins steps.
Proof.
  intros Ho Hi.
  assert (Ho0 : 0 <= degree_outs steps) by (unfold degree_outs; lia).
  assert (Hi0 : 0 <= degree_ins steps) by (unfold degree_ins; lia).
  assert (Hto : PathNode.to (fold_left PathNode.count_step steps (PathNode.initDegree pn))
                = degree_outs steps + degree_ins steps * 2 ^ 32).
  { pose proof (degree_steps_range steps (PathNode.initDegree pn)
                  ltac:(unfold is_u64; cbn; lia)) as Hr.
    rewrite <- (wrap64_small _ Hr). rewrite degree_steps_to.
    cbn [PathNode.initDegree PathNode.to]. rewrite Z.add_0_l. apply wrap64_small.
    change (2 ^ 64) with (2 ^ 32 * 2 ^ 32). nia. }
  unfold PathNode.outdegree, PathNode.indegree. rewrite Hto.
  change 4294967295 with (2 ^ 32 - 1). rewrite land_ones_mod by lia.
  rewrite shr64_div by lia. split.
  - rewrite Z.mod_add by lia. apply Z.mod_small. lia.
  - rewrite Z.div_add by lia. rewrite Z.div_small by lia. lia.
Qed.

Lemma PathNode_degree_counters_witness :
  degree_outs [PathNode.Out; PathNode.In; PathNode.Out] < 2 ^ 32 /\
  degree_ins [PathNode.Out; PathNode.In; PathNode.Out] < 2 ^ 32 /\
  PathNode.outdegree (fold_left PathNode.count_step
                        [PathNode.Out; PathNode.In; PathNode.Out]
                        (PathNode.initDegree node_a))
  = degree_outs [PathNode.Out; PathNode.In; PathNode.Out] /\
  PathNode.indegree (fold_left PathNode.count_step
                       [PathNode.Out; PathNode.In; PathNode.Out]
                       (PathNode.initDegree node_a))
  = degree_ins [PathNode.Out; PathNode.In; PathNode.Out].
Proof.
  assert (H1 : degree_outs [PathNode.Out; PathNode.In; PathNode.Out] < 2 ^ 32) by reflexivity.
  assert (H2 : degree_ins [PathNode.Out; PathNode.In; PathNode.Out] < 2 ^ 32) by reflexivity.
  split; [exact H1 |]. split; [exact H2 |].
  exact (PathNode_degree_counters node_a _ H1 H2).
Defined.

(** An outdegree that passes 2^32 - 1 carries into the indegree. *)
Example outdegree_carry :
  let pn := PathNode.mk 0 4294967295 [] [] 0 in
  PathNode.outdegree (PathNode.incrementOutdegree pn) = 0 /\
  PathNode.indegree (PathNode.incrementOutdegree pn) = 1.
Proof. split; reflexivity. Qed.

Lemma lex_lt_last_irrefl x : lex_lt_last x x = false.
Proof.
  induction x as [| a x IH]; [reflexivity |].
  cbn [lex_lt_last]. rewrite Z.eqb_refl. exact IH.
Qed.

Lemma lex_lt_last_trans x y z :
  lex_lt_last x y = true -> lex_lt_last y z = true -> lex_lt_last x z = true.
Proof.
  revert y z. induction x as [| a x IH]; intros [| b y] [| c z]; cbn [lex_lt_last];
    try congruence.
  destruct (Z.eqb_spec a b) as [-> | Hab]; destruct (Z.eqb_spec b c) as [-> | Hbc].
  - apply IH.
  - intros _ H. exact H.
  - rewrite (proj2 (Z.eqb_neq a c)) by congruence. intros H _. exact H.
  - intros H1 H2. apply Z.ltb_lt in H1, H2.
    destruct (Z.eqb_spec a c) as [-> | Hac]; [lia |]. apply Z.ltb_lt. lia.
Qed.

Lemma lex_lt_last_total x y :
  x <> y -> lex_lt_last x y = true \/ lex_lt_last y x = true.
Proof.
  revert y. induction x as [| a x IH]; intros [| b y] Hne; cbn [lex_lt_last];
    try tauto.
  destruct (Z.eqb_spec a b) as [-> | Hab].
  - rewrite Z.eqb_refl. apply IH. congruence.
  - rewrite (proj2 (Z.eqb_neq b a)) by congruence.
    destruct (Z.ltb_spec a b); [left; reflexivity | right; apply Z.ltb_lt; lia].
Qed.

(** X11: on path nodes with orders in [1, 8], [compareLast] is a strict
    order of the last label sequences: irreflexive, transitive, and deciding
    any two nodes whose last label sequences differ. *)
Theorem PathNode_compareLast_strict_order (a b c : PathNode.t) :
  PathNode.wf a -> PathNode.wf b -> PathNode.wf c ->
  PathNode.compareLast a a = Ok false /\
  (PathNode.compareLast a b = Ok true -> PathNode.compareLast b c = Ok true ->
   PathNode.compareLast a c = Ok true) /\
  (PathNode.compareLast a b = Ok true -> PathNode.compareLast b a = Ok false) /\
  (PathNode.last_seq a <> PathNode.last_seq b ->
   PathNode.compareLast a b = Ok true \/ PathNode.compareLast b a = Ok true).
Proof.
  intros Ha Hb Hc.
  rewrite !PathNode_compareLast_lex by assumption.
  split; [| split; [| split]].
  - f_equal. apply lex_lt_last_irrefl.
  - intros H1 H2. injection H1 as H1'. injection H2 as H2'.
    f_equal. eapply lex_lt_last_trans; eassumption.
  - intros H1. injection H1 as H1'. f_equal.
    destruct (lex_lt_last (PathNode.last_seq b) (PathNode.last_seq a)) eqn:H2;
      [| reflexivity].
    pose proof (lex_lt_last_trans _ _ _ H1' H2) as Hcyc.
    rewrite lex_lt_last_irrefl in Hcyc. discriminate.
  - intros Hne. destruct (lex_lt_last_total _ _ Hne) as [H | H]; rewrite H; auto.
Qed.

Lemma PathNode_compareLast_strict_order_witness :
  PathNode.wf node_b /\ PathNode.wf node_a /\ PathNode.wf node_c /\
  PathNode.compareLast node_b node_b = Ok false /\
  (PathNode.compareLast node_b node_a = Ok true ->
   PathNode.compareLast node_a node_c = Ok true ->
   PathNode.compareLast node_b node_c = Ok true) /\
  (PathNode.compareLast node_b node_a = Ok true ->
   PathNode.compareLast node_a node_b = Ok false) /\
  (PathNode.last_seq node_b <> PathNode.last_seq node_a ->
   PathNode.compareLast node_b node_a = Ok true \/
   PathNode.compareLast node_a node_b = Ok true).
Proof.
  assert (Ha : PathNode.wf node_a) by (unfold PathNode.wf; vm_compute; intuition congruence).
  assert (Hb : PathNode.wf node_b) by (unfold PathNode.wf; vm_compute; intuition congruence).
  assert (Hc : PathNode.wf node_c) by (unfold PathNode.wf; vm_compute; intuition congruence).
  split; [exact Hb |]. split; [exact Ha |]. split; [exact Hc |].
  exact (PathNode_compareLast_strict_order node_b node_a node_c Hb Ha Hc).
Defined.

(** ** LCP support: incrementing an LCP value, widening by threshold *)

(** X12: [LCP::increment] adds one character to an LCP value (x, y) read as
    [x * kmer_length + y]: the second part stays below [kmer_length] and the
    value grows by exactly one. *)
Theorem LCP_increment_adds_one (s : LCP.t) (x y : Z) :
  0 < LCP.kmer_length s < 2 ^ 64 ->
  0 <= x < 2 ^ 64 - 1 -> 0 <= y < LCP.kmer_length s ->
  (LCP.increment s (x, y)).1 * LCP.kmer_length s + (LCP.increment s (x, y)).2
  = x * LCP.kmer_length s + y + 1 /\
  0 <= (LCP.increment s (x, y)).2 < LCP.kmer_length s.
Proof.
  intros Hk Hx Hy. unfold LCP.increment. cbn [fst snd].
  rewrite (wrap64_small (y + 1)) by lia.
  destruct (Z.ltb_spec (y + 1) (LCP.kmer_length s)) as [Hlt | Hge]; cbn [fst snd].
  - lia.
  - rewrite wrap64_small by lia. assert (y + 1 = LCP.kmer_length s) by lia. nia.
Qed.

Lemma LCP_increment_adds_one_witness :
  0 < LCP.kmer_length lcp_small < 2 ^ 64 /\
  0 <= 1 < 2 ^ 64 - 1 /\ 0 <= 2 < LCP.kmer_length lcp_small /\
  (LCP.increment lcp_small (1, 2)).1 * LCP.kmer_length lcp_small
  + (LCP.increment lcp_small (1, 2)).2
  = 1 * LCP.kmer_length lcp_small + 2 + 1 /\
  0 <= (LCP.increment lcp_small (1, 2)).2 < LCP.kmer_length lcp_small.
Proof.
  assert (H1 : 0 < LCP.kmer_length lcp_small < 2 ^ 64) by (cbn; lia).
  assert (H2 : 0 <= 1 < 2 ^ 64 - 1) by lia.
  assert (H3 : 0 <= 2 < LCP.kmer_length lcp_small) by (cbn; lia).
  split; [exact H1 |]. split; [exact H2 |]. split; [exact H3 |].
  exact (LCP_increment_adds_one lcp_small 1 2 H1 H2 H3).
Defined.

Lemma entry_ge_mono (s : LCP.t) (l1 l2 j : Z) :
  l1 <= l2 -> LCP.entry_ge s l2 j -> LCP.entry_ge s l1 j.
Proof. intros Hl (v & Hv & Hle). exists v. split; [exact Hv | lia]. Qed.

(** X13: with fewer than 2^32 keys, a higher threshold gives a narrower
    range: the result of [extendRange] for a threshold lies within its
    result for any lower threshold. *)
Theorem extendRange_threshold_monotone (s : LCP.t) (lo hi l1 l2 : Z) (fuel : nat) :
  LCP.wf s -> LCP.total_keys s < 2 ^ 32 ->
  0 <= lo -> lo <= hi -> hi < LCP.total_keys s ->
  (Z.to_nat (LCP.total_keys s) <= fuel)%nat ->
  l1 <= l2 ->
  exists a1 b1 a2 b2,
    LCP.extendRange fuel s (lo, hi) l1 = Ok (a1, b1) /\
    LCP.extendRange fuel s (lo, hi) l2 = Ok (a2, b2) /\
    a1 <= a2 /\ a2 <= lo /\ hi <= b2 /\ b2 <= b1.
Proof.
  intros Hwf Ht Hlo Hlh Hhi Hfuel Hl.
  destruct (extend_first_spec s l1 fuel lo Hwf ltac:(lia) ltac:(lia) ltac:(lia))
    as (a1 & Ha1 & Ha1r & Ha1all & Ha1stop).
  destruct (extend_second_spec s l1 fuel hi Hwf Ht ltac:(lia) ltac:(lia))
    as (b1 & Hb1 & Hb1r & Hb1all & Hb1stop).
  destruct (extend_first_spec s l2 fuel lo Hwf ltac:(lia) ltac:(lia) ltac:(lia))
    as (a2 & Ha2 & Ha2r & Ha2all & Ha2stop).
  destruct (extend_second_spec s l2 fuel hi Hwf Ht ltac:(lia) ltac:(lia))
    as (b2 & Hb2 & Hb2r & Hb2all & Hb2stop).
  exists a1, b1, a2, b2. unfold LCP.extendRange. cbn [fst snd].
  rewrite Ha1, Hb1, Ha2, Hb2. cbn [mbind res_bind].
  split; [reflexivity |]. split; [reflexivity |].
  split; [| split; [lia | split; [lia |]]].
  - destruct (Z.le_gt_cases a1 a2) as [Hle | Hgt]; [exact Hle |].
    destruct Ha1stop as [-> | Hstop]; [lia |].
    exfalso. apply Hstop. apply (entry_ge_mono s l1 l2 a1 Hl). apply Ha2all. lia.
  - destruct (Z.le_gt_cases b2 b1) as [Hle | Hgt]; [exact Hle |].
    destruct Hb1stop as [Heq | Hstop]; [lia |].
    exfalso. apply Hstop. apply (entry_ge_mono s l1 l2 (b1 + 1) Hl). apply Hb2all. lia.
Qed.

Lemma extendRange_threshold_monotone_witness :
  LCP.wf lcp_small /\ LCP.total_keys lcp_small < 2 ^ 32 /\
  0 <= 1 /\ 1 <= 1 /\ 1 < LCP.total_keys lcp_small /\
  (Z.to_nat (LCP.total_keys lcp_small) <= 3)%nat /\
  1 <= 2 /\
  exists a1 b1 a2 b2,
    LCP.extendRange 3 lcp_small (1, 1) 1 = Ok (a1, b1) /\
    LCP.extendRange 3 lcp_small (1, 1) 2 = Ok (a2, b2) /\
    a1 <= a2 /\ a2 <= 1 /\ 1 <= b2 /\ b2 <= b1.
Proof.
  assert (H1 : LCP.wf lcp_small) by reflexivity.
  assert (H2 : LCP.total_keys lcp_small < 2 ^ 32) by reflexivity.
  assert (H3 : 0 <= 1) by lia.
  assert (H4 : 1 <= 1) by lia.
  assert (H5 : 1 < LCP.total_keys lcp_small) by reflexivity.
  assert (H6 : (Z.to_nat (LCP.total_keys lcp_small) <= 3)%nat) by (simpl; lia).
  assert (H7 : 1 <= 2) by lia.
  split; [exact H1 |]. split; [exact H2 |]. split; [exact H3 |].
  split; [exact H4 |]. split; [exact H5 |]. split; [exact H6 |]. split; [exact H7 |].
  exact (extendRange_threshold_monotone lcp_small 1 1 1 2 3 H1 H2 H3 H4 H5 H6 H7).
Defined.

(** ** Alphabet: cumulative counts *)

(** Equations between 64-bit values cut by [wrap64]. *)
Ltac wrap64_lia :=
  unfold wrap64 in *; change (2 ^ 64) with 18446744073709551616 in *;
  Z.div_mod_to_equations; lia.

Lemma prefix_sums_length (counts : list Z) (s : Z) :
  length (AlphabetBuild.prefix_sums counts s) = length counts.
Proof.
  revert s. induction counts as [| t rest IH]; intros s; [reflexivity |].
  cbn [AlphabetBuild.prefix_sums length]. rewrite IH. reflexivity.
Qed.

Lemma prefix_sums_u64 (counts : list Z) (s : Z) (i : nat) (x : Z) :
  is_u64 s -> AlphabetBuild.prefix_sums counts s !! i = Some x -> is_u64 x.
Proof.
  revert s i. induction counts as [| t rest IH]; intros s i Hs Hx; [discriminate |].
  destruct i as [| i]; cbn in Hx.
  - injection Hx as <-. exact Hs.
  - eapply IH; [| exact Hx]. unfold is_u64, wrap64. apply Z.mod_pos_bound. lia.
Qed.

(** Starting the running sum [d] higher moves every cumulative count by [d],
    modulo 2^64. *)
Lemma prefix_sums_shift (counts : list Z) (s s' d : Z) (i : nat) (x : Z) :
  wrap64 s' = wrap64 (s + d) ->
  AlphabetBuild.prefix_sums counts s !! i = Some x ->
  exists y, AlphabetBuild.prefix_sums counts s' !! i = Some y /\
            wrap64 y = wrap64 (x + d).
Proof.
  revert s s' i. induction counts as [| t rest IH]; intros s s' i Hs Hx; [discriminate |].
  destruct i as [| i]; cbn in Hx |- *.
  - injection Hx as <-. exists s'. auto.
  - eapply IH; [| exact Hx]. clear -Hs. wrap64_lia.
Qed.

(** Counting one more occurrence of comp value [c] raises the cumulative
    counts after [c] by one, modulo 2^64. *)
Lemma prefix_sums_insert (counts : list Z) (s : Z) (c i : nat) (v x : Z) :
  counts !! c = Some v ->
  AlphabetBuild.prefix_sums counts s !! i = Some x ->
  exists y, AlphabetBuild.prefix_sums (<[c := wrap64 (v + 1)]> counts) s !! i = Some y /\
            wrap64 y = wrap64 (x + (if (c <? i)%nat then 1 else 0)).
Proof.
  revert s c i. induction counts as [| t rest IH]; intros s c i Hv Hx; [discriminate |].
  destruct c as [| c]; destruct i as [| i]; cbn in Hv, Hx |- *.
  - injection Hx as <-. exists s. split; [reflexivity | f_equal; lia].
  - injection Hv as ->.
    eapply prefix_sums_shift; [| exact Hx].
    clear. wrap64_lia.
  - injection Hx as <-. exists s. split; [reflexivity | f_equal; lia].
  - destruct (IH (wrap64 (s + t)) c i Hv Hx) as (y & Hy & Hw).
    exists y. split; [exact Hy |]. exact Hw.
Qed.

Lemma comps_below_cons (c2c : list Z) (b : Z) (rest : list Z) (i : Z) :
  AlphabetBuild.comps_below c2c (b :: rest) i
  = (if AlphabetBuild.is_below c2c i b then 1 else 0)
    + AlphabetBuild.comps_below c2c rest i.
Proof.
  unfold AlphabetBuild.comps_below.
  destruct (AlphabetBuild.is_below c2c i b) eqn:Hb.
  - rewrite filter_cons_True by exact Hb. cbn [length]. lia.
  - rewrite filter_cons_False by congruence. lia.
Qed.

Lemma comps_below_range (c2c sequence : list Z) (i : Z) :
  0 <= AlphabetBuild.comps_below c2c sequence i <= Z.of_nat (length sequence).
Proof.
  unfold AlphabetBuild.comps_below. pose proof (length_filter
    (fun b => AlphabetBuild.is_below c2c i b = true) sequence). lia.
Qed.

(** The counting loop, seen through the cumulative counts. *)
Lemma count_loop_cumulative (c2c sequence counts : list Z) :
  (forall b, b ∈ sequence ->
     exists c, AlphabetBuild.comp_of c2c b = Some c /\
               0 <= c < Z.of_nat (length counts)) ->
  exists counts',
    AlphabetBuild.count_loop sequence c2c counts = Ok counts' /\
    length counts' = length counts /\
    forall (i : nat) x,
      AlphabetBuild.prefix_sums counts 0 !! i = Some x ->
      exists y, AlphabetBuild.prefix_sums counts' 0 !! i = Some y /\
                wrap64 y = wrap64 (x + AlphabetBuild.comps_below c2c sequence (Z.of_nat i)).
Proof.
  revert counts. induction sequence as [| b rest IH]; intros counts Hall.
  - exists counts. split; [reflexivity |]. split; [reflexivity |].
    intros i x Hx. exists x. split; [exact Hx |].
    unfold AlphabetBuild.comps_below. cbn. f_equal. lia.
  - destruct (Hall b ltac:(apply elem_of_cons; left; reflexivity)) as (c & Hc & Hcr).
    assert (Hlk : 0 <= b /\ c2c !! Z.to_nat b = Some c).
    { unfold AlphabetBuild.comp_of in Hc.
      destruct (Z.ltb_spec b 0); [discriminate | split; [lia | exact Hc]]. }
    destruct (lookup_lt_is_Some_2 counts (Z.to_nat c) ltac:(lia)) as [v Hv].
    cbn [AlphabetBuild.count_loop].
    rewrite (at_index_lookup c2c b c) by tauto. cbn [mbind res_bind].
    rewrite (at_index_lookup counts c v) by (auto; lia). cbn [mbind res_bind].
    destruct (IH (<[Z.to_nat c := wrap64 (v + 1)]> counts)) as (counts' & Hrun & Hlen & Hcum).
    { intros b' Hb'. rewrite length_insert.
      apply Hall. apply elem_of_cons. right. exact Hb'. }
    exists counts'. split; [exact Hrun |].
    split; [rewrite Hlen; apply length_insert |].
    intros i x Hx.
    destruct (prefix_sums_insert counts 0 (Z.to_nat c) i v x Hv Hx) as (y1 & Hy1 & Hw1).
    destruct (Hcum i y1 Hy1) as (y & Hy & Hw).
    exists y. split; [exact Hy |]. rewrite Hw.
    rewrite comps_below_cons. unfold AlphabetBuild.is_below. rewrite Hc.
    assert (Hsame : (if (Z.to_nat c <? i)%nat then 1 else 0)
                    = (if c <? Z.of_nat i then 1 else 0)).
    { destruct (Nat.ltb_spec (Z.to_nat c) i); destruct (Z.ltb_spec c (Z.of_nat i)); lia. }
    rewrite Hsame in Hw1.
    set (d := if c <? Z.of_nat i then 1 else 0) in *.
    set (r := AlphabetBuild.comps_below c2c rest (Z.of_nat i)) in *.
    clear -Hw1. wrap64_lia.
Qed.

Lemma prefix_sums_zeros (m i : nat) :
  (i < m)%nat -> AlphabetBuild.prefix_sums (replicate m 0) 0 !! i = Some 0.
Proof.
  revert i. induction m as [| m IH]; intros i Hi; [lia |].
  destruct i as [| i]; [reflexivity |].
  cbn. change (wrap64 (0 + 0)) with 0. apply IH. lia.
Qed.

(** X14: the alphabet built from a byte sequence has [sigma] the number of
    comp values and [sigma + 1] cumulative counts: when every byte has a comp
    value in [0, sigma], [C[i]] is the number of bytes of the sequence whose
    comp value is below [i], for every [i] up to [sigma]. *)
Theorem Alphabet_cumulative_counts (sequence c2c comp2c : list Z) :
  Z.of_nat (length sequence) < 2 ^ 64 ->
  (forall b, b ∈ sequence ->
     exists c, AlphabetBuild.comp_of c2c b = Some c /\
               0 <= c <= Z.of_nat (length comp2c)) ->
  exists alpha,
    AlphabetBuild.from_sequence sequence c2c comp2c = Ok alpha /\
    char2comp alpha = c2c /\ comp2char alpha = comp2c /\
    sigma alpha = Z.of_nat (length comp2c) /\
    Z.of_nat (length (C alpha)) = sigma alpha + 1 /\
    forall i, 0 <= i <= sigma alpha ->
      C alpha !! Z.to_nat i = Some (AlphabetBuild.comps_below c2c sequence i).
Proof.
  intros Hlen Hall. unfold AlphabetBuild.from_sequence.
  destruct (Z.eqb_spec (Z.of_nat (length sequence)) 0) as [Hempty | Hne].
  - eexists. split; [reflexivity |]. cbn [char2comp comp2char sigma C].
    repeat split; try reflexivity.
    + rewrite length_replicate. lia.
    + intros i Hi. destruct sequence; [| cbn in Hempty; lia].
      change (AlphabetBuild.comps_below c2c [] i) with 0.
      apply lookup_replicate_2. lia.
  - unfold AlphabetBuild.characterCounts. rewrite length_replicate.
    destruct (count_loop_cumulative c2c sequence (replicate (S (length comp2c)) 0))
      as (counts' & Hrun & Hl & Hcum).
    { intros b Hb. destruct (Hall b Hb) as (c & Hc & Hr).
      exists c. split; [exact Hc |]. rewrite length_replicate. lia. }
    rewrite Hrun. cbn [mbind res_bind].
    eexists. split; [reflexivity |]. cbn [char2comp comp2char sigma C].
    repeat split; try reflexivity.
    + rewrite prefix_sums_length, Hl, length_replicate. lia.
    + intros i Hi.
      destruct (Hcum (Z.to_nat i) 0 ltac:(apply prefix_sums_zeros; lia)) as (y & Hy & Hw).
      rewrite Hy. f_equal.
      pose proof (prefix_sums_u64 counts' 0 (Z.to_nat i) y
                    ltac:(unfold is_u64; lia) Hy) as Hu.
      rewrite Z2Nat.id, Z.add_0_l in Hw by lia.
      pose proof (comps_below_range c2c sequence i) as Hr.
      rewrite (wrap64_small y Hu) in Hw. rewrite wrap64_small in Hw by lia.
      exact Hw.
Qed.

Lemma Alphabet_cumulative_counts_witness :
  Z.of_nat (length [65; 67; 65; 36]) < 2 ^ 64 /\
  (forall b, b ∈ [65; 67; 65; 36] ->
     exists c, AlphabetBuild.comp_of dna_char2comp b = Some c /\
               0 <= c <= Z.of_nat (length [36; 65; 67; 71; 84])) /\
  exists alpha,
    AlphabetBuild.from_sequence [65; 67; 65; 36] dna_char2comp [36; 65; 67; 71; 84]
    = Ok alpha /\
    char2comp alpha = dna_char2comp /\ comp2char alpha = [36; 65; 67; 71; 84] /\
    sigma alpha = Z.of_nat (length [36; 65; 67; 71; 84]) /\
    Z.of_nat (length (C alpha)) = sigma alpha + 1 /\
    forall i, 0 <= i <= sigma alpha ->
      C alpha !! Z.to_nat i
      = Some (AlphabetBuild.comps_below dna_char2comp [65; 67; 65; 36] i).
Proof.
  assert (H1 : Z.of_nat (length [65; 67; 65; 36]) < 2 ^ 64) by (cbn; lia).
  assert (H2 : forall b, b ∈ [65; 67; 65; 36] ->
     exists c, AlphabetBuild.comp_of dna_char2comp b = Some c /\
               0 <= c <= Z.of_nat (length [36; 65; 67; 71; 84])).
  { intros b Hb.
    repeat (apply elem_of_cons in Hb as [-> | Hb];
            [eexists; split; [vm_compute; reflexivity | cbn; lia] |]).
    apply elem_of_nil in Hb. contradiction. }
  split; [exact H1 |]. split; [exact H2 |].
  exact (Alphabet_cumulative_counts [65; 67; 65; 36] dna_char2comp
           [36; 65; 67; 71; 84] H1 H2).
Defined.

Example Alphabet_counts_example :
  (a ← AlphabetBuild.from_sequence [65; 67; 65; 36] dna_char2comp [36; 65; 67; 71; 84];
   Ok (C a)) = Ok [0; 1; 3; 4; 4; 4].
Proof. vm_compute. reflexivity. Qed.

(** ** SLArray: the side table *)

Lemma slarray_increment_sparse (a a' : SLArray.t) (j : Z) :
  slarray_sparse a -> SLArray.increment a j = Ok a' -> slarray_sparse a'.
Proof.
  intros Hsp Hinc. unfold SLArray.increment in Hinc.
  destruct (at_index (SLArray.data a) j) as [d | |] eqn:Hd; try discriminate.
  apply at_index_Ok in Hd as [Hj Hd]. cbn [mbind res_bind] in Hinc.
  pose proof (lookup_lt_Some _ _ _ Hd) as Hlt.
  unfold SLArray.LARGE_VALUE in Hinc.
  destruct (Z.eqb_spec d 255) as [-> | Hsmall].
  - injection Hinc as <-. intros i v Hv. cbn [SLArray.data SLArray.large_values] in *.
    destruct (Z.eq_dec j i) as [<- | Hne].
    + split; [lia | exact Hd].
    + rewrite lookup_insert_ne in Hv by exact Hne. eapply Hsp. exact Hv.
  - assert (Hother : forall i v, i <> j ->
              SLArray.large_values a !! i = Some v ->
              0 <= i /\ <[Z.to_nat j := wrap8 (d + 1)]> (SLArray.data a) !! Z.to_nat i = Some 255).
    { intros i v Hne Hv. destruct (Hsp i v Hv) as [Hi Hdi].
      split; [exact Hi |]. rewrite list_lookup_insert_ne by lia. exact Hdi. }
    assert (Hnone : SLArray.large_values a !! j = None).
    { destruct (SLArray.large_values a !! j) as [v |] eqn:Hv; [| reflexivity].
      destruct (Hsp j v Hv) as [_ Hdj]. congruence. }
    destruct (Z.eqb_spec (wrap8 (d + 1)) 255) as [Hpromote | Hstay];
      injection Hinc as <-; intros i v Hv;
      cbn [SLArray.data SLArray.large_values] in *.
    + destruct (Z.eq_dec j i) as [<- | Hne].
      * split; [lia |]. rewrite Hpromote. apply list_lookup_insert_eq. exact Hlt.
      * rewrite lookup_insert_ne in Hv by exact Hne.
        apply (Hother i v); [congruence | exact Hv].
    + destruct (Z.eq_dec j i) as [<- | Hne]; [congruence |].
      apply (Hother i v); [congruence | exact Hv].
Qed.

Lemma slarray_run_sparse (calls : list Z) (a a' : SLArray.t) :
  slarray_sparse a -> SLArray.run a calls = Ok a' -> slarray_sparse a'.
Proof.
  revert a. induction calls as [| j calls IH]; intros a Hsp Hrun.
  - cbn in Hrun. injection Hrun as <-. exact Hsp.
  - cbn [SLArray.run] in Hrun.
    destruct (SLArray.increment a j) as [a1 | |] eqn:Hinc; try discriminate.
    cbn [mbind res_bind] in Hrun.
    eapply IH; [| exact Hrun]. eapply slarray_increment_sparse; eauto.
Qed.

(** X15: take an array of [n] counters whose slot [i] holds the count
    [c i], with no entry in [large_values] for a slot whose byte is not 255
    (as for [n] zero bytes and an empty map).  After any sequence of
    [increment] calls on slots below [n] the vector still has [n] bytes, and
    [large_values] has an entry for a key exactly when that key is a slot
    whose count has reached 255. *)
Theorem SLArray_large_values_keys (a : SLArray.t) (n : Z) (c : Z -> Z)
    (calls : list Z) :
  slarray_counts a n c -> slarray_sparse a ->
  Forall (fun j => 0 <= j < n) calls ->
  exists a', SLArray.run a calls = Ok a' /\
    Z.of_nat (length (SLArray.data a')) = n /\
    forall i, is_Some (SLArray.large_values a' !! i)
              <-> (0 <= i < n /\ 255 <= c i + SLArray.calls_to i calls).
Proof.
  intros Hcounts Hsparse Hcalls.
  destruct (slarray_run_counts calls a n c Hcounts Hcalls) as (a' & Hrun & Hlen & Hall).
  assert (Hsp : slarray_sparse a').
  { eapply slarray_run_sparse; [exact Hsparse | exact Hrun]. }
  exists a'. split; [exact Hrun |]. split; [exact Hlen |].
  intros i. split.
  - intros [v Hv]. destruct (Hsp i v Hv) as [Hi Hd].
    pose proof (lookup_lt_Some _ _ _ Hd) as Hlt.
    assert (Hin : 0 <= i < n) by lia.
    split; [exact Hin |].
    destruct (Hall i Hin) as (_ & d & Hd' & Hcase). cbn beta in Hcase.
    rewrite Hd in Hd'. injection Hd' as <-.
    destruct Hcase as [[Heq Hsmall] | (_ & Hbig & _)]; lia.
  - intros [Hin Hbig].
    destruct (Hall i Hin) as (_ & d & Hd' & Hcase). cbn beta in Hcase.
    destruct Hcase as [[Heq Hsmall] | (_ & _ & Hmap)]; [lia |].
    rewrite Hmap. eexists. reflexivity.
Qed.

Lemma SLArray_large_values_keys_witness :
  slarray_counts (SLArray.mk [0; 0] ∅) 2 (fun _ => 0) /\
  slarray_sparse (SLArray.mk [0; 0] ∅) /\
  Forall (fun j => 0 <= j < 2) [0; 1; 0] /\
  exists a', SLArray.run (SLArray.mk [0; 0] ∅) [0; 1; 0] = Ok a' /\
    Z.of_nat (length (SLArray.data a')) = 2 /\
    forall i, is_Some (SLArray.large_values a' !! i)
              <-> (0 <= i < 2 /\ 255 <= 0 + SLArray.calls_to i [0; 1; 0]).
Proof.
  assert (H1 : slarray_counts (SLArray.mk [0; 0] ∅) 2 (fun _ => 0)).
  { split; [reflexivity |]. intros i Hi. split; [lia |]. exists 0. split; [| left; lia].
    assert (Hcases : i = 0 \/ i = 1) by lia.
    destruct Hcases as [-> | ->]; reflexivity. }
  assert (H2 : slarray_sparse (SLArray.mk [0; 0] ∅)).
  { intros i v Hv. cbn [SLArray.large_values] in Hv.
    rewrite lookup_empty in Hv. discriminate. }
  assert (H3 : Forall (fun j => 0 <= j < 2) [0; 1; 0]) by (repeat constructor; lia).
  split; [exact H1 |]. split; [exact H2 |]. split; [exact H3 |].
  exact (SLArray_large_values_keys (SLArray.mk [0; 0] ∅) 2 (fun _ => 0) [0; 1; 0] H1 H2 H3).
Defined.

(** ** PriorityQueue: index arithmetic, heaps left alone, a new root *)

(** X16: for indices below 2^63 - 1, [left] and [right] give two different
    slots after [i] whose [parent] is [i]; and every index from 1 on is the
    left or the right child of its parent. *)
Theorem PriorityQueue_index_arithmetic (i : Z) :
  0 <= i < 2 ^ 63 - 1 ->
  PriorityQueue.parent (PriorityQueue.left i) = i /\
  PriorityQueue.parent (PriorityQueue.right i) = i /\
  i < PriorityQueue.left i < PriorityQueue.right i /\
  (0 < i ->
   PriorityQueue.left (PriorityQueue.parent i) = i \/
   PriorityQueue.right (PriorityQueue.parent i) = i).
Proof.
  intros Hi. rewrite left_small, right_small by lia.
  rewrite !parent_small by lia.
  split; [apply parent_is; lia |]. split; [apply parent_is; lia |].
  split; [lia |].
  intros Hpos. rewrite parent_small by lia.
  pose proof (parent_lt i Hpos) as Hq.
  rewrite left_small, right_small by lia.
  Z.div_mod_to_equations. lia.
Qed.

Lemma PriorityQueue_index_arithmetic_witness :
  0 <= 5 < 2 ^ 63 - 1 /\
  PriorityQueue.parent (PriorityQueue.left 5) = 5 /\
  PriorityQueue.parent (PriorityQueue.right 5) = 5 /\
  5 < PriorityQueue.left 5 < PriorityQueue.right 5 /\
  (0 < 5 ->
   PriorityQueue.left (PriorityQueue.parent 5) = 5 \/
   PriorityQueue.right (PriorityQueue.parent 5) = 5).
Proof.
  assert (H : 0 <= 5 < 2 ^ 63 - 1) by lia.
  split; [exact H |]. exact (PriorityQueue_index_arithmetic 5 H).
Defined.

Section PriorityQueueHeaps.

Context {Element : Type}.
Variable less : Element -> Element -> bool.

(** On a heap, [down] finds no smaller child. *)
Lemma down_choice_on_heap (data : list Element) (i : Z) :
  PriorityQueue.size data < 2 ^ 63 ->
  PriorityQueue.is_heap less data ->
  0 <= i -> 2 * i + 1 < PriorityQueue.size data ->
  PriorityQueue.down_choice less data i = Ok i.
Proof.
  intros Hsize Hheap Hi Hleft.
  assert (Hin : forall j, 0 <= j < PriorityQueue.size data ->
                          exists x, data !! Z.to_nat j = Some x).
  { intros j Hj. apply lookup_lt_is_Some_2. unfold PriorityQueue.size in Hj. lia. }
  destruct (Hin i ltac:(lia)) as [di Hdi].
  destruct (Hin (2 * i + 1) ltac:(lia)) as [dl Hdl].
  assert (Hchild : forall j dj, j = 2 * i + 1 \/ j = 2 * i + 2 ->
                     data !! Z.to_nat j = Some dj -> less dj di = false).
  { intros j dj Hj Hdj.
    assert (Hjs : j < PriorityQueue.size data).
    { apply lookup_lt_Some in Hdj. unfold PriorityQueue.size. lia. }
    apply (Hheap j dj di); [lia | exact Hdj |].
    rewrite parent_small by lia.
    replace ((j - 1) / 2) with i by (symmetry; apply parent_is; lia). exact Hdi. }
  unfold PriorityQueue.down_choice, PriorityQueue.smaller.
  rewrite left_small, right_small by lia.
  rewrite (at_index_lookup data (2 * i + 1) dl) by (auto; lia). cbn [mbind res_bind].
  rewrite (at_index_lookup data i di) by (auto; lia). cbn [mbind res_bind].
  rewrite (Hchild (2 * i + 1) dl) by auto.
  destruct (Z.ltb_spec (2 * i + 2) (PriorityQueue.size data)) as [Hright | _];
    [| reflexivity].
  destruct (Hin (2 * i + 2) ltac:(lia)) as [dr Hdr].
  rewrite (at_index_lookup data (2 * i + 2) dr) by (auto; lia). cbn [mbind res_bind].
  rewrite (at_index_lookup data i di) by (auto; lia). cbn [mbind res_bind].
  rewrite (Hchild (2 * i + 2) dr) by auto. reflexivity.
Qed.

Lemma down_on_heap (fuel : nat) (data : list Element) (i : Z) :
  PriorityQueue.size data < 2 ^ 63 ->
  PriorityQueue.is_heap less data ->
  0 <= i < 2 ^ 63 ->
  PriorityQueue.down less (S fuel) data i = Ok data.
Proof.
  intros Hsize Hheap Hi. cbn [PriorityQueue.down].
  rewrite left_small by lia.
  destruct (Z.ltb_spec (2 * i + 1) (PriorityQueue.size data)) as [Hleft | _];
    [| reflexivity].
  rewrite down_choice_on_heap by (auto; lia). cbn [mbind res_bind].
  rewrite Z.eqb_refl. reflexivity.
Qed.

Lemma heapify_loop_on_heap (fuel n : nat) (data : list Element) (i : Z) :
  PriorityQueue.size data < 2 ^ 63 ->
  PriorityQueue.is_heap less data ->
  0 <= i < 2 ^ 63 -> (Z.to_nat i <= n)%nat ->
  PriorityQueue.heapify_loop less (S fuel) n data i = Ok data.
Proof.
  intros Hsize Hheap. revert i. induction n as [| n IH]; intros i Hi Hn.
  - cbn [PriorityQueue.heapify_loop]. rewrite down_on_heap by assumption.
    cbn [mbind res_bind]. destruct (Z.eqb_spec i 0); [reflexivity | lia].
  - cbn [PriorityQueue.heapify_loop]. rewrite down_on_heap by assumption.
    cbn [mbind res_bind]. destruct (Z.eqb_spec i 0) as [_ | Hi0]; [reflexivity |].
    rewrite wrap64_small by lia. apply IH; lia.
Qed.

(** X17: a vector already in min-heap order is left as it is, by [down] at
    any of its slots and by [heapify]: nothing is exchanged, so elements
    that compare equal keep their places. *)
Theorem PriorityQueue_heap_unchanged (data : list Element) (fuel : nat) :
  PriorityQueue.size data < 2 ^ 63 ->
  PriorityQueue.is_heap less data ->
  (1 <= fuel)%nat -> (length data <= fuel)%nat ->
  PriorityQueue.heapify less fuel data = Ok data /\
  forall i, 0 <= i < PriorityQueue.size data ->
            PriorityQueue.down less fuel data i = Ok data.
Proof.
  intros Hsize Hheap Hf1 Hfuel.
  destruct fuel as [| fuel]; [lia |]. split.
  - unfold PriorityQueue.heapify.
    destruct (Z.leb_spec (PriorityQueue.size data) 1) as [_ | Hbig]; [reflexivity |].
    rewrite (wrap64_small (PriorityQueue.size data - 1)) by lia.
    rewrite parent_small by lia.
    pose proof (parent_lt (PriorityQueue.size data - 1) ltac:(lia)) as Hq.
    apply heapify_loop_on_heap; try assumption; try lia.
    unfold PriorityQueue.size in *. lia.
  - intros i Hi. apply down_on_heap; try assumption. lia.
Qed.

End PriorityQueueHeaps.

Lemma PriorityQueue_heap_unchanged_witness :
  PriorityQueue.size [1; 3; 1; 3] < 2 ^ 63 /\
  PriorityQueue.is_heap Z.ltb [1; 3; 1; 3] /\
  (1 <= 4)%nat /\ (length [1; 3; 1; 3] <= 4)%nat /\
  PriorityQueue.heapify Z.ltb 4 [1; 3; 1; 3] = Ok [1; 3; 1; 3] /\
  forall i, 0 <= i < PriorityQueue.size [1; 3; 1; 3] ->
            PriorityQueue.down Z.ltb 4 [1; 3; 1; 3] i = Ok [1; 3; 1; 3].
Proof.
  assert (H1 : PriorityQueue.size [1; 3; 1; 3] < 2 ^ 63) by reflexivity.
  assert (H2 : PriorityQueue.is_heap Z.ltb [1; 3; 1; 3]).
  { intros j x y Hj Hx Hy. unfold PriorityQueue.size in Hj. cbn [length] in Hj.
    assert (Hcases : j = 1 \/ j = 2 \/ j = 3) by lia.
    destruct Hcases as [-> | [-> | ->]]; vm_compute in Hx, Hy;
      injection Hx as <-; injection Hy as <-; reflexivity. }
  assert (H3 : (1 <= 4)%nat) by lia.
  assert (H4 : (length [1; 3; 1; 3] <= 4)%nat) by (cbn [length]; lia).
  split; [exact H1 |]. split; [exact H2 |]. split; [exact H3 |]. split; [exact H4 |].
  exact (PriorityQueue_heap_unchanged Z.ltb [1; 3; 1; 3] 4 H1 H2 H3 H4).
Defined.

Section PriorityQueueRoot.

Context {Element : Type}.
Variable less : Element -> Element -> bool.
Hypothesis less_irrefl : forall x, less x x = false.
Hypothesis less_trans :
  forall x y z, less x y = true -> less y z = true -> less x z = true.
Hypothesis less_negtrans :
  forall x y z, less x y = false -> less y z = false -> less x z = false.

(** X18: the way a merge uses the queue.  When the root of a heap is
    overwritten with any element and [down(0)] is called, the result is
    again a heap, holds the same elements as the overwritten vector, and
    its root is not greater than any of them. *)
Theorem PriorityQueue_replace_root (data : list Element) (x : Element)
    (fuel : nat) :
  0 < PriorityQueue.size data < 2 ^ 63 ->
  PriorityQueue.is_heap less data ->
  (length data <= fuel)%nat ->
  exists data' r,
    PriorityQueue.down less fuel (<[0%nat := x]> data) 0 = Ok data' /\
    PriorityQueue.is_heap less data' /\
    data' ≡ₚ <[0%nat := x]> data /\
    data' !! 0%nat = Some r /\
    forall y, y ∈ <[0%nat := x]> data -> less y r = false.
Proof.
  intros Hsize Hheap Hfuel.
  set (d := <[0%nat := x]> data).
  assert (Hlen : length d = length data) by apply length_insert.
  assert (Hsz : PriorityQueue.size d = PriorityQueue.size data).
  { unfold PriorityQueue.size. now rewrite Hlen. }
  pose proof (is_heap_heap_from_0 less data ltac:(lia) Hheap) as Hfrom.
  assert (Hinv : PriorityQueue.sift_inv less d 0 0).
  { split; [rewrite Hsz; lia |]. split.
    - intros j a b Hj Hk Hp Ha Hb. rewrite Hsz in Hj.
      unfold d in Ha, Hb.
      rewrite list_lookup_insert_ne in Ha by lia.
      rewrite list_lookup_insert_ne in Hb by lia.
      exact (Hfrom j a b Hj Hk Ha Hb).
    - intros Hp. lia. }
  destruct (down_sift less less_irrefl less_trans fuel d 0 0) as (data' & Hdown & Hh & Hperm).
  { rewrite Hsz. lia. }
  { exact Hinv. }
  { rewrite Hsz. unfold PriorityQueue.size. lia. }
  assert (Hsz' : PriorityQueue.size data' = PriorityQueue.size data).
  { unfold PriorityQueue.size. now rewrite (Permutation_length Hperm), Hlen. }
  destruct (lookup_lt_is_Some_2 data' 0%nat) as [r Hr].
  { unfold PriorityQueue.size in Hsz', Hsize. lia. }
  exists data', r. split; [exact Hdown |].
  split; [apply heap_from_0_is_heap; [lia | exact Hh] |].
  split; [exact Hperm |]. split; [exact Hr |].
  intros y Hy.
  apply (heap_root_minimal less less_irrefl less_negtrans data' r);
    [lia | exact Hh | exact Hr |].
  now rewrite Hperm.
Qed.

End PriorityQueueRoot.

Lemma PriorityQueue_replace_root_witness :
  (forall x, Z.ltb x x = false) /\
  (forall x y z, Z.ltb x y = true -> Z.ltb y z = true -> Z.ltb x z = true) /\
  (forall x y z, Z.ltb x y = false -> Z.ltb y z = false -> Z.ltb x z = false) /\
  0 < PriorityQueue.size [1; 3; 2] < 2 ^ 63 /\
  PriorityQueue.is_heap Z.ltb [1; 3; 2] /\
  (length [1; 3; 2] <= 3)%nat /\
  exists data' r,
    PriorityQueue.down Z.ltb 3 (<[0%nat := 5]> [1; 3; 2]) 0 = Ok data' /\
    PriorityQueue.is_heap Z.ltb data' /\
    data' ≡ₚ <[0%nat := 5]> [1; 3; 2] /\
    data' !! 0%nat = Some r /\
    forall y, y ∈ <[0%nat := 5]> [1; 3; 2] -> Z.ltb y r = false.
Proof.
  assert (Hi : forall x, Z.ltb x x = false) by (intros; lia).
  assert (Ht : forall x y z, Z.ltb x y = true -> Z.ltb y z = true -> Z.ltb x z = true)
    by (intros; lia).
  assert (Hn : forall x y z, Z.ltb x y = false -> Z.ltb y z = false -> Z.ltb x z = false)
    by (intros; lia).
  assert (H1 : 0 < PriorityQueue.size [1; 3; 2] < 2 ^ 63) by (split; reflexivity).
  assert (H2 : PriorityQueue.is_heap Z.ltb [1; 3; 2]).
  { intros j x y Hj Hx Hy. unfold PriorityQueue.size in Hj. cbn [length] in Hj.
    assert (Hcases : j = 1 \/ j = 2) by lia.
    destruct Hcases as [-> | ->]; vm_compute in Hx, Hy;
      injection Hx as <-; injection Hy as <-; reflexivity. }
  assert (H3 : (length [1; 3; 2] <= 3)%nat) by (cbn [length]; lia).
  split; [exact Hi |]. split; [exact Ht |]. split; [exact Hn |].
  split; [exact H1 |]. split; [exact H2 |]. split; [exact H3 |].
  exact (PriorityQueue_replace_root Z.ltb Hi Ht Hn [1; 3; 2] 5 3 H1 H2 H3).
Defined.

(** ** ReadBuffer: the buffer is a window on the file *)

Section ReadBufferFacts.

Context {Element : Type}.
Variable zero : Element.
Variable BUFFER_SIZE : Z.
Hypothesis BUFFER_SIZE_pos : 0 < BUFFER_SIZE.

Lemma window_buffered (b : ReadBuffer.t (Element := Element)) (i : Z) :
  ReadBuffer.window BUFFER_SIZE b ->
  ReadBuffer.buffered b i = true <->
  ReadBuffer.offset b <= i < ReadBuffer.offset b + ReadBuffer.buffer_size b.
Proof.
  intros (Hgood & Hel & Hlt & Hoff & Hpos & Hle & Hbs & Hbuf).
  unfold ReadBuffer.buffered.
  assert (H0 : 0 <= ReadBuffer.buffer_size b)
    by (unfold ReadBuffer.buffer_size; lia).
  rewrite wrap64_small by lia.
  rewrite andb_true_iff, Z.leb_le, Z.ltb_lt. tauto.
Qed.

Lemma window_lookup (b : ReadBuffer.t (Element := Element)) (k : nat) (x : Element) :
  ReadBuffer.window BUFFER_SIZE b ->
  ReadBuffer.buffer b !! k = Some x ->
  ReadBuffer.file b !! (Z.to_nat (ReadBuffer.offset b) + k)%nat = Some x.
Proof.
  intros (Hgood & Hel & Hlt & Hoff & Hpos & Hle & Hbs & Hbuf) Hk.
  rewrite Hbuf in Hk. apply lookup_take_Some in Hk as [Hk _].
  now rewrite lookup_drop in Hk.
Qed.

Lemma fill_spec (b : ReadBuffer.t (Element := Element)) :
  ReadBuffer.window BUFFER_SIZE b ->
  ReadBuffer.window BUFFER_SIZE (ReadBuffer.fill zero BUFFER_SIZE b) /\
  ReadBuffer.file (ReadBuffer.fill zero BUFFER_SIZE b) = ReadBuffer.file b /\
  ReadBuffer.elements (ReadBuffer.fill zero BUFFER_SIZE b) = ReadBuffer.elements b /\
  ReadBuffer.offset (ReadBuffer.fill zero BUFFER_SIZE b) = ReadBuffer.offset b /\
  ReadBuffer.buffer_size (ReadBuffer.fill zero BUFFER_SIZE b) =
    Z.max (ReadBuffer.buffer_size b)
          (Z.min BUFFER_SIZE (ReadBuffer.elements b - ReadBuffer.offset b)).
Proof.
  intros Hw. pose proof Hw as (Hgood & Hel & Hlt & Hoff & Hpos & Hle & Hbs & Hbuf).
  assert (H0 : 0 <= ReadBuffer.buffer_size b)
    by (unfold ReadBuffer.buffer_size; lia).
  unfold ReadBuffer.fill, ReadBuffer.size.
  rewrite wrap64_small by lia.
  set (target := Z.min BUFFER_SIZE (ReadBuffer.elements b - ReadBuffer.offset b)).
  destruct (Z.leb_spec target (ReadBuffer.buffer_size b)) as [Hfull | Hshort].
  { repeat split; try assumption. lia. }
  unfold ReadBuffer.read. rewrite Hgood.
  set (count := target - ReadBuffer.buffer_size b).
  set (got := take (Z.to_nat count)
                   (drop (Z.to_nat (ReadBuffer.pos b)) (ReadBuffer.file b))).
  assert (Hgot : length got = Z.to_nat count).
  { unfold got. rewrite length_take, length_drop. unfold count, target in *. lia. }
  replace (Z.of_nat (length got) =? count) with true
    by (symmetry; apply Z.eqb_eq; unfold count in *; lia).
  cbn [fst snd ReadBuffer.file ReadBuffer.good ReadBuffer.pos ReadBuffer.elements
       ReadBuffer.offset ReadBuffer.buffer].
  assert (Hsize : Z.of_nat (length (ReadBuffer.buffer b ++ got)) = target).
  { rewrite length_app, Hgot. unfold count, ReadBuffer.buffer_size in *. lia. }
  split; [| repeat split; try reflexivity].
  - unfold ReadBuffer.window, ReadBuffer.buffer_size.
    cbn [ReadBuffer.file ReadBuffer.good ReadBuffer.pos ReadBuffer.elements
         ReadBuffer.offset ReadBuffer.buffer].
    rewrite Hsize.
    split; [reflexivity |]. split; [exact Hel |]. split; [exact Hlt |].
    split; [exact Hoff |].
    split; [unfold count, ReadBuffer.buffer_size in *; lia |].
    split; [unfold count, target in *; lia |].
    split; [unfold target; lia |].
    rewrite length_app, <- take_take_drop, drop_drop, <- Hbuf. f_equal.
    rewrite Hgot. unfold got. f_equal. f_equal.
    unfold ReadBuffer.buffer_size in Hpos. lia.
  - unfold ReadBuffer.buffer_size at 1.
    cbn [ReadBuffer.buffer]. rewrite Hsize. fold target. lia.
Qed.

Lemma pop_spec (b : ReadBuffer.t (Element := Element)) :
  ReadBuffer.window BUFFER_SIZE b ->
  0 < ReadBuffer.buffer_size b ->
  exists b', ReadBuffer.pop b = Ok b' /\
    ReadBuffer.window BUFFER_SIZE b' /\
    ReadBuffer.file b' = ReadBuffer.file b /\
    ReadBuffer.elements b' = ReadBuffer.elements b /\
    ReadBuffer.offset b' = ReadBuffer.offset b + 1 /\
    ReadBuffer.buffer_size b' = ReadBuffer.buffer_size b - 1.
Proof.
  intros (Hgood & Hel & Hlt & Hoff & Hpos & Hle & Hbs & Hbuf) Hne.
  destruct b as [f g p e o buf]. unfold ReadBuffer.buffer_size in *.
  cbn [ReadBuffer.file ReadBuffer.good ReadBuffer.pos ReadBuffer.elements
       ReadBuffer.offset ReadBuffer.buffer] in *.
  destruct buf as [| x rest]; [cbn [length] in Hne; lia |].
  cbn [length] in *. unfold ReadBuffer.pop. cbn [ReadBuffer.buffer].
  eexists. split; [reflexivity |].
  cbn [ReadBuffer.file ReadBuffer.good ReadBuffer.pos ReadBuffer.elements
       ReadBuffer.offset ReadBuffer.buffer].
  rewrite wrap64_small by lia.
  split; [| repeat split; lia].
  unfold ReadBuffer.window, ReadBuffer.buffer_size.
  cbn [ReadBuffer.file ReadBuffer.good ReadBuffer.pos ReadBuffer.elements
       ReadBuffer.offset ReadBuffer.buffer].
  repeat (split; [first [assumption | lia] |]).
  replace (Z.to_nat (o + 1)) with (Z.to_nat o + 1)%nat by lia.
  rewrite <- drop_drop.
  destruct (drop (Z.to_nat o) f) as [| y l]; [discriminate Hbuf |].
  cbn [take] in Hbuf. injection Hbuf as _ Hrest. exact Hrest.
Qed.

Lemma pop_until_spec (fuel : nat) (b : ReadBuffer.t (Element := Element)) (i : Z) :
  ReadBuffer.window BUFFER_SIZE b ->
  ReadBuffer.offset b <= i <= ReadBuffer.offset b + ReadBuffer.buffer_size b ->
  (Z.to_nat (i - ReadBuffer.offset b) < fuel)%nat ->
  exists b', ReadBuffer.pop_until fuel b i = Ok b' /\
    ReadBuffer.window BUFFER_SIZE b' /\
    ReadBuffer.file b' = ReadBuffer.file b /\
    ReadBuffer.elements b' = ReadBuffer.elements b /\
    ReadBuffer.offset b' = i /\
    ReadBuffer.buffer_size b' = ReadBuffer.buffer_size b - (i - ReadBuffer.offset b).
Proof.
  revert b. induction fuel as [| fuel IH]; intros b Hw Hi Hfuel; [lia |].
  cbn [ReadBuffer.pop_until].
  destruct (Z.ltb_spec (ReadBuffer.offset b) i) as [Hlt | Hge].
  - destruct (pop_spec b Hw ltac:(lia)) as (b1 & Hpop & Hw1 & Hf1 & He1 & Ho1 & Hs1).
    rewrite Hpop. cbn [mbind res_bind].
    destruct (IH b1 Hw1 ltac:(lia) ltac:(lia)) as (b' & Hrun & Hw' & Hf' & He' & Ho' & Hs').
    exists b'. split; [exact Hrun |]. split; [exact Hw' |].
    split; [congruence |]. split; [congruence |]. split; [exact Ho' |]. lia.
  - exists b. split; [reflexivity |]. split; [exact Hw |].
    repeat split; lia.
Qed.

Lemma seek_spec (fuel : nat) (b : ReadBuffer.t (Element := Element)) (i : Z) :
  ReadBuffer.window BUFFER_SIZE b ->
  0 <= i < ReadBuffer.elements b ->
  (length (ReadBuffer.buffer b) <= fuel)%nat ->
  exists b', ReadBuffer.seek zero BUFFER_SIZE fuel b i = Ok b' /\
    ReadBuffer.window BUFFER_SIZE b' /\
    ReadBuffer.file b' = ReadBuffer.file b /\
    ReadBuffer.elements b' = ReadBuffer.elements b /\
    ReadBuffer.offset b' = i /\
    Z.min (ReadBuffer.MINIMUM_SIZE BUFFER_SIZE) (ReadBuffer.elements b - i)
      <= ReadBuffer.buffer_size b' /\
    0 < ReadBuffer.buffer_size b'.
Proof.
  intros Hw Hi Hfuel.
  pose proof Hw as (Hgood & Hel & Hlt & Hoff & Hpos & Hle & Hbs & Hbuf).
  assert (Hmin : ReadBuffer.MINIMUM_SIZE BUFFER_SIZE <= BUFFER_SIZE).
  { unfold ReadBuffer.MINIMUM_SIZE. Z.div_mod_to_equations. lia. }
  unfold ReadBuffer.seek, ReadBuffer.size.
  destruct (Z.leb_spec (ReadBuffer.elements b) i) as [Hpast | _]; [lia |].
  destruct (ReadBuffer.buffered b i) eqn:Hbuffered.
  - apply (window_buffered b i Hw) in Hbuffered.
    destruct (pop_until_spec fuel b i Hw ltac:(lia))
      as (b1 & Hrun & Hw1 & Hf1 & He1 & Ho1 & Hs1).
    { unfold ReadBuffer.buffer_size in Hbuffered. lia. }
    rewrite Hrun. cbn [mbind res_bind]. eexists. split; [reflexivity |].
    destruct (Z.ltb_spec (ReadBuffer.buffer_size b1) (ReadBuffer.MINIMUM_SIZE BUFFER_SIZE))
      as [Hsmall | Hlarge].
    + destruct (fill_spec b1 Hw1) as (Hw2 & Hf2 & He2 & Ho2 & Hs2).
      split; [exact Hw2 |]. split; [congruence |]. split; [congruence |].
      split; [congruence |]. rewrite Hs2, He1, Ho1. lia.
    + split; [exact Hw1 |]. split; [exact Hf1 |]. split; [exact He1 |].
      split; [exact Ho1 |]. lia.
  - unfold ReadBuffer.seekg.
    cbn [ReadBuffer.file ReadBuffer.good ReadBuffer.pos ReadBuffer.elements
         ReadBuffer.offset ReadBuffer.buffer].
    rewrite Hgood.
    cbn [ReadBuffer.file ReadBuffer.good ReadBuffer.pos ReadBuffer.elements
         ReadBuffer.offset ReadBuffer.buffer].
    set (b3 := ReadBuffer.mk (ReadBuffer.file b) true i (ReadBuffer.elements b) i []).
    assert (Hw3 : ReadBuffer.window BUFFER_SIZE b3).
    { unfold ReadBuffer.window, ReadBuffer.buffer_size, b3.
      cbn [ReadBuffer.file ReadBuffer.good ReadBuffer.pos ReadBuffer.elements
           ReadBuffer.offset ReadBuffer.buffer length take].
      repeat split; first [assumption | lia]. }
    destruct (fill_spec b3 Hw3) as (Hw4 & Hf4 & He4 & Ho4 & Hs4).
    eexists. split; [reflexivity |]. split; [exact Hw4 |].
    split; [exact Hf4 |]. split; [exact He4 |]. split; [exact Ho4 |].
    rewrite Hs4. unfold b3, ReadBuffer.buffer_size.
    cbn [ReadBuffer.elements ReadBuffer.offset ReadBuffer.buffer length]. lia.
Qed.

(** X19: [seek(i)] at a record of the file moves the window there.  The
    buffer then starts at [i], still holds exactly the records of the file
    from its offset on, is not empty, has at most [BUFFER_SIZE] records and
    at least [MINIMUM_SIZE] of them unless the file ends before that. *)
Theorem ReadBuffer_seek_moves_window (fuel : nat)
    (b : ReadBuffer.t (Element := Element)) (i : Z) :
  ReadBuffer.window BUFFER_SIZE b ->
  0 <= i < ReadBuffer.size b ->
  (length (ReadBuffer.buffer b) <= fuel)%nat ->
  exists b', ReadBuffer.seek zero BUFFER_SIZE fuel b i = Ok b' /\
    ReadBuffer.window BUFFER_SIZE b' /\
    ReadBuffer.file b' = ReadBuffer.file b /\
    ReadBuffer.offset b' = i /\
    Z.min (ReadBuffer.MINIMUM_SIZE BUFFER_SIZE) (ReadBuffer.size b - i)
      <= ReadBuffer.buffer_size b' <= BUFFER_SIZE /\
    0 < ReadBuffer.buffer_size b'.
Proof.
  intros Hw Hi Hfuel.
  destruct (seek_spec fuel b i Hw Hi Hfuel) as (b' & Hs & Hw' & Hf & He & Ho & Hlo & Hne).
  exists b'. split; [exact Hs |]. split; [exact Hw' |]. split; [exact Hf |].
  split; [exact Ho |]. split; [| exact Hne].
  split; [exact Hlo |]. apply Hw'.
Qed.

(** X20: [operator[]] at a record of the file returns that record of the
    file, whether it was buffered or not, and leaves a buffer that is again
    a window on the same file and contains position [i]. *)
Theorem ReadBuffer_get_reads_file (fuel : nat)
    (b : ReadBuffer.t (Element := Element)) (i : Z) :
  ReadBuffer.window BUFFER_SIZE b ->
  0 <= i < ReadBuffer.size b ->
  (length (ReadBuffer.buffer b) <= fuel)%nat ->
  exists x b', ReadBuffer.get zero BUFFER_SIZE fuel b i = Ok (x, b') /\
    ReadBuffer.file b !! Z.to_nat i = Some x /\
    ReadBuffer.window BUFFER_SIZE b' /\
    ReadBuffer.file b' = ReadBuffer.file b /\
    ReadBuffer.buffered b' i = true.
Proof.
  intros Hw Hi Hfuel.
  assert (Hb1 : exists b1,
    (if ReadBuffer.buffered b i then Ok b
     else ReadBuffer.seek zero BUFFER_SIZE fuel b i) = Ok b1 /\
    ReadBuffer.window BUFFER_SIZE b1 /\
    ReadBuffer.file b1 = ReadBuffer.file b /\
    ReadBuffer.offset b1 <= i < ReadBuffer.offset b1 + ReadBuffer.buffer_size b1).
  { destruct (ReadBuffer.buffered b i) eqn:Hbuffered.
    - exists b. split; [reflexivity |]. split; [exact Hw |]. split; [reflexivity |].
      now apply (window_buffered b i Hw).
    - destruct (seek_spec fuel b i Hw Hi Hfuel)
        as (b1 & Hs & Hw1 & Hf & He & Ho & Hlo & Hne).
      exists b1. split; [exact Hs |]. split; [exact Hw1 |]. split; [exact Hf |]. lia. }
  destruct Hb1 as (b1 & Hstep & Hw1 & Hf1 & Hin).
  pose proof Hw1 as (Hgood & Hel & Hlt & Hoff & Hpos & Hle & Hbs & Hbuf).
  destruct (lookup_lt_is_Some_2 (ReadBuffer.buffer b1)
              (Z.to_nat (i - ReadBuffer.offset b1))) as [x Hx].
  { unfold ReadBuffer.buffer_size in Hin. lia. }
  exists x, b1. unfold ReadBuffer.get. rewrite Hstep. cbn [mbind res_bind].
  rewrite wrap64_small by lia.
  rewrite (at_index_lookup _ _ x) by (auto; lia). cbn [mbind res_bind].
  split; [reflexivity |].
  split.
  { apply (window_lookup b1 _ x Hw1) in Hx. rewrite Hf1 in Hx.
    replace (Z.to_nat i)
      with (Z.to_nat (ReadBuffer.offset b1) + Z.to_nat (i - ReadBuffer.offset b1))%nat
      by lia.
    exact Hx. }
  split; [exact Hw1 |]. split; [exact Hf1 |].
  now apply (window_buffered b1 i Hw1).
Qed.

(** X21: nothing checks the end of the file.  At a position from [size()]
    on, [seek] returns without touching the buffer, and [operator[]] then
    indexes the deque outside its bounds. *)
Theorem ReadBuffer_past_the_end (fuel : nat)
    (b : ReadBuffer.t (Element := Element)) (i : Z) :
  ReadBuffer.window BUFFER_SIZE b ->
  ReadBuffer.size b <= i < 2 ^ 64 ->
  ReadBuffer.buffered b i = false /\
  ReadBuffer.seek zero BUFFER_SIZE fuel b i = Ok b /\
  ReadBuffer.get zero BUFFER_SIZE fuel b i = Fault.
Proof.
  intros Hw Hi.
  pose proof Hw as (Hgood & Hel & Hlt & Hoff & Hpos & Hle & Hbs & Hbuf).
  unfold ReadBuffer.size in Hi.
  assert (Hnot : ReadBuffer.buffered b i = false).
  { destruct (ReadBuffer.buffered b i) eqn:Hbuffered; [| reflexivity].
    apply (window_buffered b i Hw) in Hbuffered. lia. }
  assert (Hseek : ReadBuffer.seek zero BUFFER_SIZE fuel b i = Ok b).
  { unfold ReadBuffer.seek, ReadBuffer.size.
    destruct (Z.leb_spec (ReadBuffer.elements b) i); [reflexivity | lia]. }
  split; [exact Hnot |]. split; [exact Hseek |].
  unfold ReadBuffer.get. rewrite Hnot, Hseek. cbn [mbind res_bind].
  assert (H0 : 0 <= ReadBuffer.buffer_size b)
    by (unfold ReadBuffer.buffer_size; lia).
  rewrite wrap64_small by lia.
  unfold at_index.
  destruct (Z.ltb_spec (i - ReadBuffer.offset b) 0); [reflexivity |].
  rewrite lookup_ge_None_2; [reflexivity |].
  unfold ReadBuffer.buffer_size in *. lia.
Qed.

End ReadBufferFacts.

Lemma ReadBuffer_seek_moves_window_witness :
  0 < 4 /\
  ReadBuffer.window 4 (ReadBuffer.mk [10; 11; 12; 13; 14; 15; 16] true 4 7 2 [12; 13]) /\
  0 <= 3 < ReadBuffer.size (ReadBuffer.mk [10; 11; 12; 13; 14; 15; 16] true 4 7 2 [12; 13]) /\
  (length (ReadBuffer.buffer
     (ReadBuffer.mk [10; 11; 12; 13; 14; 15; 16] true 4 7 2 [12; 13])) <= 2)%nat /\
  exists b',
    ReadBuffer.seek 0 4 2
      (ReadBuffer.mk [10; 11; 12; 13; 14; 15; 16] true 4 7 2 [12; 13]) 3 = Ok b' /\
    ReadBuffer.window 4 b' /\
    ReadBuffer.file b' =
      ReadBuffer.file (ReadBuffer.mk [10; 11; 12; 13; 14; 15; 16] true 4 7 2 [12; 13]) /\
    ReadBuffer.offset b' = 3 /\
    Z.min (ReadBuffer.MINIMUM_SIZE 4)
          (ReadBuffer.size
             (ReadBuffer.mk [10; 11; 12; 13; 14; 15; 16] true 4 7 2 [12; 13]) - 3)
      <= ReadBuffer.buffer_size b' <= 4 /\
    0 < ReadBuffer.buffer_size b'.
Proof.
  assert (H0 : 0 < 4) by lia.
  assert (H1 : ReadBuffer.window 4
                 (ReadBuffer.mk [10; 11; 12; 13; 14; 15; 16] true 4 7 2 [12; 13])).
  { unfold ReadBuffer.window, ReadBuffer.buffer_size.
    cbn [ReadBuffer.file ReadBuffer.good ReadBuffer.pos ReadBuffer.elements
         ReadBuffer.offset ReadBuffer.buffer length].
    repeat split; try reflexivity; lia. }
  assert (H2 : 0 <= 3 < ReadBuffer.size
                 (ReadBuffer.mk [10; 11; 12; 13; 14; 15; 16] true 4 7 2 [12; 13]))
    by (unfold ReadBuffer.size; cbn [ReadBuffer.elements]; lia).
  assert (H3 : (length (ReadBuffer.buffer
                  (ReadBuffer.mk [10; 11; 12; 13; 14; 15; 16] true 4 7 2 [12; 13]))
                <= 2)%nat) by (cbn [ReadBuffer.buffer length]; lia).
  split; [exact H0 |]. split; [exact H1 |]. split; [exact H2 |]. split; [exact H3 |].
  exact (ReadBuffer_seek_moves_window 0 4 H0 2 _ 3 H1 H2 H3).
Defined.

Lemma ReadBuffer_get_reads_file_witness :
  0 < 4 /\
  ReadBuffer.window 4 (ReadBuffer.mk [10; 11; 12; 13; 14; 15; 16] true 4 7 2 [12; 13]) /\
  0 <= 5 < ReadBuffer.size (ReadBuffer.mk [10; 11; 12; 13; 14; 15; 16] true 4 7 2 [12; 13]) /\
  (length (ReadBuffer.buffer
     (ReadBuffer.mk [10; 11; 12; 13; 14; 15; 16] true 4 7 2 [12; 13])) <= 2)%nat /\
  exists x b',
    ReadBuffer.get 0 4 2
      (ReadBuffer.mk [10; 11; 12; 13; 14; 15; 16] true 4 7 2 [12; 13]) 5 = Ok (x, b') /\
    ReadBuffer.file (ReadBuffer.mk [10; 11; 12; 13; 14; 15; 16] true 4 7 2 [12; 13])
      !! Z.to_nat 5 = Some x /\
    ReadBuffer.window 4 b' /\
    ReadBuffer.file b' =
      ReadBuffer.file (ReadBuffer.mk [10; 11; 12; 13; 14; 15; 16] true 4 7 2 [12; 13]) /\
    ReadBuffer.buffered b' 5 = true.
Proof.
  assert (H0 : 0 < 4) by lia.
  assert (H1 : ReadBuffer.window 4
                 (ReadBuffer.mk [10; 11; 12; 13; 14; 15; 16] true 4 7 2 [12; 13])).
  { unfold ReadBuffer.window, ReadBuffer.buffer_size.
    cbn [ReadBuffer.file ReadBuffer.good ReadBuffer.pos ReadBuffer.elements
         ReadBuffer.offset ReadBuffer.buffer length].
    repeat split; try reflexivity; lia. }
  assert (H2 : 0 <= 5 < ReadBuffer.size
                 (ReadBuffer.mk [10; 11; 12; 13; 14; 15; 16] true 4 7 2 [12; 13]))
    by (unfold ReadBuffer.size; cbn [ReadBuffer.elements]; lia).
  assert (H3 : (length (ReadBuffer.buffer
                  (ReadBuffer.mk [10; 11; 12; 13; 14; 15; 16] true 4 7 2 [12; 13]))
                <= 2)%nat) by (cbn [ReadBuffer.buffer length]; lia).
  split; [exact H0 |]. split; [exact H1 |]. split; [exact H2 |]. split; [exact H3 |].
  exact (ReadBuffer_get_reads_file 0 4 H0 2 _ 5 H1 H2 H3).
Defined.

Lemma ReadBuffer_past_the_end_witness :
  ReadBuffer.window 4 (ReadBuffer.mk [10; 11; 12; 13; 14; 15; 16] true 4 7 2 [12; 13]) /\
  ReadBuffer.size (ReadBuffer.mk [10; 11; 12; 13; 14; 15; 16] true 4 7 2 [12; 13])
    <= 7 < 2 ^ 64 /\
  ReadBuffer.buffered
    (ReadBuffer.mk [10; 11; 12; 13; 14; 15; 16] true 4 7 2 [12; 13]) 7 = false /\
  ReadBuffer.seek 0 4 2
    (ReadBuffer.mk [10; 11; 12; 13; 14; 15; 16] true 4 7 2 [12; 13]) 7 =
    Ok (ReadBuffer.mk [10; 11; 12; 13; 14; 15; 16] true 4 7 2 [12; 13]) /\
  ReadBuffer.get 0 4 2
    (ReadBuffer.mk [10; 11; 12; 13; 14; 15; 16] true 4 7 2 [12; 13]) 7 = Fault.
Proof.
  assert (H1 : ReadBuffer.window 4
                 (ReadBuffer.mk [10; 11; 12; 13; 14; 15; 16] true 4 7 2 [12; 13])).
  { unfold ReadBuffer.window, ReadBuffer.buffer_size.
    cbn [ReadBuffer.file ReadBuffer.good ReadBuffer.pos ReadBuffer.elements
         ReadBuffer.offset ReadBuffer.buffer length].
    repeat split; try reflexivity; lia. }
  assert (H2 : ReadBuffer.size
                 (ReadBuffer.mk [10; 11; 12; 13; 14; 15; 16] true 4 7 2 [12; 13])
               <= 7 < 2 ^ 64)
    by (unfold ReadBuffer.size; cbn [ReadBuffer.elements]; lia).
  split; [exact H1 |]. split; [exact H2 |].
  exact (ReadBuffer_past_the_end 0 4 2 _ 7 H1 H2).
Defined.

(** ** Node: the encoding keeps the order of (id, offset) *)

(** X22: [PathFromComparator] on path nodes that start at the encoded
    positions [(id1, offset1)] and [(id2, offset2)], with ids below 2^54 and
    offsets below 1024, orders them by id first and by offset among equal
    ids. *)
Theorem PathFromComparator_by_id_then_offset (a b : PathNode.t)
    (id1 offset1 id2 offset2 : Z) :
  0 <= id1 < 2 ^ 54 -> 0 <= offset1 < 1024 ->
  0 <= id2 < 2 ^ 54 -> 0 <= offset2 < 1024 ->
  PathNode.from a = Node.encode id1 offset1 ->
  PathNode.from b = Node.encode id2 offset2 ->
  PathFromComparator a b = true <->
  id1 < id2 \/ (id1 = id2 /\ offset1 < offset2).
Proof.
  intros H1 Ho1 H2 Ho2 Ha Hb.
  unfold PathFromComparator. rewrite Ha, Hb.
  unfold Node.encode, Node.OFFSET_BITS.
  rewrite !lor_shl64_add by lia.
  change (2 ^ 10) with 1024. rewrite Z.ltb_lt. lia.
Qed.

Lemma PathFromComparator_by_id_then_offset_witness :
  0 <= 5 < 2 ^ 54 /\ 0 <= 1000 < 1024 /\
  0 <= 6 < 2 ^ 54 /\ 0 <= 0 < 1024 /\
  PathNode.from (PathNode.mk 6120 0 [] [] 0) = Node.encode 5 1000 /\
  PathNode.from (PathNode.mk 6144 0 [] [] 0) = Node.encode 6 0 /\
  (PathFromComparator (PathNode.mk 6120 0 [] [] 0) (PathNode.mk 6144 0 [] [] 0) = true <->
   5 < 6 \/ (5 = 6 /\ 1000 < 0)).
Proof.
  assert (H1 : 0 <= 5 < 2 ^ 54) by lia.
  assert (H2 : 0 <= 1000 < 1024) by lia.
  assert (H3 : 0 <= 6 < 2 ^ 54) by lia.
  assert (H4 : 0 <= 0 < 1024) by lia.
  assert (H5 : PathNode.from (PathNode.mk 6120 0 [] [] 0) = Node.encode 5 1000)
    by reflexivity.
  assert (H6 : PathNode.from (PathNode.mk 6144 0 [] [] 0) = Node.encode 6 0)
    by reflexivity.
  split; [exact H1 |]. split; [exact H2 |]. split; [exact H3 |]. split; [exact H4 |].
  split; [exact H5 |]. split; [exact H6 |].
  exact (PathFromComparator_by_id_then_offset _ _ 5 1000 6 0 H1 H2 H3 H4 H5 H6).
Defined.

(** ** Key: characters outside the 7-bit range *)

(** X23: [Key::encode] indexes [char2comp] with a plain [char].  With a
    table of at most 2^64 - 128 entries (it has 256), a k-mer that holds a
    byte from 0x80 on, anywhere, makes [encode] read the table outside its
    bounds: no key is returned for it. *)
Theorem Key_encode_high_byte alpha kmer pred succ :
  Z.of_nat (length (char2comp alpha)) <= 2 ^ 64 - 128 ->
  Exists (fun c => 128 <= char_byte c) (list_ascii_of_string kmer) ->
  Key.encode alpha kmer pred succ = Fault.
Proof.
  intros Hlen Hex. unfold Key.encode.
  rewrite (encode_loop_high_byte alpha kmer 0 Hlen Hex). reflexivity.
Qed.

Lemma Key_encode_high_byte_witness :
  Z.of_nat (length (char2comp dna_alphabet)) <= 2 ^ 64 - 128 /\
  Exists (fun c => 128 <= char_byte c)
         (list_ascii_of_string (String "A" (String (ascii_of_nat 200) "C"))) /\
  Key.encode dna_alphabet (String "A" (String (ascii_of_nat 200) "C")) 16 2 = Fault.
Proof.
  assert (H1 : Z.of_nat (length (char2comp dna_alphabet)) <= 2 ^ 64 - 128)
    by (vm_compute; discriminate).
  assert (H2 : Exists (fun c => 128 <= char_byte c)
                 (list_ascii_of_string (String "A" (String (ascii_of_nat 200) "C")))).
  { apply Exists_cons_tl, Exists_cons_hd. vm_compute. discriminate. }
  split; [exact H1 |]. split; [exact H2 |].
  exact (Key_encode_high_byte dna_alphabet _ 16 2 H1 H2).
Defined.
